(** * Intellistep: the stepper-motor core (src/hardware/motor.cpp), the
      PID wrapper (src/software/pid.cpp) and the value parser
      (src/software/parser.cpp)

    A shallow embedding of the motor object, its coil driver, its state
    machine and its parameter accessors, of the PID wrapper and of the two
    functions that cut values out of a command line, followed by the
    properties that were checked against them.

    Conventions.
    - Fixed-width integers are [Z] with the wrap-around written out
      ([to_u16], [to_i16], [to_u32], [to_i32]).
    - [float] quantities (angles, the step angle, sensor readings) are
      rationals [Q].  The state machine, the stepping and the accessors are
      stated over exact rational arithmetic.  [driveCoilsAngle] itself is
      also embedded operation by operation in binary32, every [float]
      operation being the exact one followed by IEEE 754 rounding to
      nearest (module [Binary32]); its properties are stated over that
      embedding.  The product [current * 1.414] / [current * 0.707] of the
      current setters is modelled bit for bit in binary64
      ([trunc_mul_double]).
    - Hardware writes ([GPIO_WRITE], [analogSet]) are recorded in the [hw]
      field of the motor, newest first.
    - Constants, macros and tables that come from headers which are not part
      of the sources at hand (config.h, fastSine.h, ...) are the fields of the
      class [Board]. *)

From Stdlib Require Import ZArith QArith Qround Qabs Qpower Bool List Ascii
  Lia Lqa.
Import ListNotations.

Open Scope Z_scope.

(** ** Machine integers *)

Definition to_u16 (z : Z) : Z := z mod 65536.
Definition to_u32 (z : Z) : Z := z mod 4294967296.
Definition to_i16 (z : Z) : Z := (z + 32768) mod 65536 - 32768.
Definition to_i32 (z : Z) : Z := (z + 2147483648) mod 4294967296 - 2147483648.

(** Arduino's [constrain(amt, low, high)] macro:
    [((amt)<(low)?(low):((amt)>(high)?(high):(amt)))]. *)
Definition constrain (amt low high : Z) : Z :=
  if amt <? low then low else if amt >? high then high else amt.

(** ** Rationals standing for [float] values *)

Definition Qltb (a b : Q) : bool := negb (Qle_bool b a).

(** C conversion of a floating value to an integer: truncation toward zero. *)
Definition Qtrunc (q : Q) : Z := Z.quot (Qnum q) (Zpos (Qden q)).

(** Arduino's [round(x)] macro:
    [((x)>=0?(long)((x)+0.5):(long)((x)-0.5))]. *)
Definition round (x : Q) : Z :=
  if Qle_bool 0 x then Qtrunc (x + (1 # 2))%Q else Qtrunc (x - (1 # 2))%Q.

(** Conversion of a [float] to [uint32_t].  In range it truncates; out of
    range the C standard leaves it open and the soft-float runtime of the
    target saturates, which is what is written here. *)
Definition float_to_u32 (x : Q) : Z :=
  let t := Qtrunc x in
  if t <? 0 then 0 else if t >? 4294967295 then 4294967295 else t.

(** ** binary64 product of an integer and a literal

    [round53 p] rounds the positive integer [p] to 53 significant bits, ties
    to even: this is the binary64 rounding of [p / 2^k] scaled back by [2^k]
    (no overflow or underflow can occur for the magnitudes used here). *)
Definition rne_shift (p e : Z) : Z :=
  let q := Z.shiftr p e in
  let r := p - Z.shiftl q e in
  let half := Z.shiftl 1 (e - 1) in
  if e <=? 0 then p
  else if r <? half then Z.shiftl q e
  else if half <? r then Z.shiftl (q + 1) e
  else if Z.even q then Z.shiftl q e else Z.shiftl (q + 1) e.

Definition round53 (p : Z) : Z :=
  if p <=? 0 then 0 else rne_shift p (Z.log2 p + 1 - 53).

(** [(integer)(x * c)] in binary64, for [0 <= x] and the literal
    [c = mant / 2^k]: the exact product is rounded to binary64 and the result
    truncated. *)
Definition trunc_mul_double (x mant k : Z) : Z :=
  Z.shiftr (round53 (x * mant)) k.

(** The literal [1.414] is the binary64 number [lit_mant / 2^52], and [0.707]
    is [lit_mant / 2^53]. *)
Definition lit_mant : Z := 6368089873101881.

(** ** Enumerations (motor.h) *)

Inductive COIL_STATE : Set :=
  | COIL_NOT_SET | FORWARD | BACKWARD | BRAKE | COAST.

(** [OVERTEMP] exists when overtemperature protection is compiled in. *)
Inductive MOTOR_STATE : Set :=
  | MOTOR_NOT_SET | ENABLED | DISABLED | FORCED_ENABLED | FORCED_DISABLED
  | OVERTEMP.

(** The direction argument of [step] as motor.cpp uses it. *)
Inductive STEP_DIR : Set := PIN | COUNTER_CLOCKWISE | CLOCKWISE.

Definition COIL_STATE_eqb (a b : COIL_STATE) : bool :=
  match a, b with
  | COIL_NOT_SET, COIL_NOT_SET | FORWARD, FORWARD | BACKWARD, BACKWARD
  | BRAKE, BRAKE | COAST, COAST => true
  | _, _ => false
  end.

Definition MOTOR_STATE_eqb (a b : MOTOR_STATE) : bool :=
  match a, b with
  | MOTOR_NOT_SET, MOTOR_NOT_SET | ENABLED, ENABLED | DISABLED, DISABLED
  | FORCED_ENABLED, FORCED_ENABLED | FORCED_DISABLED, FORCED_DISABLED
  | OVERTEMP, OVERTEMP => true
  | _, _ => false
  end.

(** ** Hardware outputs *)

Inductive Channel : Set := A | B.

Inductive DirPin : Set :=
  | COIL_A_DIR_1_PIN | COIL_A_DIR_2_PIN | COIL_B_DIR_1_PIN | COIL_B_DIR_2_PIN.

Definition HIGH : bool := true.
Definition LOW : bool := false.

Inductive HwEvent : Set :=
  | GPIO_WRITE (pin : DirPin) (level : bool)
  | analogSet (ch : Channel) (duty : Z).

Definition is_GPIO_WRITE (e : HwEvent) : bool :=
  match e with GPIO_WRITE _ _ => true | analogSet _ _ => false end.

(** The duty cycle last written to a channel, if any ([hw] is newest first). *)
Fixpoint pwm_of (ch : Channel) (log : list HwEvent) : option Z :=
  match log with
  | [] => None
  | analogSet c d :: rest =>
      match ch, c with
      | A, A | B, B => Some d
      | _, _ => pwm_of ch rest
      end
  | GPIO_WRITE _ _ :: rest => pwm_of ch rest
  end.

(** ** The board: what the absent headers define *)

Class Board : Type := {
  SINE_VAL_COUNT : Z;
  SINE_MAX : Z;
  fastSin : Z -> Z;
  fastCos : Z -> Z;
  MAX_RMS_BOARD_CURRENT : Z;
  MAX_PEAK_BOARD_CURRENT : Z;
  PWM_MAX_DUTY_CYCLE : Z;
  CURRENT_SENSE_RESISTOR : Q;
  BOARD_VOLTAGE : Q;
  IDLE_MODE : COIL_STATE;
  startupAngleOffset : Q
}.

(** What the motor reads from the outside during one call: the encoder and
    the direction input.  [DIRECTION_of_pin] is the value of
    [DIRECTION(GPIO_READ(DIRECTION_PIN))]. *)
Record Inputs : Type := {
  getAngle : Q;
  getAbsoluteAngle : Q;
  getEncoderSpeed : Q;
  DIRECTION_of_pin : Z
}.

(** ** The motor object *)

Record StepperMotor : Type := {
  rmsCurrent : Z;
  peakCurrent : Z;
  microstepDivisor : Z;
  fullStepAngle : Q;
  microstepAngle : Q;
  reversed : Z;
  enableInverted : bool;
  microstepMultiplier : Z;
  currentStep : Z;
  currentAngle : Q;
  desiredAngle : Q;
  state : MOTOR_STATE;
  previousCoilStateA : COIL_STATE;
  previousCoilStateB : COIL_STATE;
  hw : list HwEvent
}.

Definition with_currents (rms peak : Z) (m : StepperMotor) : StepperMotor :=
  {| rmsCurrent := rms; peakCurrent := peak;
     microstepDivisor := microstepDivisor m; fullStepAngle := fullStepAngle m;
     microstepAngle := microstepAngle m; reversed := reversed m;
     enableInverted := enableInverted m;
     microstepMultiplier := microstepMultiplier m;
     currentStep := currentStep m; currentAngle := currentAngle m;
     desiredAngle := desiredAngle m; state := state m;
     previousCoilStateA := previousCoilStateA m;
     previousCoilStateB := previousCoilStateB m; hw := hw m |}.

Definition with_stepping (d : Z) (fsa msa : Q) (m : StepperMotor)
  : StepperMotor :=
  {| rmsCurrent := rmsCurrent m; peakCurrent := peakCurrent m;
     microstepDivisor := d; fullStepAngle := fsa; microstepAngle := msa;
     reversed := reversed m; enableInverted := enableInverted m;
     microstepMultiplier := microstepMultiplier m;
     currentStep := currentStep m; currentAngle := currentAngle m;
     desiredAngle := desiredAngle m; state := state m;
     previousCoilStateA := previousCoilStateA m;
     previousCoilStateB := previousCoilStateB m; hw := hw m |}.

Definition with_flags (rev : Z) (inv : bool) (mult : Z) (m : StepperMotor)
  : StepperMotor :=
  {| rmsCurrent := rmsCurrent m; peakCurrent := peakCurrent m;
     microstepDivisor := microstepDivisor m; fullStepAngle := fullStepAngle m;
     microstepAngle := microstepAngle m; reversed := rev;
     enableInverted := inv; microstepMultiplier := mult;
     currentStep := currentStep m; currentAngle := currentAngle m;
     desiredAngle := desiredAngle m; state := state m;
     previousCoilStateA := previousCoilStateA m;
     previousCoilStateB := previousCoilStateB m; hw := hw m |}.

Definition with_position (st : Z) (cur des : Q) (m : StepperMotor)
  : StepperMotor :=
  {| rmsCurrent := rmsCurrent m; peakCurrent := peakCurrent m;
     microstepDivisor := microstepDivisor m; fullStepAngle := fullStepAngle m;
     microstepAngle := microstepAngle m; reversed := reversed m;
     enableInverted := enableInverted m;
     microstepMultiplier := microstepMultiplier m;
     currentStep := st; currentAngle := cur; desiredAngle := des;
     state := state m;
     previousCoilStateA := previousCoilStateA m;
     previousCoilStateB := previousCoilStateB m; hw := hw m |}.

Definition with_state (st : MOTOR_STATE) (m : StepperMotor) : StepperMotor :=
  {| rmsCurrent := rmsCurrent m; peakCurrent := peakCurrent m;
     microstepDivisor := microstepDivisor m; fullStepAngle := fullStepAngle m;
     microstepAngle := microstepAngle m; reversed := reversed m;
     enableInverted := enableInverted m;
     microstepMultiplier := microstepMultiplier m;
     currentStep := currentStep m; currentAngle := currentAngle m;
     desiredAngle := desiredAngle m; state := st;
     previousCoilStateA := previousCoilStateA m;
     previousCoilStateB := previousCoilStateB m; hw := hw m |}.

Definition with_coils (a b : COIL_STATE) (log : list HwEvent)
  (m : StepperMotor) : StepperMotor :=
  {| rmsCurrent := rmsCurrent m; peakCurrent := peakCurrent m;
     microstepDivisor := microstepDivisor m; fullStepAngle := fullStepAngle m;
     microstepAngle := microstepAngle m; reversed := reversed m;
     enableInverted := enableInverted m;
     microstepMultiplier := microstepMultiplier m;
     currentStep := currentStep m; currentAngle := currentAngle m;
     desiredAngle := desiredAngle m; state := state m;
     previousCoilStateA := a; previousCoilStateB := b; hw := log |}.

(** One hardware write. *)
Definition emit (e : HwEvent) (m : StepperMotor) : StepperMotor :=
  with_coils (previousCoilStateA m) (previousCoilStateB m) (e :: hw m) m.

Section Motor.

Context {board : Board}.

(** ** Coil driver *)

(** [StepperMotor::currentToPWM]. *)
Definition currentToPWM (current : Z) : Z :=
  let current := to_u16 current in
  let PWMValue :=
    float_to_u32
      ((inject_Z PWM_MAX_DUTY_CYCLE * CURRENT_SENSE_RESISTOR
        * inject_Z (Z.abs current)) / (BOARD_VOLTAGE * 100))%Q in
  to_u16 (constrain PWMValue 0 PWM_MAX_DUTY_CYCLE).

(** The direction-pin truth table of [setCoilA] / [setCoilB]. *)
Definition writeDirPins (pin1 pin2 : DirPin) (desiredState : COIL_STATE)
  (m : StepperMotor) : StepperMotor :=
  match desiredState with
  | FORWARD => emit (GPIO_WRITE pin2 LOW) (emit (GPIO_WRITE pin1 HIGH) m)
  | BACKWARD => emit (GPIO_WRITE pin2 HIGH) (emit (GPIO_WRITE pin1 LOW) m)
  | BRAKE => emit (GPIO_WRITE pin2 HIGH) (emit (GPIO_WRITE pin1 HIGH) m)
  | COAST => emit (GPIO_WRITE pin2 LOW) (emit (GPIO_WRITE pin1 LOW) m)
  | COIL_NOT_SET => m
  end.

(** [StepperMotor::setCoilA]. *)
Definition setCoilA (desiredState : COIL_STATE) (current : Z)
  (m : StepperMotor) : StepperMotor :=
  let current := to_u16 current in
  let m1 :=
    if negb (COIL_STATE_eqb desiredState (previousCoilStateA m)) then
      let m := emit (analogSet A 0) m in
      let m := writeDirPins COIL_A_DIR_1_PIN COIL_A_DIR_2_PIN desiredState m in
      with_coils desiredState (previousCoilStateB m) (hw m) m
    else m in
  emit (analogSet A (currentToPWM current)) m1.

(** [StepperMotor::setCoilB]. *)
Definition setCoilB (desiredState : COIL_STATE) (current : Z)
  (m : StepperMotor) : StepperMotor :=
  let current := to_u16 current in
  let m1 :=
    if negb (COIL_STATE_eqb desiredState (previousCoilStateB m)) then
      let m := emit (analogSet B 0) m in
      let m := writeDirPins COIL_B_DIR_1_PIN COIL_B_DIR_2_PIN desiredState m in
      with_coils (previousCoilStateA m) desiredState (hw m) m
    else m in
  emit (analogSet B (currentToPWM current)) m1.

(** ** Driving the coils from a step count (static current build) *)

(** [steps %= 4 * microstepDivisor; arrayIndex = steps & (SINE_VAL_COUNT - 1)].
    C's [%] keeps the sign of the dividend ([Z.rem]). *)
Definition sineIndex (steps : Z) (m : StepperMotor) : Z :=
  let steps := to_i32 steps in
  let steps := Z.rem steps (4 * microstepDivisor m) in
  to_u16 (Z.land steps (SINE_VAL_COUNT - 1)).

(** [((int16_t)peakCurrent * coilPercent) / SINE_MAX] stored in an [int16_t]. *)
Definition coilPower (coilPercent : Z) (m : StepperMotor) : Z :=
  to_i16 (Z.quot (to_i16 (peakCurrent m) * to_i16 coilPercent) SINE_MAX).

(** The command a signed power turns into: direction and magnitude. *)
Definition coilCommand (power : Z) : COIL_STATE * Z :=
  if power >? 0 then (FORWARD, power)
  else if power <? 0 then (BACKWARD, - power)
  else (BRAKE, 0).

Definition coilCommandA (steps : Z) (m : StepperMotor) : COIL_STATE * Z :=
  coilCommand (coilPower (fastSin (sineIndex steps m)) m).

Definition coilCommandB (steps : Z) (m : StepperMotor) : COIL_STATE * Z :=
  coilCommand (coilPower (fastCos (sineIndex steps m)) m).

(** [StepperMotor::driveCoils]. *)
Definition driveCoils (steps : Z) (m : StepperMotor) : StepperMotor :=
  let ca := coilCommandA steps m in
  let cb := coilCommandB steps m in
  setCoilB (fst cb) (snd cb) (setCoilA (fst ca) (snd ca) m).

(** ** Driving the coils from an angle *)

(** [driveCoilsAngle] over exact rationals, as the state machine uses it.
    The same function with the rounding of every [float] operation is
    [Binary32.driveCoilsAngle] below. *)

(** The round-based shortcut at the top of [driveCoilsAngle]. *)
Definition roundCorrection (degAngle : Q) : Q :=
  if Qltb degAngle 0 then
    (degAngle + inject_Z (round (Qabs degAngle / 360)) * 360)%Q
  else if Qltb 360 degAngle then
    (degAngle - inject_Z (round (degAngle / 360)) * 360)%Q
  else degAngle.

(** The [while (degAngle < 0 || degAngle > 360)] loop, run for at most
    [fuel] iterations. *)
Fixpoint constrainLoop (fuel : nat) (degAngle : Q) : Q :=
  match fuel with
  | O => degAngle
  | S fuel' =>
      if Qltb degAngle 0 then constrainLoop fuel' (degAngle + 360)%Q
      else if Qltb 360 degAngle then constrainLoop fuel' (degAngle - 360)%Q
      else degAngle
  end.

(** Iterations after which the loop has certainly left. *)
Definition loopBound (degAngle : Q) : nat :=
  Z.to_nat (Qceiling (Qabs degAngle / 360)).

Definition normalizeAngle (degAngle : Q) : Q :=
  let a := roundCorrection degAngle in
  constrainLoop (loopBound a) a.

(** [roundedMicrosteps]: the microstep count handed to [driveCoils]. *)
Definition angleToMicrosteps (degAngle : Q) (m : StepperMotor) : Z :=
  to_u16 (round ((normalizeAngle degAngle / fullStepAngle m)
                 * inject_Z (microstepDivisor m))%Q).

(** [StepperMotor::driveCoilsAngle]. *)
Definition driveCoilsAngle (degAngle : Q) (m : StepperMotor) : StepperMotor :=
  driveCoils (angleToMicrosteps degAngle m) m.

(** ** State machine *)

(** The body shared by the [ENABLED] / [FORCED_ENABLED] cases: lock the coils
    at the shaft angle and correct [currentAngle]. *)
Definition relock (env : Inputs) (m : StepperMotor) : StepperMotor :=
  let m := driveCoilsAngle (getAngle env - startupAngleOffset)%Q m in
  with_position (currentStep m) (getAngle env - startupAngleOffset)%Q
    (desiredAngle m) m.

(** The [default:] case; [motor] is the global object, that is, [this]. *)
Definition idleAndCommit (newState : MOTOR_STATE) (m : StepperMotor)
  : StepperMotor :=
  with_state newState (setCoilB IDLE_MODE 0 (setCoilA IDLE_MODE 0 m)).

(** [StepperMotor::setState].  The [switch] cases have no [break]: each case
    runs into the ones below it. *)
Definition setState (env : Inputs) (newState : MOTOR_STATE)
  (clearErrors : bool) (m : StepperMotor) : StepperMotor :=
  if negb (MOTOR_STATE_eqb (state m) newState) then
    if clearErrors then
      match newState with
      | ENABLED =>
          let m := with_state ENABLED (relock env m) in
          let m := with_state FORCED_ENABLED (relock env m) in
          idleAndCommit newState m
      | FORCED_ENABLED =>
          let m := with_state FORCED_ENABLED (relock env m) in
          idleAndCommit newState m
      | _ => idleAndCommit newState m
      end
    else
      if MOTOR_STATE_eqb (state m) ENABLED
         || MOTOR_STATE_eqb (state m) DISABLED then
        match newState with
        | ENABLED =>
            let m := with_state ENABLED (relock env m) in
            idleAndCommit newState m
        | _ => idleAndCommit newState m
        end
      else m
  else m.

Definition getState (m : StepperMotor) : MOTOR_STATE := state m.

(** The constructor: pin setup has no effect on the modelled state; it ends
    with [setState(DISABLED, true)]. *)
Definition construct (env : Inputs) (m : StepperMotor) : StepperMotor :=
  setState env DISABLED true m.

(** ** Parameter accessors *)

Definition getMotorRPM (env : Inputs) : Q := (getEncoderSpeed env / 360)%Q.

Definition getAngleError (env : Inputs) (m : StepperMotor) : Q :=
  (getAbsoluteAngle env - desiredAngle m)%Q.

Definition getRMSCurrent (m : StepperMotor) : Z := rmsCurrent m.
Definition getPeakCurrent (m : StepperMotor) : Z := peakCurrent m.

(** [StepperMotor::setRMSCurrent].  The argument is a [uint16_t]; compared
    with [-1] it is first promoted to [int]. *)
Definition setRMSCurrent (arg : Z) (m : StepperMotor) : StepperMotor :=
  let rmsCurrent := to_u16 arg in
  if negb (rmsCurrent =? -1) then
    with_currents
      (constrain rmsCurrent 0 (to_u16 MAX_RMS_BOARD_CURRENT))
      (constrain (to_u16 (trunc_mul_double rmsCurrent lit_mant 52)) 0
                 (to_u16 MAX_PEAK_BOARD_CURRENT))
      m
  else m.

(** [StepperMotor::setPeakCurrent]. *)
Definition setPeakCurrent (arg : Z) (m : StepperMotor) : StepperMotor :=
  let peakCurrent := to_u16 arg in
  if negb (peakCurrent =? -1) then
    with_currents
      (constrain (to_u16 (trunc_mul_double peakCurrent lit_mant 53)) 0
                 (to_u16 MAX_RMS_BOARD_CURRENT))
      (constrain peakCurrent 0 (to_u16 MAX_PEAK_BOARD_CURRENT))
      m
  else m.

Definition getMicrostepping (m : StepperMotor) : Z := microstepDivisor m.

(** [StepperMotor::setMicrostepping]. *)
Definition setMicrostepping (arg : Z) (m : StepperMotor) : StepperMotor :=
  let setMicrostepping := to_u16 arg in
  if negb (setMicrostepping =? -1) then
    with_stepping setMicrostepping (fullStepAngle m)
      (fullStepAngle m / inject_Z setMicrostepping)%Q m
  else m.

(** [StepperMotor::setFullStepAngle]. *)
Definition setFullStepAngle (newStepAngle : Q) (m : StepperMotor)
  : StepperMotor :=
  if negb (Qeq_bool newStepAngle (-1)) then
    if Qeq_bool newStepAngle (18 # 10) || Qeq_bool newStepAngle (9 # 10) then
      with_stepping (microstepDivisor m) newStepAngle
        (newStepAngle / inject_Z (microstepDivisor m))%Q m
    else m
  else m.

Definition getFullStepAngle (m : StepperMotor) : Q := fullStepAngle m.
Definition getMicrostepAngle (m : StepperMotor) : Q := microstepAngle m.

(** [StepperMotor::setReversed]. *)
Definition setReversed (rev : bool) (m : StepperMotor) : StepperMotor :=
  with_flags (if rev then -1 else 1) (enableInverted m)
    (microstepMultiplier m) m.

(** [StepperMotor::getReversed]: [reversed > 0 ? 1 : 0]. *)
Definition getReversed (m : StepperMotor) : bool := reversed m >? 0.

Definition setEnableInversion (inverted : bool) (m : StepperMotor)
  : StepperMotor :=
  with_flags (reversed m) inverted (microstepMultiplier m) m.

Definition getEnableInversion (m : StepperMotor) : bool := enableInverted m.

(** [StepperMotor::setMicrostepMultiplier]: the [float] argument is stored
    in the [uint32_t] field. *)
Definition setMicrostepMultiplier (newMultiplier : Q) (m : StepperMotor)
  : StepperMotor :=
  if negb (Qeq_bool newMultiplier (-1)) then
    with_flags (reversed m) (enableInverted m) (float_to_u32 newMultiplier) m
  else m.

(** [StepperMotor::getMicrostepMultiplier]: the field read back as [float]. *)
Definition getMicrostepMultiplier (m : StepperMotor) : Q :=
  inject_Z (microstepMultiplier m).

(** [StepperMotor::speedToHz]. *)
Definition speedToHz (angularSpeed : Q) (m : StepperMotor) : Q :=
  (angularSpeed / microstepAngle m)%Q.

(** [StepperMotor::invertDirection] and [StepperMotor::getSign]. *)
Definition invertDirection (invert : bool) : Z := if invert then -1 else 1.
Definition getSign (num : Q) : Z := if Qltb num 0 then -1 else 1.

(** ** Stepping *)

(** [StepperMotor::simpleStep]. *)
Definition simpleStep (env : Inputs) (m : StepperMotor) : StepperMotor :=
  let st :=
    to_i32 (currentStep m
            + DIRECTION_of_pin env * reversed m * microstepMultiplier m) in
  let m := with_position st (currentAngle m) (desiredAngle m) m in
  driveCoils (currentStep m) m.

(** [StepperMotor::step]. *)
Definition step (env : Inputs) (dir : STEP_DIR)
  (useMultiplier updateDesiredAngle : bool) (m : StepperMotor)
  : StepperMotor :=
  let angleChange := microstepAngle m in
  let stepChange := 1 in
  let angleChange :=
    if useMultiplier
    then (angleChange * inject_Z (microstepMultiplier m))%Q
    else angleChange in
  let stepChange :=
    if useMultiplier then to_i32 (stepChange * microstepMultiplier m)
    else stepChange in
  let angleChange :=
    match dir with
    | PIN => (angleChange * inject_Z (DIRECTION_of_pin env * reversed m))%Q
    | CLOCKWISE => (angleChange * inject_Z (-1))%Q
    | COUNTER_CLOCKWISE => angleChange
    end in
  let des :=
    if updateDesiredAngle then (desiredAngle m + angleChange)%Q
    else desiredAngle m in
  let m :=
    with_position (to_i32 (currentStep m + getSign angleChange * stepChange))
      (currentAngle m + angleChange)%Q des m in
  driveCoils (currentStep m) m.

End Motor.

(** ** The PID wrapper (src/software/pid.cpp)

    The wrapped controller is the third-party PID library: an object that
    holds pointers to [input], [output] and [setpoint].  It is abstracted as
    a type [PID] with the operations the wrapper calls; [Compute] reads the
    input and the setpoint and yields the new output (the previous output is
    passed in because the library may leave it untouched). *)

Class PIDLibrary : Type := {
  PID : Type;
  Compute : PID -> Q -> Q -> Q -> PID * Q;
  SetTunings : PID -> Q -> Q -> Q -> PID;
  SetOutputLimits : PID -> Q -> Q -> PID;
  GetKp : PID -> Q;
  GetKi : PID -> Q;
  GetKd : PID -> Q
}.

Section Pid.

Context {lib : PIDLibrary}.

Record StepperPID : Type := {
  input : Q;
  output : Q;
  setpoint : Q;
  P : Q;
  I : Q;
  D : Q;
  pid : PID
}.

Definition getP (p : StepperPID) : Q := GetKp (pid p).
Definition getI (p : StepperPID) : Q := GetKi (pid p).
Definition getD (p : StepperPID) : Q := GetKd (pid p).

(** [StepperPID::updateTunings]. *)
Definition updateTunings (p : StepperPID) : StepperPID :=
  {| input := input p; output := output p; setpoint := setpoint p;
     P := P p; I := I p; D := D p;
     pid := SetTunings (pid p) (P p) (I p) (D p) |}.

Definition setP (newP : Q) (p : StepperPID) : StepperPID :=
  updateTunings
    {| input := input p; output := output p; setpoint := setpoint p;
       P := newP; I := I p; D := D p; pid := pid p |}.

Definition setI (newI : Q) (p : StepperPID) : StepperPID :=
  updateTunings
    {| input := input p; output := output p; setpoint := setpoint p;
       P := P p; I := newI; D := D p; pid := pid p |}.

Definition setD (newD : Q) (p : StepperPID) : StepperPID :=
  updateTunings
    {| input := input p; output := output p; setpoint := setpoint p;
       P := P p; I := I p; D := newD; pid := pid p |}.

Definition getDesiredPosition (p : StepperPID) : Q := setpoint p.

Definition setDesiredPosition (angle : Q) (p : StepperPID) : StepperPID :=
  {| input := input p; output := output p; setpoint := angle;
     P := P p; I := I p; D := D p; pid := pid p |}.

Definition setOutputLimits (min max : Q) (p : StepperPID) : StepperPID :=
  {| input := input p; output := output p; setpoint := setpoint p;
     P := P p; I := I p; D := D p;
     pid := SetOutputLimits (pid p) min max |}.

(** [StepperPID::compute]: the new wrapper state and the returned output. *)
Definition compute (env : Inputs) (motor : StepperMotor) (p : StepperPID)
  : StepperPID * Q :=
  let input' := getAngleError env motor in
  let r := Compute (pid p) input' (setpoint p) (output p) in
  let p' :=
    {| input := input'; output := snd r; setpoint := setpoint p;
       P := P p; I := I p; D := D p; pid := fst r |} in
  (p', output p').

End Pid.

(** ** [driveCoilsAngle] in binary32: IEEE 754 rounding on rationals

    The angle arithmetic of [driveCoilsAngle] is carried out on [float]
    (binary32) values, and Arduino's [round] macro adds its [0.5] in
    [double] (binary64).  A finite floating-point number is the rational it
    denotes; an operation is the exact operation followed by rounding to
    nearest, ties to even, in the format of the result.  The operations are
    taken in the order the source writes them ([#pragma GCC optimize
    (-Ofast)] at the top of motor.cpp would let a compiler reassociate
    them); [round] and [abs] are the Arduino macros, [long] has 32 bits. *)

Module Binary32.

Definition pow2 (k : Z) : Q := (2 ^ k)%Q.

(** The exponent [e] with [2^e <= x < 2^(e+1)], for positive [x]. *)
Definition floorLog2 (x : Q) : Z :=
  let c := Z.log2 (Qnum x) - Z.log2 (Zpos (Qden x)) in
  if Qle_bool (pow2 c) x then c else c - 1.

(** Nearest integer, ties to the even one. *)
Definition rne (x : Q) : Z :=
  let f := Qfloor x in
  let d := (x - inject_Z f)%Q in
  if Qltb d (1 # 2) then f
  else if Qltb (1 # 2) d then f + 1
  else if Z.even f then f else f + 1.

(** Unit in the last place of a positive [x] in the format with [prec]
    significant bits and least normal exponent [emin]; below [2^emin] the
    spacing is that of the subnormal numbers. *)
Definition ulp (prec emin : Z) (x : Q) : Q :=
  pow2 (Z.max (floorLog2 x) emin - prec + 1).

Definition roundPos (prec emin : Z) (x : Q) : Q :=
  (inject_Z (rne (x / ulp prec emin x)) * ulp prec emin x)%Q.

Definition roundFloat (prec emin : Z) (x : Q) : Q :=
  if Qltb 0 x then roundPos prec emin x
  else if Qltb x 0 then (- roundPos prec emin (- x))%Q
  else 0%Q.

(** [float] and [double]. *)
Definition round32 : Q -> Q := roundFloat 24 (-126).
Definition round64 : Q -> Q := roundFloat 53 (-1022).

(** The values a [float] variable can hold. *)
Definition isBinary32 (x : Q) : Prop := (round32 x == x)%Q.

(** The multiples of [2^k]. *)
Definition onGrid (k : Z) (x : Q) : Prop :=
  exists z : Z, (x == inject_Z z * pow2 k)%Q.

(** A rounded result of magnitude [2^128] or more is an infinity; the
    embedding follows finite values only. *)
Definition finite32 (x : Q) : option Q :=
  if Qltb (Qabs x) (pow2 128) then Some x else None.

Definition fadd (a b : Q) : option Q := finite32 (round32 (a + b)).
Definition fsub (a b : Q) : option Q := finite32 (round32 (a - b)).
Definition fmul (a b : Q) : option Q := finite32 (round32 (a * b)).
Definition fdiv (a b : Q) : option Q :=
  if Qeq_bool b 0 then None else finite32 (round32 (a / b)).

(** Conversion of an integer to [float]. *)
Definition ofInt (z : Z) : Q := round32 (inject_Z z).

(** Conversion of a floating value to [long] (32 bits on the target):
    truncation; out of range the behaviour is undefined. *)
Definition toLong (x : Q) : option Z :=
  let t := Qtrunc x in
  if (-2147483648 <=? t) && (t <=? 2147483647) then Some t else None.

(** Product of two [long]s; signed overflow is undefined. *)
Definition lmul (a b : Z) : option Z :=
  let p := a * b in
  if (-2147483648 <=? p) && (p <=? 2147483647) then Some p else None.

(** Arduino's [abs(x)] macro: [((x)>0?(x):-(x))]. *)
Definition absMacro (x : Q) : Q := if Qltb 0 x then x else (- x)%Q.

(** Arduino's [round(x)] macro on a [float]:
    [((x)>=0?(long)((x)+0.5):(long)((x)-0.5))]; the literal is a [double],
    so the sum is a [double]. *)
Definition roundMacro (x : Q) : option Z :=
  if Qle_bool 0 x then toLong (round64 (x + (1 # 2)))
  else toLong (round64 (x - (1 # 2))).

Definition bind {A B : Type} (o : option A) (f : A -> option B) : option B :=
  match o with Some a => f a | None => None end.

(** The round-based shortcut at the top of [driveCoilsAngle]. *)
Definition roundCorrection (degAngle : Q) : option Q :=
  if Qltb degAngle 0 then
    bind (fdiv (absMacro degAngle) (ofInt 360)) (fun x =>
    bind (roundMacro x) (fun r =>
    bind (lmul r 360) (fun l =>
    fadd degAngle (ofInt l))))
  else if Qltb 360 degAngle then
    bind (fdiv degAngle (ofInt 360)) (fun x =>
    bind (roundMacro x) (fun r =>
    bind (lmul r 360) (fun l =>
    fsub degAngle (ofInt l))))
  else Some degAngle.

(** The [while (degAngle < 0 || degAngle > 360)] loop; [None] when it has
    not left after [fuel] iterations. *)
Fixpoint constrainLoop (fuel : nat) (degAngle : Q) : option Q :=
  if Qltb degAngle 0 || Qltb 360 degAngle then
    match fuel with
    | O => None
    | S fuel' =>
        bind (if Qltb degAngle 0 then fadd degAngle (ofInt 360)
              else fsub degAngle (ofInt 360))
             (constrainLoop fuel')
    end
  else Some degAngle.

(** [degAngle] after the two normalisation steps. *)
Definition normalizeAngle (fuel : nat) (degAngle : Q) : option Q :=
  bind (roundCorrection degAngle) (constrainLoop fuel).

(** [microstepAngle], from the normalised angle. *)
Definition microstepAngle (degAngle : Q) (m : StepperMotor) : option Q :=
  bind (fdiv degAngle (fullStepAngle m)) (fun q =>
  fmul q (ofInt (microstepDivisor m))).

(** [roundedMicrosteps], from the normalised angle. *)
Definition angleToMicrosteps (degAngle : Q) (m : StepperMotor) : option Z :=
  bind (microstepAngle degAngle m) (fun v =>
  bind (roundMacro v) (fun r => Some (to_u16 r))).

(** [StepperMotor::driveCoilsAngle].  [None] stands for a call whose
    behaviour the source leaves undefined or whose loop has not left within
    [fuel] iterations. *)
Definition driveCoilsAngle {board : Board} (fuel : nat) (degAngle : Q)
  (m : StepperMotor) : option StepperMotor :=
  bind (normalizeAngle fuel degAngle) (fun a =>
  bind (angleToMicrosteps a m) (fun s =>
  Some (driveCoils s m))).

End Binary32.

(** ** A concrete board and controller for evaluation *)

(** Modelled from the spec: fastSine.h and config.h are not among the
    sources.  The table is one electrical cycle of sine values scaled to
    [SINE_MAX], indexed modulo its size, a power of two; four table entries
    per microstep quadrant at the largest divisor (32) give 128 entries.
    The cosine is the sine a quarter cycle ahead.  Idle coils coast. *)
Definition sineTable : list Z :=
  [
    0; 491; 980; 1467; 1951; 2430; 2903; 3369;
    3827; 4276; 4714; 5141; 5556; 5957; 6344; 6716;
    7071; 7410; 7730; 8032; 8315; 8577; 8819; 9040;
    9239; 9415; 9569; 9700; 9808; 9892; 9952; 9988;
    10000; 9988; 9952; 9892; 9808; 9700; 9569; 9415;
    9239; 9040; 8819; 8577; 8315; 8032; 7730; 7410;
    7071; 6716; 6344; 5957; 5556; 5141; 4714; 4276;
    3827; 3369; 2903; 2430; 1951; 1467; 980; 491;
    0; (-491); (-980); (-1467); (-1951); (-2430); (-2903); (-3369);
    (-3827); (-4276); (-4714); (-5141); (-5556); (-5957); (-6344); (-6716);
    (-7071); (-7410); (-7730); (-8032); (-8315); (-8577); (-8819); (-9040);
    (-9239); (-9415); (-9569); (-9700); (-9808); (-9892); (-9952); (-9988);
    (-10000); (-9988); (-9952); (-9892); (-9808); (-9700); (-9569); (-9415);
    (-9239); (-9040); (-8819); (-8577); (-8315); (-8032); (-7730); (-7410);
    (-7071); (-6716); (-6344); (-5957); (-5556); (-5141); (-4714); (-4276);
    (-3827); (-3369); (-2903); (-2430); (-1951); (-1467); (-980); (-491) ].

Definition refSin (i : Z) : Z := nth (Z.to_nat (i mod 128)) sineTable 0.

Definition refBoard : Board := {|
  SINE_VAL_COUNT := 128;
  SINE_MAX := 10000;
  fastSin := refSin;
  fastCos := fun i => refSin (i + 32);
  MAX_RMS_BOARD_CURRENT := 2474;
  MAX_PEAK_BOARD_CURRENT := 3500;
  PWM_MAX_DUTY_CYCLE := 4095;
  CURRENT_SENSE_RESISTOR := 2 # 10;
  BOARD_VOLTAGE := 33 # 10;
  IDLE_MODE := COAST;
  startupAngleOffset := 0
|}.

(** A proportional controller standing for the PID library: the output is
    the gain times (setpoint - input). *)
Definition refPID : PIDLibrary := {|
  PID := Q * Q * Q;
  Compute := fun k i s _ => (k, (fst (fst k) * (s - i))%Q);
  SetTunings := fun _ kp ki kd => (kp, ki, kd);
  SetOutputLimits := fun k _ _ => k;
  GetKp := fun k => fst (fst k);
  GetKi := fun k => snd (fst k);
  GetKd := fun k => snd k
|}.

(** A motor after power-up and configuration: 1.8 degree steps, divisor 16,
    1000 mA peak, disabled, coils coasting. *)
Definition refMotor : StepperMotor :=
  {| rmsCurrent := 707; peakCurrent := 1000;
     microstepDivisor := 16; fullStepAngle := 18 # 10;
     microstepAngle := 1125 # 10000; reversed := 1;
     enableInverted := false; microstepMultiplier := 1;
     currentStep := 0; currentAngle := 0; desiredAngle := 0;
     state := DISABLED;
     previousCoilStateA := COAST; previousCoilStateB := COAST;
     hw := [] |}.

(** The two step angles [setFullStepAngle] accepts, as the [float]s the
    casts [(float)1.8] and [(float)0.9] yield. *)
Definition float_1_8 : Q := 7549747 # 4194304.
Definition float_0_9 : Q := 7549747 # 8388608.

(** The same motor with the step angle a [float] holds. *)
Definition refMotor32 : StepperMotor :=
  with_stepping 16 float_1_8 (7549747 # 67108864) refMotor.

Definition refInputs : Inputs :=
  {| getAngle := 45; getAbsoluteAngle := 45; getEncoderSpeed := 0;
     DIRECTION_of_pin := 1 |}.

(** ** Vocabulary of the statements *)

(** The writes a coil setter issues when the desired state differs from the
    cached one, newest first: the channel is switched off, then the two
    direction pins are set. *)
Definition stateChangeWrites (ch : Channel) (pin1 pin2 : DirPin)
  (st : COIL_STATE) : list HwEvent :=
  match st with
  | FORWARD => [GPIO_WRITE pin2 LOW; GPIO_WRITE pin1 HIGH; analogSet ch 0]
  | BACKWARD => [GPIO_WRITE pin2 HIGH; GPIO_WRITE pin1 LOW; analogSet ch 0]
  | BRAKE => [GPIO_WRITE pin2 HIGH; GPIO_WRITE pin1 HIGH; analogSet ch 0]
  | COAST => [GPIO_WRITE pin2 LOW; GPIO_WRITE pin1 LOW; analogSet ch 0]
  | COIL_NOT_SET => [analogSet ch 0]
  end.

(** Everything but the coil caches and the hardware log agrees. *)
Definition sameSettings (m m' : StepperMotor) : Prop :=
  rmsCurrent m' = rmsCurrent m /\ peakCurrent m' = peakCurrent m
  /\ microstepDivisor m' = microstepDivisor m
  /\ fullStepAngle m' = fullStepAngle m
  /\ microstepAngle m' = microstepAngle m
  /\ reversed m' = reversed m /\ enableInverted m' = enableInverted m
  /\ microstepMultiplier m' = microstepMultiplier m
  /\ currentStep m' = currentStep m /\ currentAngle m' = currentAngle m
  /\ desiredAngle m' = desiredAngle m /\ state m' = state m.

(** A boolean check run over the [n] consecutive integers from [x]. *)
Fixpoint allFrom (check : Z -> bool) (n : nat) (x : Z) : bool :=
  match n with
  | O => true
  | S n' => check x && allFrom check n' (x + 1)
  end.

(** Does the truncated binary64 product [x * (lit_mant / 2^k)] equal the
    integer part of the exact decimal product [x * num / 1000]? *)
Definition truncProductExact (k num x : Z) : bool :=
  trunc_mul_double x lit_mant k =? num * x / 1000.

(** A shaft measured at 3 degrees while 10 degrees are desired, and a
    controller with unit proportional gain. *)
Definition offTargetInputs : Inputs :=
  {| getAngle := 3; getAbsoluteAngle := 3; getEncoderSpeed := 0;
     DIRECTION_of_pin := 1 |}.

Definition offTargetMotor : StepperMotor := with_position 0 0 10 refMotor.

Definition refStepperPID : StepperPID (lib := refPID) :=
  {| input := 0; output := 0; setpoint := 0; P := 1; I := 0; D := 0;
     pid := ((1, 0, 0)%Q : PID (PIDLibrary := refPID)) |}.

(** Both coils are in [IDLE_MODE] and the last duty written to either
    channel is zero. *)
Definition coilsDeenergized {board : Board} (m : StepperMotor) : Prop :=
  previousCoilStateA m = IDLE_MODE /\ previousCoilStateB m = IDLE_MODE
  /\ pwm_of A (hw m) = Some 0 /\ pwm_of B (hw m) = Some 0.

(** The configuration and the targets of the motor: everything except the
    state, the tracked angle, the coil caches and the hardware log. *)
Definition sameConfiguration (m m' : StepperMotor) : Prop :=
  rmsCurrent m' = rmsCurrent m /\ peakCurrent m' = peakCurrent m
  /\ microstepDivisor m' = microstepDivisor m
  /\ fullStepAngle m' = fullStepAngle m
  /\ microstepAngle m' = microstepAngle m
  /\ reversed m' = reversed m /\ enableInverted m' = enableInverted m
  /\ microstepMultiplier m' = microstepMultiplier m
  /\ currentStep m' = currentStep m /\ desiredAngle m' = desiredAngle m.

(** The derived microstep angle agrees with the step angle and the divisor. *)
Definition microstepAngleConsistent (m : StepperMotor) : Prop :=
  (microstepAngle m == fullStepAngle m / inject_Z (microstepDivisor m))%Q.

(** Both currents respect the board's limits. *)
Definition currentsWithinBoard {board : Board} (m : StepperMotor) : Prop :=
  0 <= rmsCurrent m <= to_u16 MAX_RMS_BOARD_CURRENT
  /\ 0 <= peakCurrent m <= to_u16 MAX_PEAK_BOARD_CURRENT.

(** ** Sequences of calls

    The operations a caller (the command interpreter, the step interrupt)
    can apply to the motor, and their effect in order. *)

Inductive Call : Type :=
  | CallSetRMSCurrent (arg : Z)
  | CallSetPeakCurrent (arg : Z)
  | CallSetMicrostepping (arg : Z)
  | CallSetFullStepAngle (newStepAngle : Q)
  | CallSetReversed (rev : bool)
  | CallSetEnableInversion (inverted : bool)
  | CallSetMicrostepMultiplier (newMultiplier : Q)
  | CallSetState (env : Inputs) (newState : MOTOR_STATE) (clearErrors : bool)
  | CallStep (env : Inputs) (dir : STEP_DIR)
      (useMultiplier updateDesiredAngle : bool)
  | CallSimpleStep (env : Inputs)
  | CallDriveCoils (steps : Z)
  | CallDriveCoilsAngle (degAngle : Q).

Definition call {board : Board} (c : Call) (m : StepperMotor)
  : StepperMotor :=
  match c with
  | CallSetRMSCurrent arg => setRMSCurrent arg m
  | CallSetPeakCurrent arg => setPeakCurrent arg m
  | CallSetMicrostepping arg => setMicrostepping arg m
  | CallSetFullStepAngle a => setFullStepAngle a m
  | CallSetReversed r => setReversed r m
  | CallSetEnableInversion i => setEnableInversion i m
  | CallSetMicrostepMultiplier x => setMicrostepMultiplier x m
  | CallSetState env n c => setState env n c m
  | CallStep env d u a => step env d u a m
  | CallSimpleStep env => simpleStep env m
  | CallDriveCoils s => driveCoils s m
  | CallDriveCoilsAngle a => driveCoilsAngle a m
  end.

Fixpoint calls {board : Board} (cs : list Call) (m : StepperMotor)
  : StepperMotor :=
  match cs with
  | [] => m
  | c :: rest => calls rest (call c m)
  end.

(** ** The value parser (src/software/parser.cpp)

    Arduino [String]s are lists of characters (without NUL).  The [String]
    methods the parser calls are written after the Arduino core:
    [indexOf] yields the first position of a character or [-1];
    [substring(left, right)] takes unsigned bounds, swaps them when
    [left > right], yields the empty string when [left >= len] and cuts
    [right] down to [len]; [substring(left)] runs to the end. *)

Definition toupper (c : ascii) : ascii :=
  let n := nat_of_ascii c in
  if ((97 <=? n) && (n <=? 122))%nat then ascii_of_nat (n - 32) else c.

Definition tolower (c : ascii) : ascii :=
  let n := nat_of_ascii c in
  if ((65 <=? n) && (n <=? 90))%nat then ascii_of_nat (n + 32) else c.

Definition toUpperCase (s : list ascii) : list ascii := map toupper s.

Fixpoint indexOfFrom (c : ascii) (s : list ascii) (i : Z) : Z :=
  match s with
  | [] => -1
  | x :: rest => if Ascii.eqb x c then i else indexOfFrom c rest (i + 1)
  end.

Definition indexOf (c : ascii) (s : list ascii) : Z := indexOfFrom c s 0.

Definition substring (s : list ascii) (left right : Z) : list ascii :=
  let left := to_u32 left in
  let right := to_u32 right in
  let lo := if left >? right then right else left in
  let hi := if left >? right then left else right in
  let len := Z.of_nat (length s) in
  if lo >=? len then []
  else
    let hi := if hi >? len then len else hi in
    firstn (Z.to_nat (hi - lo)) (skipn (Z.to_nat lo) s).

Definition substringFrom (s : list ascii) (left : Z) : list ascii :=
  substring s left (Z.of_nat (length s)).

Definition space : ascii := ascii_of_nat 32.
Definition quotation : ascii := ascii_of_nat 34.

(** The string ["-1"]. *)
Definition minusOne : list ascii := [ascii_of_nat 45; ascii_of_nat 49].

(** Lines the parser prints on the serial port. *)
Inductive Feedback : Set := FEEDBACK_INVALID_STRING | FEEDBACK_NO_VALUE.

(** [parseValue]. *)
Definition parseValue (buffer : list ascii) (letter : ascii) : list ascii :=
  let buffer := toUpperCase buffer in
  let charIndex := to_i16 (indexOf (toupper letter) buffer) in
  if negb (charIndex =? -1) then
    let nextSpaceIndex :=
      to_i16 (indexOf space (substringFrom buffer charIndex)) in
    if nextSpaceIndex =? 1 then
      let endSpaceIndex :=
        to_i16 (indexOf space
                  (substringFrom buffer (charIndex + nextSpaceIndex + 1))) in
      if negb (endSpaceIndex =? -1) then
        substring buffer (charIndex + nextSpaceIndex + 1)
          (charIndex + nextSpaceIndex + endSpaceIndex + 2)
      else substringFrom buffer (charIndex + nextSpaceIndex + 1)
    else if negb (nextSpaceIndex =? -1) then
      substring buffer (charIndex + 1) (charIndex + nextSpaceIndex)
    else substringFrom buffer (charIndex + 1)
  else minusOne.

(** [parseString]: the returned string and what was printed.  The branch
    for a lower-case match is empty in the source: it leaves [charIndex]
    at [-1]. *)
Definition parseString (buffer : list ascii) (letter : ascii)
  : list ascii * list Feedback :=
  let charIndex := -1 in
  let uppercaseIndex := to_i16 (indexOf (toupper letter) buffer) in
  let lowercaseIndex := to_i16 (indexOf (tolower letter) buffer) in
  let charIndex :=
    if negb ((uppercaseIndex =? -1) || (uppercaseIndex =? 65535))
    then uppercaseIndex
    else if negb ((lowercaseIndex =? -1) || (lowercaseIndex =? 65535))
         then charIndex
         else charIndex in
  if negb (charIndex =? -1) then
    let startQuotationIndex :=
      to_i16 (indexOf quotation (substringFrom buffer (charIndex + 1))) in
    let endQuotationIndex :=
      to_i16 (indexOf quotation
                (substringFrom buffer
                   (charIndex + startQuotationIndex + 2))) in
    if negb (startQuotationIndex =? -1) && negb (endQuotationIndex =? -1)
    then
      (substring buffer (charIndex + startQuotationIndex + 2)
         (charIndex + startQuotationIndex + endQuotationIndex + 2), [])
    else (minusOne, [FEEDBACK_INVALID_STRING])
  else (minusOne, [FEEDBACK_NO_VALUE]).

(** Normalising lengths of concatenated and mapped strings. *)
Ltac list_len :=
  unfold toUpperCase;
  repeat first [rewrite length_app | rewrite length_map
               | progress cbn [length]].

Ltac list_len_in H :=
  unfold toUpperCase in H;
  repeat first [rewrite length_app in H | rewrite length_map in H
               | progress cbn [length] in H].

(** * Properties *)

(** ** Machine integers and rationals *)

Lemma to_u16_range (z : Z) : 0 <= to_u16 z < 65536.
Proof. unfold to_u16. apply Z.mod_pos_bound. lia. Qed.

Lemma to_u16_small (z : Z) : 0 <= z < 65536 -> to_u16 z = z.
Proof. intros H. unfold to_u16. apply Z.mod_small. exact H. Qed.

Lemma to_u16_idem (z : Z) : to_u16 (to_u16 z) = to_u16 z.
Proof. apply to_u16_small, to_u16_range. Qed.

Lemma to_u16_le (z : Z) : 0 <= z -> to_u16 z <= z.
Proof. intros H. unfold to_u16. apply Z.mod_le; lia. Qed.

Lemma to_u16_never_minus_one (z : Z) : (to_u16 z =? -1) = false.
Proof. apply Z.eqb_neq. pose proof (to_u16_range z). lia. Qed.

Lemma to_i32_small (z : Z) :
  -2147483648 <= z < 2147483648 -> to_i32 z = z.
Proof. intros H. unfold to_i32. rewrite Z.mod_small; lia. Qed.

Lemma to_i16_small (z : Z) : -32768 <= z < 32768 -> to_i16 z = z.
Proof. intros H. unfold to_i16. rewrite Z.mod_small; lia. Qed.

Lemma constrain_range (amt low high : Z) :
  low <= high -> low <= constrain amt low high <= high.
Proof.
  intros H. unfold constrain.
  destruct (amt <? low) eqn:E1; [lia|].
  destruct (amt >? high) eqn:E2; [lia|].
  apply Z.ltb_ge in E1. rewrite Z.gtb_ltb in E2. apply Z.ltb_ge in E2. lia.
Qed.

Lemma constrain_inside (amt low high : Z) :
  low <= amt <= high -> constrain amt low high = amt.
Proof.
  intros H. unfold constrain.
  destruct (amt <? low) eqn:E1; [apply Z.ltb_lt in E1; lia|].
  destruct (amt >? high) eqn:E2; [rewrite Z.gtb_ltb in E2; apply Z.ltb_lt in E2; lia|].
  reflexivity.
Qed.

Lemma Qltb_lt (a b : Q) : Qltb a b = true <-> (a < b)%Q.
Proof.
  unfold Qltb. rewrite negb_true_iff. split.
  - intros H. apply Qnot_le_lt. intros C. apply Qle_bool_iff in C. congruence.
  - intros H. destruct (Qle_bool b a) eqn:E; [|reflexivity].
    apply Qle_bool_iff in E. exfalso. apply (Qlt_not_le _ _ H E).
Qed.

Lemma Qltb_ge (a b : Q) : Qltb a b = false <-> (b <= a)%Q.
Proof.
  unfold Qltb. rewrite negb_false_iff. apply Qle_bool_iff.
Qed.

(** Truncation is the floor on non-negative rationals. *)
Lemma Qtrunc_floor (q : Q) : (0 <= q)%Q -> Qtrunc q = Qfloor q.
Proof.
  destruct q as [n d]. unfold Qle, Qtrunc, Qfloor. simpl. intros H.
  apply Z.quot_div_nonneg; lia.
Qed.

Lemma Qtrunc_comp (p q : Q) : (p == q)%Q -> Qtrunc p = Qtrunc q.
Proof.
  destruct p as [a b], q as [c d]. unfold Qeq, Qtrunc. simpl. intros H.
  assert (Hb : 0 < Zpos b) by lia. assert (Hd : 0 < Zpos d) by lia.
  rewrite <- (Z.quot_mul_cancel_r a (Zpos b) (Zpos d)) by lia.
  rewrite H.
  replace (Zpos b * Zpos d) with (Zpos d * Zpos b) by lia.
  apply Z.quot_mul_cancel_r; lia.
Qed.

Lemma Qtrunc_zero (q : Q) : (q == 0)%Q -> Qtrunc q = 0.
Proof. intros H. rewrite (Qtrunc_comp _ _ H). reflexivity. Qed.

Lemma round_comp (p q : Q) : (p == q)%Q -> round p = round q.
Proof.
  intros H. unfold round. rewrite (Qleb_comp 0%Q 0%Q (Qeq_refl 0) p q H).
  destruct (Qle_bool 0 q); apply Qtrunc_comp; rewrite H; reflexivity.
Qed.

Lemma COIL_STATE_eqb_eq (a b : COIL_STATE) :
  COIL_STATE_eqb a b = true <-> a = b.
Proof. destruct a, b; simpl; split; intros H; congruence. Qed.

Lemma COIL_STATE_eqb_refl (a : COIL_STATE) : COIL_STATE_eqb a a = true.
Proof. destruct a; reflexivity. Qed.

Lemma MOTOR_STATE_eqb_eq (a b : MOTOR_STATE) :
  MOTOR_STATE_eqb a b = true <-> a = b.
Proof. destruct a, b; simpl; split; intros H; congruence. Qed.

Lemma sameSettings_refl (m : StepperMotor) : sameSettings m m.
Proof. unfold sameSettings. repeat split. Qed.

Lemma sameSettings_trans (m1 m2 m3 : StepperMotor) :
  sameSettings m1 m2 -> sameSettings m2 m3 -> sameSettings m1 m3.
Proof.
  unfold sameSettings. intros H1 H2.
  repeat match goal with H : _ /\ _ |- _ => destruct H end.
  repeat split; congruence.
Qed.

(** ** Coil driver *)

Section CoilDriver.

Context {board : Board}.

Lemma currentToPWM_range (current : Z) :
  0 <= PWM_MAX_DUTY_CYCLE ->
  0 <= currentToPWM current <= PWM_MAX_DUTY_CYCLE.
Proof.
  intros Hmax. unfold currentToPWM.
  set (v := float_to_u32 _).
  pose proof (constrain_range v 0 PWM_MAX_DUTY_CYCLE Hmax) as Hc.
  pose proof (to_u16_range (constrain v 0 PWM_MAX_DUTY_CYCLE)).
  pose proof (to_u16_le (constrain v 0 PWM_MAX_DUTY_CYCLE)). lia.
Qed.

Lemma currentToPWM_to_u16 (current : Z) :
  currentToPWM (to_u16 current) = currentToPWM current.
Proof. unfold currentToPWM. rewrite to_u16_idem. reflexivity. Qed.

(** No current, no duty. *)
Lemma currentToPWM_zero : 0 <= PWM_MAX_DUTY_CYCLE -> currentToPWM 0 = 0.
Proof.
  intros Hmax. unfold currentToPWM, float_to_u32.
  rewrite Qtrunc_zero.
  - simpl. rewrite constrain_inside by lia. reflexivity.
  - change (inject_Z (Z.abs (to_u16 0))) with 0%Q. unfold Qdiv. ring.
Qed.

Lemma hw_writeDirPins (pin1 pin2 : DirPin) (st : COIL_STATE) (ch : Channel)
  (m : StepperMotor) :
  hw (writeDirPins pin1 pin2 st (emit (analogSet ch 0) m))
  = stateChangeWrites ch pin1 pin2 st ++ hw m.
Proof. destruct st; reflexivity. Qed.

Lemma writeDirPins_settings (pin1 pin2 : DirPin) (st : COIL_STATE)
  (m : StepperMotor) :
  sameSettings m (writeDirPins pin1 pin2 st m)
  /\ previousCoilStateA (writeDirPins pin1 pin2 st m) = previousCoilStateA m
  /\ previousCoilStateB (writeDirPins pin1 pin2 st m) = previousCoilStateB m.
Proof. destruct st; simpl; unfold sameSettings; repeat split. Qed.

(** What one call of [setCoilA] writes. *)
Lemma hw_setCoilA (st : COIL_STATE) (current : Z) (m : StepperMotor) :
  hw (setCoilA st current m)
  = analogSet A (currentToPWM current)
    :: (if COIL_STATE_eqb st (previousCoilStateA m) then []
        else stateChangeWrites A COIL_A_DIR_1_PIN COIL_A_DIR_2_PIN st)
       ++ hw m.
Proof.
  unfold setCoilA. rewrite currentToPWM_to_u16.
  destruct (COIL_STATE_eqb st (previousCoilStateA m)); simpl; [reflexivity|].
  rewrite hw_writeDirPins. reflexivity.
Qed.

Lemma hw_setCoilB (st : COIL_STATE) (current : Z) (m : StepperMotor) :
  hw (setCoilB st current m)
  = analogSet B (currentToPWM current)
    :: (if COIL_STATE_eqb st (previousCoilStateB m) then []
        else stateChangeWrites B COIL_B_DIR_1_PIN COIL_B_DIR_2_PIN st)
       ++ hw m.
Proof.
  unfold setCoilB. rewrite currentToPWM_to_u16.
  destruct (COIL_STATE_eqb st (previousCoilStateB m)); simpl; [reflexivity|].
  rewrite hw_writeDirPins. reflexivity.
Qed.

(** The cache holds the state that was asked for; the other coil's cache and
    the settings are untouched. *)
Lemma setCoilA_cache (st : COIL_STATE) (current : Z) (m : StepperMotor) :
  previousCoilStateA (setCoilA st current m) = st
  /\ previousCoilStateB (setCoilA st current m) = previousCoilStateB m
  /\ sameSettings m (setCoilA st current m).
Proof.
  unfold setCoilA.
  destruct (COIL_STATE_eqb st (previousCoilStateA m)) eqn:E; simpl.
  - apply COIL_STATE_eqb_eq in E. subst st.
    unfold sameSettings. repeat split.
  - destruct st; simpl; unfold sameSettings; repeat split.
Qed.

Lemma setCoilB_cache (st : COIL_STATE) (current : Z) (m : StepperMotor) :
  previousCoilStateB (setCoilB st current m) = st
  /\ previousCoilStateA (setCoilB st current m) = previousCoilStateA m
  /\ sameSettings m (setCoilB st current m).
Proof.
  unfold setCoilB.
  destruct (COIL_STATE_eqb st (previousCoilStateB m)) eqn:E; simpl.
  - apply COIL_STATE_eqb_eq in E. subst st.
    unfold sameSettings. repeat split.
  - destruct st; simpl; unfold sameSettings; repeat split.
Qed.

(** C8.  Two calls of [setCoilA] (likewise [setCoilB]) in a row with the same
    desired state: the second call writes nothing but the PWM duty, the first
    writes the direction pins exactly when the desired state differs from the
    cached one, and either call sets the duty to [currentToPWM current], a
    value within [0, PWM_MAX_DUTY_CYCLE]. *)
Theorem setCoil_twice_same_state (st : COIL_STATE) (c1 c2 : Z)
  (m : StepperMotor) (Hmax : 0 <= PWM_MAX_DUTY_CYCLE) :
  (let m1 := setCoilA st c1 m in
   let m2 := setCoilA st c2 m1 in
   hw m1 = analogSet A (currentToPWM c1)
           :: (if COIL_STATE_eqb st (previousCoilStateA m) then []
               else stateChangeWrites A COIL_A_DIR_1_PIN COIL_A_DIR_2_PIN st)
              ++ hw m
   /\ hw m2 = analogSet A (currentToPWM c2) :: hw m1)
  /\ (let m1 := setCoilB st c1 m in
      let m2 := setCoilB st c2 m1 in
      hw m1 = analogSet B (currentToPWM c1)
              :: (if COIL_STATE_eqb st (previousCoilStateB m) then []
                  else stateChangeWrites B COIL_B_DIR_1_PIN COIL_B_DIR_2_PIN st)
                 ++ hw m
      /\ hw m2 = analogSet B (currentToPWM c2) :: hw m1)
  /\ 0 <= currentToPWM c1 <= PWM_MAX_DUTY_CYCLE
  /\ 0 <= currentToPWM c2 <= PWM_MAX_DUTY_CYCLE.
Proof.
  repeat split; try (apply currentToPWM_range; assumption).
  - apply hw_setCoilA.
  - rewrite hw_setCoilA.
    destruct (setCoilA_cache st c1 m) as [-> _].
    rewrite COIL_STATE_eqb_refl. reflexivity.
  - apply hw_setCoilB.
  - rewrite hw_setCoilB.
    destruct (setCoilB_cache st c1 m) as [-> _].
    rewrite COIL_STATE_eqb_refl. reflexivity.
Qed.

End CoilDriver.

Lemma setCoil_twice_same_state_witness :
  hw (setCoilA (board := refBoard) FORWARD 200
        (setCoilA (board := refBoard) FORWARD 100 refMotor))
  = [analogSet A 496; analogSet A 248; GPIO_WRITE COIL_A_DIR_2_PIN LOW;
     GPIO_WRITE COIL_A_DIR_1_PIN HIGH; analogSet A 0].
Proof.
  pose proof (setCoil_twice_same_state (board := refBoard) FORWARD 100 200
                refMotor ltac:(simpl; lia)) as [[H1 H2] _].
  cbv zeta in H1, H2. rewrite H2, H1. reflexivity.
Defined.

(** ** Driving the coils *)

Section Drive.

Context {board : Board}.

Lemma pwm_of_A_skips_B (pin1 pin2 : DirPin) (st : COIL_STATE)
  (l : list HwEvent) :
  pwm_of A (stateChangeWrites B pin1 pin2 st ++ l) = pwm_of A l.
Proof. destruct st; reflexivity. Qed.

Lemma pwm_of_B_skips_A (pin1 pin2 : DirPin) (st : COIL_STATE)
  (l : list HwEvent) :
  pwm_of B (stateChangeWrites A pin1 pin2 st ++ l) = pwm_of B l.
Proof. destruct st; reflexivity. Qed.

(** [driveCoils] only writes to the hardware and to the coil caches. *)
Lemma driveCoils_settings (steps : Z) (m : StepperMotor) :
  sameSettings m (driveCoils steps m).
Proof.
  unfold driveCoils.
  eapply sameSettings_trans; [apply setCoilA_cache | apply setCoilB_cache].
Qed.

Lemma driveCoils_hw (steps : Z) (m : StepperMotor) :
  exists post, hw (driveCoils steps m) = post ++ hw m.
Proof.
  unfold driveCoils. rewrite hw_setCoilB, hw_setCoilA.
  eexists. rewrite !app_comm_cons, app_assoc. reflexivity.
Qed.

Lemma driveCoilsAngle_settings (degAngle : Q) (m : StepperMotor) :
  sameSettings m (driveCoilsAngle degAngle m).
Proof. apply driveCoils_settings. Qed.

(** The [default:] branch of [setState]: both coils end in [IDLE_MODE] with
    zero duty, and the requested state is committed. *)
Lemma idleAndCommit_spec (newState : MOTOR_STATE) (m : StepperMotor) :
  0 <= PWM_MAX_DUTY_CYCLE ->
  let m' := idleAndCommit newState m in
  state m' = newState
  /\ previousCoilStateA m' = IDLE_MODE
  /\ previousCoilStateB m' = IDLE_MODE
  /\ pwm_of A (hw m') = Some 0
  /\ pwm_of B (hw m') = Some 0
  /\ currentAngle m' = currentAngle m
  /\ exists post, hw m' = post ++ hw m.
Proof.
  intros Hmax m'. subst m'. unfold idleAndCommit.
  cbn [with_state hw state previousCoilStateA previousCoilStateB currentAngle].
  destruct (setCoilB_cache IDLE_MODE 0 (setCoilA IDLE_MODE 0 m))
    as (HB & HA & HS).
  destruct (setCoilA_cache IDLE_MODE 0 m) as (HA' & _ & HS').
  rewrite hw_setCoilB, hw_setCoilA, currentToPWM_zero by assumption.
  split; [reflexivity|].
  split; [rewrite HA; exact HA'|].
  split; [exact HB|].
  split.
  { simpl. destruct (COIL_STATE_eqb IDLE_MODE _); simpl.
    - reflexivity.
    - rewrite pwm_of_A_skips_B. reflexivity. }
  split; [reflexivity|].
  split.
  { pose proof (sameSettings_trans _ _ _ HS' HS) as H.
    unfold sameSettings in H. tauto. }
  eexists. rewrite !app_comm_cons, app_assoc. reflexivity.
Qed.

Lemma relock_spec (env : Inputs) (m : StepperMotor) :
  currentAngle (relock env m) = (getAngle env - startupAngleOffset)%Q
  /\ hw (relock env m)
     = hw (driveCoilsAngle (getAngle env - startupAngleOffset)%Q m).
Proof. split; reflexivity. Qed.

(** C1 (as the code behaves).  From [DISABLED], [setState(ENABLED, false)]
    commits [ENABLED], drives the coils to the shaft angle minus the startup
    offset and corrects [currentAngle]; the missing [break] then runs the
    [default:] case, so that at the end of the call both coils are in
    [IDLE_MODE] with a PWM duty of zero: they are not left energized. *)
Theorem setState_enable_falls_through_to_idle (env : Inputs)
  (m : StepperMotor) (Hs : state m = DISABLED)
  (Hmax : 0 <= PWM_MAX_DUTY_CYCLE) :
  let m' := setState env ENABLED false m in
  state m' = ENABLED
  /\ currentAngle m' = (getAngle env - startupAngleOffset)%Q
  /\ (exists post,
        hw m' = post
                ++ hw (driveCoilsAngle (getAngle env - startupAngleOffset)%Q m))
  /\ previousCoilStateA m' = IDLE_MODE
  /\ previousCoilStateB m' = IDLE_MODE
  /\ pwm_of A (hw m') = Some 0
  /\ pwm_of B (hw m') = Some 0.
Proof.
  intros m'. subst m'. unfold setState. rewrite Hs.
  cbn [MOTOR_STATE_eqb negb orb].
  destruct (idleAndCommit_spec ENABLED (with_state ENABLED (relock env m)) Hmax)
    as (H1 & H2 & H3 & H4 & H5 & H6 & H7).
  repeat split; assumption.
Qed.

(** C6.  Without [clearErrors], a motor whose state is neither [ENABLED] nor
    [DISABLED] (the forced states, [OVERTEMP]) is left exactly as it was:
    state, coil caches and hardware outputs. *)
Theorem setState_sticky_without_clearErrors (env : Inputs)
  (newState : MOTOR_STATE) (m : StepperMotor)
  (HnotE : state m <> ENABLED) (HnotD : state m <> DISABLED) :
  setState env newState false m = m.
Proof.
  unfold setState.
  destruct (state m); try congruence; destruct newState; reflexivity.
Qed.

(** C9.  [getReversed] after [setReversed b] yields the negation of [b]: the
    stored multiplier is [-1] for [true] and [1] for [false], and
    [getReversed] is true exactly when the multiplier is positive. *)
Theorem getReversed_setReversed (b : bool) (m : StepperMotor) :
  getReversed (setReversed b m) = negb b
  /\ reversed (setReversed b m) = (if b then -1 else 1)
  /\ (getReversed m = true <-> 0 < reversed m).
Proof.
  repeat split.
  - destruct b; reflexivity.
  - unfold getReversed. rewrite Z.gtb_ltb. apply Z.ltb_lt.
  - unfold getReversed. rewrite Z.gtb_ltb. apply Z.ltb_lt.
Qed.

End Drive.

Lemma setState_enable_falls_through_to_idle_witness :
  state refMotor = DISABLED
  /\ pwm_of A (hw (driveCoilsAngle (board := refBoard) 45 refMotor))
     = Some 1754
  /\ pwm_of A (hw (setState (board := refBoard) refInputs ENABLED false
                       refMotor)) = Some 0
  /\ pwm_of B (hw (setState (board := refBoard) refInputs ENABLED false
                       refMotor)) = Some 0.
Proof.
  pose proof (setState_enable_falls_through_to_idle (board := refBoard)
                refInputs refMotor eq_refl ltac:(simpl; lia))
    as (_ & _ & _ & _ & _ & HA & HB).
  split; [reflexivity|]. split; [vm_compute; reflexivity|].
  split; [exact HA | exact HB].
Defined.

Lemma setState_sticky_without_clearErrors_witness :
  setState (board := refBoard) refInputs ENABLED false
    (with_state FORCED_DISABLED refMotor)
  = with_state FORCED_DISABLED refMotor.
Proof.
  apply (setState_sticky_without_clearErrors (board := refBoard));
    simpl; discriminate.
Defined.

(** ** Parameter accessors *)

Section Accessors.

Context {board : Board}.

(** C3 (as the code behaves).  [setMicrostepping] performs no membership
    test: every 16-bit value [0 < d < 65535], the six valid divisors
    included, is stored, and the microstep angle becomes
    [fullStepAngle / d]. *)
Theorem setMicrostepping_stores_any_divisor (d : Z) (m : StepperMotor)
  (Hd : 0 < d < 65535) :
  getMicrostepping (setMicrostepping d m) = d
  /\ (getMicrostepAngle (setMicrostepping d m)
      == getFullStepAngle m / inject_Z d)%Q
  /\ getFullStepAngle (setMicrostepping d m) = getFullStepAngle m.
Proof.
  unfold setMicrostepping. rewrite to_u16_never_minus_one.
  rewrite to_u16_small by lia. simpl. repeat split.
Qed.

Lemma Qtrunc_range (x : Q) :
  (-1 < x)%Q -> (x < 4294967296)%Q -> 0 <= Qtrunc x <= 4294967295.
Proof.
  destruct x as [n d]. unfold Qlt, Qtrunc. simpl. intros Hlo Hhi.
  destruct (Z_lt_le_dec n 0) as [Hn | Hn].
  - replace n with (- (- n)) by lia. rewrite Z.quot_opp_l by lia.
    rewrite Z.quot_small by lia. lia.
  - rewrite Z.quot_div_nonneg by lia. split.
    + apply Z.div_pos; lia.
    + apply Z.lt_succ_r. apply Z.div_lt_upper_bound; lia.
Qed.

(** C10 (as the code behaves).  For [-1 < x < 2^32] the multiplier read back
    after [setMicrostepMultiplier x] is the integer truncation of [x]. *)
Theorem getMicrostepMultiplier_truncates (x : Q) (m : StepperMotor)
  (Hlo : (-1 < x)%Q) (Hhi : (x < 4294967296)%Q) :
  getMicrostepMultiplier (setMicrostepMultiplier x m) = inject_Z (Qtrunc x).
Proof.
  unfold setMicrostepMultiplier.
  assert (Hne : Qeq_bool x (-1) = false).
  { destruct (Qeq_bool x (-1)) eqn:E; [|reflexivity].
    apply Qeq_bool_iff in E. rewrite E in Hlo.
    exfalso. apply (Qlt_irrefl _ Hlo). }
  rewrite Hne. simpl. unfold getMicrostepMultiplier, float_to_u32. simpl.
  pose proof (Qtrunc_range x Hlo Hhi) as Hr.
  destruct (Qtrunc x <? 0) eqn:E1; [apply Z.ltb_lt in E1; lia|].
  destruct (Qtrunc x >? 4294967295) eqn:E2;
    [rewrite Z.gtb_ltb in E2; apply Z.ltb_lt in E2; lia|].
  reflexivity.
Qed.

Lemma allFrom_spec (check : Z -> bool) (n : nat) :
  forall x, allFrom check n x = true ->
  forall y, x <= y < x + Z.of_nat n -> check y = true.
Proof.
  induction n as [|n IH]; intros x H y Hy.
  - simpl in Hy. lia.
  - simpl in H. apply andb_true_iff in H. destruct H as [Hx Hrest].
    destruct (Z.eq_dec y x) as [-> | Hne]; [exact Hx|].
    apply (IH (x + 1) Hrest). lia.
Qed.

(** The binary64 product [x * 1.414], truncated, is the integer part of the
    exact decimal product, for every [x] whose product fits 16 bits. *)
Lemma rms_to_peak_product (x : Z) :
  0 <= x <= 46347 -> trunc_mul_double x lit_mant 52 = 1414 * x / 1000.
Proof.
  intros Hx. apply Z.eqb_eq.
  change (truncProductExact 52 1414 x = true).
  apply (allFrom_spec (truncProductExact 52 1414) (Z.to_nat 46348) 0).
  - vm_compute. reflexivity.
  - lia.
Qed.

(** Likewise for [x * 0.707], over the whole 16-bit range. *)
Lemma peak_to_rms_product (x : Z) :
  0 <= x <= 65535 -> trunc_mul_double x lit_mant 53 = 707 * x / 1000.
Proof.
  intros Hx. apply Z.eqb_eq.
  change (truncProductExact 53 707 x = true).
  apply (allFrom_spec (truncProductExact 53 707) (Z.to_nat 65536) 0).
  - vm_compute. reflexivity.
  - lia.
Qed.

(** C5 (as the code behaves).  In the static-current build the derived
    current is the product truncated, not rounded: after [setRMSCurrent X]
    the peak current is the integer part of [X * 1.414] clamped to the board's
    peak maximum (for [X <= 46347], where the product fits 16 bits), and after
    [setPeakCurrent Y] the RMS current is the integer part of [Y * 0.707]
    clamped to the board's RMS maximum. *)
Theorem current_setters_truncate (X Y : Z) (m : StepperMotor)
  (HX : 0 <= X <= 46347) (HY : 0 <= Y <= 65535) :
  getPeakCurrent (setRMSCurrent X m)
  = constrain (1414 * X / 1000) 0 (to_u16 MAX_PEAK_BOARD_CURRENT)
  /\ getRMSCurrent (setPeakCurrent Y m)
     = constrain (707 * Y / 1000) 0 (to_u16 MAX_RMS_BOARD_CURRENT).
Proof.
  unfold setRMSCurrent, setPeakCurrent.
  rewrite !to_u16_never_minus_one.
  cbn [negb getPeakCurrent getRMSCurrent with_currents peakCurrent rmsCurrent].
  rewrite (to_u16_small X), (to_u16_small Y) by lia.
  rewrite rms_to_peak_product, peak_to_rms_product by lia.
  assert (0 <= 1414 * X / 1000 < 65536).
  { split; [apply Z.div_pos; lia | apply Z.div_lt_upper_bound; lia]. }
  assert (0 <= 707 * Y / 1000 < 65536).
  { split; [apply Z.div_pos; lia | apply Z.div_lt_upper_bound; lia]. }
  rewrite (to_u16_small (1414 * X / 1000)) by lia.
  rewrite (to_u16_small (707 * Y / 1000)) by lia.
  split; reflexivity.
Qed.

End Accessors.

Lemma setMicrostepping_stores_any_divisor_witness :
  getMicrostepping (setMicrostepping 32 refMotor) = 32
  /\ (getMicrostepAngle (setMicrostepping 32 refMotor) == 5625 # 100000)%Q.
Proof.
  destruct (setMicrostepping_stores_any_divisor 32 refMotor ltac:(lia))
    as (H1 & H2 & _).
  split; [exact H1|]. rewrite H2. reflexivity.
Defined.

(** C3, counterexample: 3 is not a valid divisor, yet it is stored. *)
Lemma setMicrostepping_invalid_divisor_is_stored :
  ~ In 3 [1; 2; 4; 8; 16; 32]
  /\ getMicrostepping refMotor = 16
  /\ getMicrostepping (setMicrostepping 3 refMotor) = 3
  /\ setMicrostepping 3 refMotor <> refMotor.
Proof.
  split; [simpl; intuition discriminate|].
  split; [reflexivity|]. split; [reflexivity|].
  intros H. apply (f_equal microstepDivisor) in H. discriminate H.
Qed.

Lemma getMicrostepMultiplier_truncates_witness :
  getMicrostepMultiplier (setMicrostepMultiplier (134 # 100) refMotor) = 1%Q.
Proof.
  apply (getMicrostepMultiplier_truncates (134 # 100) refMotor);
    reflexivity.
Defined.

(** C10, counterexample: [-2] is not the sentinel, and what is read back is
    not its truncation: an unsigned field holds no negative value. *)
Lemma getMicrostepMultiplier_negative_not_truncated :
  ~ (-2 == -1)%Q
  /\ ~ (getMicrostepMultiplier (setMicrostepMultiplier (-2) refMotor)
        == inject_Z (Qtrunc (-2)))%Q.
Proof. split; intros H; discriminate H. Qed.

Lemma current_setters_truncate_witness :
  getPeakCurrent (setRMSCurrent (board := refBoard) 1000 refMotor) = 1414
  /\ getRMSCurrent (setPeakCurrent (board := refBoard) 1000 refMotor) = 707.
Proof.
  apply (current_setters_truncate (board := refBoard) 1000 1000 refMotor);
    lia.
Defined.

(** C5, counterexample: the peak current after [setRMSCurrent 2] is 2, while
    [round (2 * 1.414)], well below the board maximum, is 3. *)
Lemma setRMSCurrent_does_not_round :
  getPeakCurrent (setRMSCurrent (board := refBoard) 2 refMotor) = 2
  /\ constrain (round (2 * (1414 # 1000))) 0
       (MAX_PEAK_BOARD_CURRENT (Board := refBoard)) = 3.
Proof. split; reflexivity. Qed.

(** ** Binary floating point *)

Section FloatFacts.

Import Binary32.

Lemma two_neq_0 : ~ (2 == 0)%Q.
Proof. discriminate. Qed.

Lemma pow2_pos (k : Z) : (0 < pow2 k)%Q.
Proof. apply Qpower_0_lt. reflexivity. Qed.

Lemma pow2_add (a b : Z) : (pow2 (a + b) == pow2 a * pow2 b)%Q.
Proof. apply Qpower_plus, two_neq_0. Qed.

Lemma pow2_le (a b : Z) : a <= b -> (pow2 a <= pow2 b)%Q.
Proof. intros H. apply Qpower_le_compat_l; [exact H | discriminate]. Qed.

Lemma pow2_lt (a b : Z) : a < b -> (pow2 a < pow2 b)%Q.
Proof. intros H. apply Qpower_lt_compat_l; [exact H | reflexivity]. Qed.

Lemma pow2_lt_inv (a b : Z) : (pow2 a < pow2 b)%Q -> a < b.
Proof. intros H. apply (Qpower_lt_compat_l_inv 2); [exact H | reflexivity]. Qed.

Lemma pow2_Z (k : Z) : 0 <= k -> (pow2 k == inject_Z (2 ^ k))%Q.
Proof. intros H. unfold pow2. rewrite Zpower_Qpower by exact H. reflexivity. Qed.

Lemma pow2_succ (k : Z) : (pow2 (k + 1) == 2 * pow2 k)%Q.
Proof. rewrite pow2_add. change (pow2 1) with 2%Q. ring. Qed.

Lemma pow2_pred (k : Z) : (pow2 (k - 1) == pow2 k / 2)%Q.
Proof.
  assert (H : (pow2 k == 2 * pow2 (k - 1))%Q).
  { rewrite <- pow2_succ. replace (k - 1 + 1) with k by lia. reflexivity. }
  rewrite H. field.
Qed.

(** [2^e <= x < 2^(e+1)] for the exponent [floorLog2] computes. *)
Lemma floorLog2_spec (x : Q) :
  (0 < x)%Q ->
  (pow2 (floorLog2 x) <= x)%Q /\ (x < pow2 (floorLog2 x + 1))%Q.
Proof.
  intros Hx. destruct x as [n d].
  assert (Hn : 0 < n) by (unfold Qlt in Hx; simpl in Hx; lia).
  unfold floorLog2. cbn [Qnum Qden].
  set (ln := Z.log2 n). set (ld := Z.log2 (Zpos d)). set (c := ln - ld).
  destruct (Z.log2_spec n Hn) as [Hn1 Hn2]. fold ln in Hn1, Hn2.
  destruct (Z.log2_spec (Zpos d) ltac:(lia)) as [Hd1 Hd2]. fold ld in Hd1, Hd2.
  assert (Hln : 0 <= ln) by apply Z.log2_nonneg.
  assert (Hld : 0 <= ld) by apply Z.log2_nonneg.
  assert (Hx' : (n # d == inject_Z n / inject_Z (Zpos d))%Q)
    by apply Qmake_Qdiv.
  assert (Hdpos : (0 < inject_Z (Zpos d))%Q) by reflexivity.
  (* bounds of the numerator and the denominator as rationals *)
  assert (Qn1 : (pow2 ln <= inject_Z n)%Q)
    by (rewrite pow2_Z by lia; rewrite <- Zle_Qle; exact Hn1).
  assert (Qn2 : (inject_Z n < pow2 (ln + 1))%Q).
  { rewrite pow2_Z by lia. rewrite <- Zlt_Qlt.
    replace (ln + 1) with (Z.succ ln) by lia. exact Hn2. }
  assert (Qd1 : (pow2 ld <= inject_Z (Zpos d))%Q)
    by (rewrite pow2_Z by lia; rewrite <- Zle_Qle; exact Hd1).
  assert (Qd2 : (inject_Z (Zpos d) < pow2 (ld + 1))%Q).
  { rewrite pow2_Z by lia. rewrite <- Zlt_Qlt.
    replace (ld + 1) with (Z.succ ld) by lia. exact Hd2. }
  (* x < 2^(c+1) *)
  assert (Hup : (n # d < pow2 (c + 1))%Q).
  { rewrite Hx'. apply Qlt_shift_div_r; [exact Hdpos|].
    apply Qlt_le_trans with (pow2 (ln + 1)); [exact Qn2|].
    assert (E : (pow2 (ln + 1) == pow2 (c + 1) * pow2 ld)%Q).
    { rewrite <- pow2_add. replace (c + 1 + ld) with (ln + 1)
        by (unfold c; lia). reflexivity. }
    rewrite E. apply Qmult_le_l; [apply pow2_pos | exact Qd1]. }
  (* 2^(c-1) <= x *)
  assert (Hlow : (pow2 (c - 1) <= n # d)%Q).
  { rewrite Hx'. apply Qle_shift_div_l; [exact Hdpos|].
    apply Qle_trans with (pow2 ln); [|exact Qn1].
    assert (E : (pow2 ln == pow2 (c - 1) * pow2 (ld + 1))%Q).
    { rewrite <- pow2_add. replace (c - 1 + (ld + 1)) with ln
        by (unfold c; lia). reflexivity. }
    rewrite E. apply Qmult_le_l; [apply pow2_pos|].
    apply Qlt_le_weak. exact Qd2. }
  destruct (Qle_bool (pow2 c) (n # d)) eqn:E.
  - apply Qle_bool_iff in E. split; assumption.
  - split; [exact Hlow|].
    replace (c - 1 + 1) with c by lia.
    apply Qnot_le_lt. intros C. apply Qle_bool_iff in C. congruence.
Qed.

Lemma floorLog2_unique (x : Q) (e : Z) :
  (pow2 e <= x)%Q -> (x < pow2 (e + 1))%Q -> floorLog2 x = e.
Proof.
  intros H1 H2.
  assert (Hx : (0 < x)%Q) by (eapply Qlt_le_trans; [apply pow2_pos | exact H1]).
  destruct (floorLog2_spec x Hx) as [F1 F2].
  assert (A : floorLog2 x < e + 1).
  { apply pow2_lt_inv. eapply Qle_lt_trans; eassumption. }
  assert (B : e < floorLog2 x + 1).
  { apply pow2_lt_inv. eapply Qle_lt_trans; eassumption. }
  lia.
Qed.

Lemma floorLog2_comp (x y : Q) :
  (0 < x)%Q -> (x == y)%Q -> floorLog2 x = floorLog2 y.
Proof.
  intros Hx Hxy. destruct (floorLog2_spec x Hx) as [F1 F2].
  symmetry. apply floorLog2_unique; rewrite <- Hxy; assumption.
Qed.

Lemma floorLog2_mono (x y : Q) :
  (0 < x)%Q -> (x <= y)%Q -> floorLog2 x <= floorLog2 y.
Proof.
  intros Hx Hxy.
  assert (Hy : (0 < y)%Q) by (eapply Qlt_le_trans; eassumption).
  destruct (floorLog2_spec x Hx) as [F1 _].
  destruct (floorLog2_spec y Hy) as [_ G2].
  assert (floorLog2 x < floorLog2 y + 1).
  { apply pow2_lt_inv. eapply Qle_lt_trans; [exact F1|].
    eapply Qle_lt_trans; eassumption. }
  lia.
Qed.

(** ** Nearest integer *)

Lemma rne_cases (x : Q) :
  let f := Qfloor x in
  (inject_Z f <= x)%Q /\ (x < inject_Z f + 1)%Q.
Proof.
  split; [apply Qfloor_le|].
  pose proof (Qlt_floor x) as H. rewrite inject_Z_plus in H. exact H.
Qed.

Lemma rne_nearest (x : Q) :
  (x - (1 # 2) <= inject_Z (rne x))%Q /\ (inject_Z (rne x) <= x + (1 # 2))%Q.
Proof.
  destruct (rne_cases x) as [H1 H2]. unfold rne.
  set (f := Qfloor x) in *.
  destruct (Qltb (x - inject_Z f) (1 # 2)) eqn:E1.
  - apply Qltb_lt in E1. split; lra.
  - apply Qltb_ge in E1.
    assert (Hf1 : (inject_Z (f + 1) == inject_Z f + 1)%Q)
      by (rewrite inject_Z_plus; reflexivity).
    destruct (Qltb (1 # 2) (x - inject_Z f)) eqn:E2.
    + rewrite Hf1. split; lra.
    + apply Qltb_ge in E2. destruct (Z.even f); [|rewrite Hf1]; split; lra.
Qed.

Lemma rne_comp (x y : Q) : (x == y)%Q -> rne x = rne y.
Proof.
  intros H. unfold rne. rewrite (Qfloor_comp x y H).
  set (f := Qfloor y).
  assert (Hd : (x - inject_Z f == y - inject_Z f)%Q) by (rewrite H; reflexivity).
  unfold Qltb.
  rewrite (Qleb_comp _ _ (Qeq_refl (1 # 2)) _ _ Hd).
  rewrite (Qleb_comp _ _ Hd _ _ (Qeq_refl (1 # 2))).
  reflexivity.
Qed.

Lemma rne_Z (z : Z) : rne (inject_Z z) = z.
Proof.
  unfold rne. rewrite Qfloor_Z.
  assert (E : Qltb (inject_Z z - inject_Z z) (1 # 2) = true).
  { apply Qltb_lt. lra. }
  rewrite E. reflexivity.
Qed.

Lemma rne_mono (x y : Q) : (x <= y)%Q -> rne x <= rne y.
Proof.
  intros Hxy.
  pose proof (Qfloor_resp_le x y Hxy) as Hf.
  destruct (rne_cases x) as [X1 X2]. destruct (rne_cases y) as [Y1 Y2].
  assert (Hx : Qfloor x <= rne x <= Qfloor x + 1).
  { unfold rne. destruct (Qltb _ _); [lia|].
    destruct (Qltb _ _); [lia|]. destruct (Z.even _); lia. }
  assert (Hy : Qfloor y <= rne y <= Qfloor y + 1).
  { unfold rne. destruct (Qltb _ _); [lia|].
    destruct (Qltb _ _); [lia|]. destruct (Z.even _); lia. }
  destruct (Z.eq_dec (Qfloor x) (Qfloor y)) as [E | NE]; [|lia].
  unfold rne. rewrite E.
  set (f := Qfloor y) in *. rewrite E in X1, X2.
  destruct (Qltb (x - inject_Z f) (1 # 2)) eqn:A1.
  - destruct (Qltb (y - inject_Z f) (1 # 2)); [lia|].
    destruct (Qltb (1 # 2) (y - inject_Z f)); [lia|].
    destruct (Z.even f); lia.
  - apply Qltb_ge in A1.
    assert (B1 : Qltb (y - inject_Z f) (1 # 2) = false)
      by (apply Qltb_ge; lra).
    rewrite B1.
    destruct (Qltb (1 # 2) (x - inject_Z f)) eqn:A2.
    + apply Qltb_lt in A2.
      assert (B2 : Qltb (1 # 2) (y - inject_Z f) = true)
        by (apply Qltb_lt; lra).
      rewrite B2. lia.
    + destruct (Qltb (1 # 2) (y - inject_Z f)); [destruct (Z.even f); lia|].
      lia.
Qed.

Lemma rne_ge_Z (x : Q) (z : Z) : (inject_Z z <= x)%Q -> z <= rne x.
Proof. intros H. rewrite <- (rne_Z z). apply rne_mono, H. Qed.

Lemma rne_le_Z (x : Q) (z : Z) : (x <= inject_Z z)%Q -> rne x <= z.
Proof. intros H. rewrite <- (rne_Z z). apply rne_mono, H. Qed.

Lemma Qdiv_le_compat_pos (x y u : Q) :
  (0 < u)%Q -> (x <= y)%Q -> (x / u <= y / u)%Q.
Proof.
  intros Hu Hxy. unfold Qdiv. apply Qmult_le_compat_r; [exact Hxy|].
  apply Qlt_le_weak, Qinv_lt_0_compat, Hu.
Qed.

Lemma pow2_quotient (a b : Z) : (pow2 a / pow2 b == pow2 (a - b))%Q.
Proof.
  pose proof (pow2_pos b).
  assert (H1 : (pow2 a == pow2 (a - b) * pow2 b)%Q).
  { rewrite <- pow2_add. replace (a - b + b) with a by lia. reflexivity. }
  rewrite H1. field. lra.
Qed.


(** ** Rounding of positive numbers *)

Section Format.

Variables prec emin : Z.
Hypothesis Hprec : 1 <= prec.

Lemma ulp_pos (x : Q) : (0 < ulp prec emin x)%Q.
Proof. apply pow2_pos. Qed.

Lemma ulp_comp (x y : Q) :
  (0 < x)%Q -> (x == y)%Q -> ulp prec emin x = ulp prec emin y.
Proof.
  intros Hx Hxy. unfold ulp. rewrite (floorLog2_comp x y Hx Hxy). reflexivity.
Qed.

Lemma roundPos_comp (x y : Q) :
  (0 < x)%Q -> (x == y)%Q -> roundPos prec emin x = roundPos prec emin y.
Proof.
  intros Hx Hxy. unfold roundPos. rewrite (ulp_comp x y Hx Hxy).
  rewrite (rne_comp (x / ulp prec emin y) (y / ulp prec emin y));
    [reflexivity|].
  rewrite Hxy. reflexivity.
Qed.

Lemma roundPos_nonneg (x : Q) : (0 < x)%Q -> (0 <= roundPos prec emin x)%Q.
Proof.
  intros Hx. unfold roundPos.
  apply Qmult_le_0_compat; [|apply Qlt_le_weak, ulp_pos].
  change 0%Q with (inject_Z 0). rewrite <- Zle_Qle. apply rne_ge_Z.
  change (inject_Z 0) with 0%Q.
  apply Qle_shift_div_l; [apply ulp_pos|]. lra.
Qed.

(** The rounding error is at most half a unit in the last place. *)
Lemma roundPos_error (x : Q) :
  (x - ulp prec emin x * (1 # 2) <= roundPos prec emin x)%Q
  /\ (roundPos prec emin x <= x + ulp prec emin x * (1 # 2))%Q.
Proof.
  unfold roundPos. pose proof (ulp_pos x) as Hu.
  destruct (rne_nearest (x / ulp prec emin x)) as [H1 H2].
  set (u := ulp prec emin x) in *. set (r := inject_Z (rne (x / u))) in *.
  assert (Hx : (x == x / u * u)%Q) by (field; lra).
  set (q := (x / u)%Q) in *. clearbody q r u.
  split.
  - assert ((q - (1 # 2)) * u <= r * u)%Q
      by (apply Qmult_le_compat_r; [exact H1 | apply Qlt_le_weak, Hu]).
    lra.
  - assert (r * u <= (q + (1 # 2)) * u)%Q
      by (apply Qmult_le_compat_r; [exact H2 | apply Qlt_le_weak, Hu]).
    lra.
Qed.

Lemma ulp_bound (x : Q) :
  (0 < x)%Q ->
  (ulp prec emin x <= x * pow2 (1 - prec) + pow2 (emin - prec + 1))%Q.
Proof.
  intros Hx. destruct (floorLog2_spec x Hx) as [F1 _]. unfold ulp.
  pose proof (pow2_pos (1 - prec)). pose proof (pow2_pos (emin - prec + 1)).
  destruct (Z.max_spec (floorLog2 x) emin) as [[_ ->] | [_ ->]].
  - assert (0 <= x * pow2 (1 - prec))%Q by (apply Qmult_le_0_compat; lra).
    lra.
  - replace (floorLog2 x - prec + 1) with (floorLog2 x + (1 - prec)) by lia.
    rewrite (pow2_add (floorLog2 x) (1 - prec)).
    assert (pow2 (floorLog2 x) * pow2 (1 - prec) <= x * pow2 (1 - prec))%Q
      by (apply Qmult_le_compat_r; lra).
    lra.
Qed.

(** Rounding a positive number of exponent [e] stays within its binade. *)
Lemma roundPos_binade (x : Q) :
  (0 < x)%Q ->
  let e := Z.max (floorLog2 x) emin in
  (roundPos prec emin x <= pow2 (e + 1))%Q
  /\ (emin <= floorLog2 x -> (pow2 e <= roundPos prec emin x)%Q).
Proof.
  intros Hx e. destruct (floorLog2_spec x Hx) as [F1 F2].
  assert (Hu : ulp prec emin x = pow2 (e - (prec - 1))).
  { unfold ulp. fold e. f_equal. lia. }
  pose proof (pow2_pos (e - (prec - 1))) as Hupos.
  unfold roundPos. rewrite Hu. split.
  - assert (Hq : (x / pow2 (e - (prec - 1)) <= inject_Z (2 ^ prec))%Q).
    { rewrite <- pow2_Z by lia.
      assert (E : (pow2 prec == pow2 (e + 1) / pow2 (e - (prec - 1)))%Q).
      { rewrite pow2_quotient.
        replace (e + 1 - (e - (prec - 1))) with prec by lia. reflexivity. }
      rewrite E. apply Qdiv_le_compat_pos; [exact Hupos|].
      apply Qlt_le_weak. eapply Qlt_le_trans; [exact F2|].
      apply pow2_le. unfold e. lia. }
    apply rne_le_Z in Hq. rewrite Zle_Qle in Hq.
    assert (E : (pow2 (e + 1)
                 == inject_Z (2 ^ prec) * pow2 (e - (prec - 1)))%Q).
    { rewrite <- pow2_Z by lia. rewrite <- pow2_add.
      replace (prec + (e - (prec - 1))) with (e + 1) by lia. reflexivity. }
    rewrite E. apply Qmult_le_compat_r; [exact Hq | lra].
  - intros Hnorm.
    assert (He : e = floorLog2 x) by (unfold e; lia).
    assert (Hq : (inject_Z (2 ^ (prec - 1)) <= x / pow2 (e - (prec - 1)))%Q).
    { rewrite <- pow2_Z by lia.
      assert (E : (pow2 (prec - 1) == pow2 e / pow2 (e - (prec - 1)))%Q).
      { rewrite pow2_quotient.
        replace (e - (e - (prec - 1))) with (prec - 1) by lia. reflexivity. }
      rewrite E. apply Qdiv_le_compat_pos; [exact Hupos|].
      rewrite He. exact F1. }
    apply rne_ge_Z in Hq. rewrite Zle_Qle in Hq.
    assert (E : (pow2 e
                 == inject_Z (2 ^ (prec - 1)) * pow2 (e - (prec - 1)))%Q).
    { rewrite <- pow2_Z by lia. rewrite <- pow2_add.
      replace (prec - 1 + (e - (prec - 1))) with e by lia. reflexivity. }
    rewrite E. apply Qmult_le_compat_r; [exact Hq | lra].
Qed.

Lemma roundPos_mono (x y : Q) :
  (0 < x)%Q -> (x <= y)%Q ->
  (roundPos prec emin x <= roundPos prec emin y)%Q.
Proof.
  intros Hx Hxy.
  assert (Hy : (0 < y)%Q) by (eapply Qlt_le_trans; eassumption).
  pose proof (floorLog2_mono x y Hx Hxy) as Hfl.
  set (ex := Z.max (floorLog2 x) emin). set (ey := Z.max (floorLog2 y) emin).
  destruct (Z.eq_dec ex ey) as [E | NE].
  - assert (Hu : ulp prec emin x = ulp prec emin y).
    { unfold ulp. fold ex ey. rewrite E. reflexivity. }
    unfold roundPos. rewrite Hu. pose proof (ulp_pos y) as Hupos.
    apply Qmult_le_compat_r; [|lra].
    rewrite <- Zle_Qle. apply rne_mono.
    apply Qdiv_le_compat_pos; assumption.
  - assert (Hlt : ex < ey) by (unfold ex, ey in *; lia).
    destruct (roundPos_binade x Hx) as [Bx _].
    destruct (roundPos_binade y Hy) as [_ By].
    fold ex in Bx. fold ey in By.
    assert (Hnorm : emin <= floorLog2 y) by (unfold ex, ey in *; lia).
    specialize (By Hnorm).
    eapply Qle_trans; [exact Bx|]. eapply Qle_trans; [|exact By].
    apply pow2_le. lia.
Qed.

(** Numbers on a grid coarser than their unit in the last place are kept. *)
Lemma roundPos_grid (x : Q) (z k : Z) :
  (0 < x)%Q -> (x == inject_Z z * pow2 k)%Q -> emin - prec + 1 <= k ->
  (x < pow2 (k + prec))%Q -> (roundPos prec emin x == x)%Q.
Proof.
  intros Hx Hz Hk Hlt. destruct (floorLog2_spec x Hx) as [F1 F2].
  set (e := Z.max (floorLog2 x) emin).
  assert (Hfl : floorLog2 x < k + prec).
  { apply pow2_lt_inv. eapply Qle_lt_trans; eassumption. }
  assert (He : e - (prec - 1) <= k) by (unfold e; lia).
  assert (Hu : ulp prec emin x = pow2 (e - (prec - 1))).
  { unfold ulp. fold e. f_equal. lia. }
  pose proof (pow2_pos (e - (prec - 1))) as Hupos.
  unfold roundPos. rewrite Hu.
  set (j := k - (e - (prec - 1))).
  assert (Hq : (x / pow2 (e - (prec - 1)) == inject_Z (z * 2 ^ j))%Q).
  { rewrite inject_Z_mult, <- pow2_Z by (unfold j; lia).
    rewrite Hz. unfold Qdiv. rewrite <- Qmult_assoc.
    apply Qmult_comp; [reflexivity|].
    fold (Qdiv (pow2 k) (pow2 (e - (prec - 1)))). rewrite pow2_quotient.
    reflexivity. }
  rewrite (rne_comp _ _ Hq), rne_Z.
  rewrite inject_Z_mult, <- pow2_Z by (unfold j; lia).
  rewrite Hz, <- Qmult_assoc. apply Qmult_comp; [reflexivity|].
  rewrite <- pow2_add.
  replace (j + (e - (prec - 1))) with k by (unfold j; lia).
  reflexivity.
Qed.

(** A rounded value of magnitude at least [2^e] lies on the grid
    [2^(e-prec+1)]. *)
Lemma roundPos_on_grid (x : Q) (e : Z) :
  (0 < x)%Q -> emin <= e -> (pow2 e <= x)%Q ->
  exists z : Z, (roundPos prec emin x == inject_Z z * pow2 (e - prec + 1))%Q.
Proof.
  intros Hx He Hex. destruct (floorLog2_spec x Hx) as [F1 F2].
  assert (Hfl : e <= floorLog2 x).
  { assert (e < floorLog2 x + 1)
      by (apply pow2_lt_inv; eapply Qle_lt_trans; eassumption).
    lia. }
  unfold roundPos, ulp.
  replace (Z.max (floorLog2 x) emin) with (floorLog2 x) by lia.
  set (f := floorLog2 x) in *.
  exists (rne (x / pow2 (f - prec + 1)) * 2 ^ (f - e)).
  rewrite inject_Z_mult, <- pow2_Z by lia.
  rewrite <- Qmult_assoc. apply Qmult_comp; [reflexivity|].
  rewrite <- pow2_add.
  replace (f - e + (e - prec + 1)) with (f - prec + 1) by lia.
  reflexivity.
Qed.

(** ** Rounding of signed numbers *)

Lemma roundFloat_pos (x : Q) :
  (0 < x)%Q -> roundFloat prec emin x = roundPos prec emin x.
Proof.
  intros Hx. unfold roundFloat.
  assert (E : Qltb 0 x = true) by (apply Qltb_lt; exact Hx).
  rewrite E. reflexivity.
Qed.

Lemma roundFloat_neg (x : Q) :
  (x < 0)%Q -> roundFloat prec emin x = (- roundPos prec emin (- x))%Q.
Proof.
  intros Hx. unfold roundFloat.
  assert (E1 : Qltb 0 x = false) by (apply Qltb_ge; lra).
  assert (E2 : Qltb x 0 = true) by (apply Qltb_lt; exact Hx).
  rewrite E1, E2. reflexivity.
Qed.

Lemma roundFloat_zero (x : Q) : (x == 0)%Q -> roundFloat prec emin x = 0%Q.
Proof.
  intros Hx. unfold roundFloat.
  assert (E1 : Qltb 0 x = false) by (apply Qltb_ge; lra).
  assert (E2 : Qltb x 0 = false) by (apply Qltb_ge; lra).
  rewrite E1, E2. reflexivity.
Qed.

Lemma roundFloat_comp (x y : Q) :
  (x == y)%Q -> roundFloat prec emin x = roundFloat prec emin y.
Proof.
  intros Hxy.
  destruct (Q_dec x 0) as [[Hneg | Hpos] | Hz].
  - rewrite (roundFloat_neg x Hneg), (roundFloat_neg y) by lra.
    rewrite (roundPos_comp (- x) (- y)); [reflexivity | lra |].
    rewrite Hxy. reflexivity.
  - rewrite (roundFloat_pos x Hpos), (roundFloat_pos y) by lra.
    apply roundPos_comp; assumption.
  - rewrite (roundFloat_zero x Hz), (roundFloat_zero y) by lra. reflexivity.
Qed.

Lemma roundFloat_mono (x y : Q) :
  (x <= y)%Q -> (roundFloat prec emin x <= roundFloat prec emin y)%Q.
Proof.
  intros Hxy.
  destruct (Q_dec x 0) as [[Hxn | Hxp] | Hxz];
    destruct (Q_dec y 0) as [[Hyn | Hyp] | Hyz]; try lra.
  - rewrite (roundFloat_neg x Hxn), (roundFloat_neg y Hyn).
    assert (roundPos prec emin (- y) <= roundPos prec emin (- x))%Q
      by (apply roundPos_mono; lra).
    lra.
  - rewrite (roundFloat_neg x Hxn), (roundFloat_pos y Hyp).
    pose proof (roundPos_nonneg (- x)). pose proof (roundPos_nonneg y).
    lra.
  - rewrite (roundFloat_neg x Hxn), (roundFloat_zero y Hyz).
    pose proof (roundPos_nonneg (- x)). lra.
  - rewrite (roundFloat_pos x Hxp), (roundFloat_pos y Hyp).
    apply roundPos_mono; assumption.
  - rewrite (roundFloat_zero x Hxz), (roundFloat_pos y Hyp).
    apply roundPos_nonneg. exact Hyp.
  - rewrite (roundFloat_zero x Hxz), (roundFloat_zero y Hyz). lra.
Qed.

(** Relative error [2^-prec], absolute error [2^(emin-prec)] near zero. *)
Lemma roundFloat_error (x : Q) :
  (Qabs (roundFloat prec emin x - x)
   <= Qabs x * pow2 (- prec) + pow2 (emin - prec))%Q.
Proof.
  assert (Hhalf : forall t, (0 < t)%Q ->
            (ulp prec emin t * (1 # 2)
             <= t * pow2 (- prec) + pow2 (emin - prec))%Q).
  { intros t Ht. pose proof (ulp_bound t Ht) as Hb.
    assert (E1 : (pow2 (1 - prec) == 2 * pow2 (- prec))%Q).
    { replace (1 - prec) with (- prec + 1) by lia. apply pow2_succ. }
    assert (E2 : (pow2 (emin - prec + 1) == 2 * pow2 (emin - prec))%Q)
      by apply pow2_succ.
    rewrite E1, E2 in Hb. lra. }
  apply Qabs_Qle_condition.
  destruct (Q_dec x 0) as [[Hneg | Hpos] | Hz].
  - rewrite (roundFloat_neg x Hneg). rewrite (Qabs_neg x) by lra.
    destruct (roundPos_error (- x)) as [E1 E2].
    specialize (Hhalf (- x)%Q ltac:(lra)). split; lra.
  - rewrite (roundFloat_pos x Hpos). rewrite (Qabs_pos x) by lra.
    destruct (roundPos_error x) as [E1 E2].
    specialize (Hhalf x Hpos). split; lra.
  - rewrite (roundFloat_zero x Hz). rewrite Hz.
    pose proof (pow2_pos (emin - prec)). change (Qabs 0) with 0%Q.
    split; lra.
Qed.

Lemma roundFloat_grid (x : Q) (z k : Z) :
  (x == inject_Z z * pow2 k)%Q -> emin - prec + 1 <= k ->
  (Qabs x < pow2 (k + prec))%Q -> (roundFloat prec emin x == x)%Q.
Proof.
  intros Hz Hk Hlt.
  destruct (Q_dec x 0) as [[Hneg | Hpos] | Hzero].
  - rewrite (roundFloat_neg x Hneg). rewrite (Qabs_neg x) in Hlt by lra.
    rewrite (roundPos_grid (- x) (- z) k); try lra; try assumption.
    rewrite Hz, inject_Z_opp. ring.
  - rewrite (roundFloat_pos x Hpos). rewrite (Qabs_pos x) in Hlt by lra.
    apply (roundPos_grid x z k); assumption.
  - rewrite (roundFloat_zero x Hzero). lra.
Qed.

Lemma roundFloat_on_grid (x : Q) (e : Z) :
  emin <= e -> (pow2 e <= Qabs x)%Q ->
  exists z : Z,
    (roundFloat prec emin x == inject_Z z * pow2 (e - prec + 1))%Q.
Proof.
  intros He Hx. pose proof (pow2_pos e) as Hpe.
  destruct (Q_dec x 0) as [[Hneg | Hp] | Hzero].
  - rewrite (Qabs_neg x) in Hx by lra.
    destruct (roundPos_on_grid (- x) e ltac:(lra) He Hx) as [z Hz].
    rewrite (roundFloat_neg x Hneg).
    exists (- z). rewrite inject_Z_opp, Hz. ring.
  - rewrite (Qabs_pos x) in Hx by lra.
    destruct (roundPos_on_grid x e Hp He Hx) as [z Hz].
    rewrite (roundFloat_pos x Hp). exists z. exact Hz.
  - rewrite Hzero in Hx. change (Qabs 0) with 0%Q in Hx. lra.
Qed.

Lemma roundFloat_opp (x : Q) :
  (roundFloat prec emin (- x) == - roundFloat prec emin x)%Q.
Proof.
  destruct (Q_dec x 0) as [[Hneg | Hpos] | Hz].
  - rewrite (roundFloat_neg x Hneg), (roundFloat_pos (- x)) by lra. ring.
  - rewrite (roundFloat_pos x Hpos), (roundFloat_neg (- x)) by lra.
    rewrite (roundPos_comp (- - x) x); [reflexivity | lra | ring].
  - rewrite (roundFloat_zero x Hz), (roundFloat_zero (- x)) by lra.
    reflexivity.
Qed.

Lemma roundPos_fixed (x : Q) :
  (0 < x)%Q ->
  (roundFloat prec emin (roundPos prec emin x) == roundPos prec emin x)%Q.
Proof.
  intros Hx. pose proof (roundPos_nonneg x Hx) as Hy.
  destruct (roundPos_binade x Hx) as [Hb _].
  set (e := Z.max (floorLog2 x) emin) in Hb.
  destruct (Qlt_le_dec (roundPos prec emin x) (pow2 (e + 1))) as [Hlt | Hge].
  - apply (roundFloat_grid _ (rne (x / ulp prec emin x)) (e - prec + 1)).
    + unfold roundPos, ulp. fold e. reflexivity.
    + unfold e. lia.
    + rewrite Qabs_pos by exact Hy.
      replace (e - prec + 1 + prec) with (e + 1) by lia. exact Hlt.
  - apply (roundFloat_grid _ 1 (e + 1)).
    + assert (E : (roundPos prec emin x == pow2 (e + 1))%Q)
        by (apply Qle_antisym; assumption).
      rewrite E. change (inject_Z 1) with 1%Q. ring.
    + unfold e. lia.
    + rewrite Qabs_pos by exact Hy.
      eapply Qle_lt_trans; [exact Hb|]. apply pow2_lt. lia.
Qed.

(** Rounding is idempotent: a rounded value is a number of the format. *)
Lemma roundFloat_idem (x : Q) :
  (roundFloat prec emin (roundFloat prec emin x)
   == roundFloat prec emin x)%Q.
Proof.
  destruct (Q_dec x 0) as [[Hneg | Hpos] | Hz].
  - rewrite (roundFloat_neg x Hneg), roundFloat_opp.
    rewrite (roundPos_fixed (- x)) by lra. reflexivity.
  - rewrite (roundFloat_pos x Hpos). apply roundPos_fixed, Hpos.
  - rewrite (roundFloat_zero x Hz). rewrite roundFloat_zero; reflexivity.
Qed.

End Format.

End FloatFacts.

(** ** [driveCoilsAngle] in binary32 *)

Section Binary32Facts.

Import Binary32.

(** ** [float] values *)

Lemma round32_comp (x y : Q) : (x == y)%Q -> round32 x = round32 y.
Proof. apply roundFloat_comp. Qed.

Lemma round32_mono (x y : Q) : (x <= y)%Q -> (round32 x <= round32 y)%Q.
Proof. apply roundFloat_mono. lia. Qed.

Lemma round32_is_binary32 (x : Q) : isBinary32 (round32 x).
Proof. apply roundFloat_idem. lia. Qed.

Lemma isBinary32_comp (x y : Q) : (x == y)%Q -> isBinary32 x -> isBinary32 y.
Proof.
  unfold isBinary32. intros E H. rewrite <- (round32_comp x y E), H. exact E.
Qed.

Lemma isBinary32_opp (x : Q) : isBinary32 x -> isBinary32 (- x).
Proof.
  unfold isBinary32, round32. intros H. rewrite roundFloat_opp.
  fold round32. rewrite H. reflexivity.
Qed.

Lemma onGrid_comp (k : Z) (x y : Q) : (x == y)%Q -> onGrid k x -> onGrid k y.
Proof. intros E [z Hz]. exists z. rewrite <- E. exact Hz. Qed.

Lemma onGrid_opp (k : Z) (x : Q) : onGrid k x -> onGrid k (- x).
Proof.
  intros [z Hz]. exists (- z). rewrite Hz, inject_Z_opp. ring.
Qed.

Lemma onGrid_plus (k : Z) (x y : Q) :
  onGrid k x -> onGrid k y -> onGrid k (x + y).
Proof.
  intros [z Hz] [w Hw]. exists (z + w). rewrite Hz, Hw, inject_Z_plus. ring.
Qed.

Lemma onGrid_minus (k : Z) (x y : Q) :
  onGrid k x -> onGrid k y -> onGrid k (x - y).
Proof.
  intros Hx Hy. apply onGrid_plus; [exact Hx | apply onGrid_opp, Hy].
Qed.

Lemma onGrid_int (k z : Z) : k <= 0 -> onGrid k (inject_Z z).
Proof.
  intros Hk. exists (z * 2 ^ (- k)).
  rewrite inject_Z_mult, <- pow2_Z by lia. rewrite <- Qmult_assoc.
  rewrite <- pow2_add. replace (- k + k) with 0 by lia.
  change (pow2 0) with 1%Q. ring.
Qed.

(** A number on the grid [2^k] below [2^(k+24)] is a [float]. *)
Lemma onGrid_is_binary32 (k : Z) (x : Q) :
  onGrid k x -> -149 <= k -> (Qabs x < pow2 (k + 24))%Q -> isBinary32 x.
Proof.
  intros [z Hz] Hk Hlt. apply (roundFloat_grid 24 (-126) x z k); auto.
Qed.

(** A [float] of magnitude at least [2^e] is on the grid [2^(e-23)]. *)
Lemma isBinary32_onGrid (e : Z) (x : Q) :
  isBinary32 x -> -126 <= e -> (pow2 e <= Qabs x)%Q -> onGrid (e - 23) x.
Proof.
  intros Hx He Hle.
  destruct (roundFloat_on_grid 24 (-126) x e He Hle) as [z Hz].
  exists z. unfold isBinary32 in Hx. fold round32 in Hz.
  rewrite Hx in Hz. rewrite Hz.
  replace (e - 24 + 1) with (e - 23) by lia. reflexivity.
Qed.

Lemma isBinary32_int (z : Z) : Z.abs z < 16777216 -> isBinary32 (inject_Z z).
Proof.
  intros Hz. apply (onGrid_is_binary32 0); [apply onGrid_int; lia | lia |].
  change (0 + 24) with 24. rewrite pow2_Z by lia.
  change (2 ^ 24) with 16777216.
  apply Qabs_case; intros _.
  - rewrite <- Zlt_Qlt. lia.
  - rewrite <- inject_Z_opp, <- Zlt_Qlt. lia.
Qed.

Lemma round32_error (x : Q) :
  (Qabs (round32 x - x) <= Qabs x * (1 # 16777216) + pow2 (-150))%Q.
Proof.
  eapply Qle_trans; [apply (roundFloat_error 24 (-126))|].
  assert (E : (pow2 (- 24) == 1 # 16777216)%Q) by reflexivity.
  rewrite E. change (-126 - 24) with (-150). lra.
Qed.

Lemma pow2_m150 : (0 < pow2 (-150))%Q /\ (pow2 (-150) <= 1 # 16777216)%Q.
Proof.
  split; [apply pow2_pos|].
  assert (E : (pow2 (- 24) == 1 # 16777216)%Q) by reflexivity.
  rewrite <- E. apply pow2_le. lia.
Qed.

Lemma finite32_small (x : Q) :
  (Qabs x < pow2 128)%Q -> finite32 x = Some x.
Proof.
  intros H. unfold finite32. apply Qltb_lt in H. rewrite H. reflexivity.
Qed.

Lemma Qfloor_between (y : Q) (lo hi : Z) :
  (inject_Z lo <= y)%Q -> (y <= inject_Z hi)%Q -> lo <= Qfloor y <= hi.
Proof.
  intros H1 H2. apply Qfloor_resp_le in H1, H2. rewrite Qfloor_Z in H1, H2.
  lia.
Qed.

Lemma Qfloor_unit (y : Q) : (0 <= y)%Q -> (y < 1)%Q -> Qfloor y = 0.
Proof.
  intros H0 H1. pose proof (Qfloor_le y) as Hl. pose proof (Qlt_floor y) as Hu.
  assert (A : (inject_Z (Qfloor y) < inject_Z 1)%Q)
    by (change (inject_Z 1) with 1%Q; lra).
  assert (B : (inject_Z 0 < inject_Z (Qfloor y + 1))%Q)
    by (change (inject_Z 0) with 0%Q; lra).
  rewrite <- Zlt_Qlt in A, B. lia.
Qed.

(** On a [float] the [double] sum inside [round] never moves the integer
    part: the macro yields the nearest integer, halves upward. *)
Lemma round64_half_floor (x : Q) :
  isBinary32 x -> (0 <= x)%Q -> (x <= 134217728)%Q ->
  (0 <= round64 (x + (1 # 2)))%Q
  /\ Qfloor (round64 (x + (1 # 2))) = Qfloor (x + (1 # 2)).
Proof.
  intros Hb H0 Hhi.
  assert (Hexact : (round64 (x + (1 # 2)) == x + (1 # 2))%Q ->
            (0 <= round64 (x + (1 # 2)))%Q
            /\ Qfloor (round64 (x + (1 # 2))) = Qfloor (x + (1 # 2))).
  { intros E. split; [rewrite E; lra | apply Qfloor_comp, E]. }
  destruct (Qlt_le_dec x (1 # 2)) as [Hlt | Hge].
  - destruct (Qlt_le_dec x (pow2 (-30))) as [Htiny | Hbig].
    + assert (E1 : (round64 (1 # 2) == 1 # 2)%Q) by (vm_compute; reflexivity).
      assert (E2 : (round64 ((1 # 2) + pow2 (-30)) == (1 # 2) + pow2 (-30))%Q)
        by (vm_compute; reflexivity).
      assert (M1 : (round64 (1 # 2) <= round64 (x + (1 # 2)))%Q)
        by (apply roundFloat_mono; [lia | lra]).
      assert (M2 : (round64 (x + (1 # 2)) <= round64 ((1 # 2) + pow2 (-30)))%Q)
        by (apply roundFloat_mono; [lia | lra]).
      rewrite E1 in M1. rewrite E2 in M2.
      assert (P : (pow2 (-30) == 1 # 1073741824)%Q) by reflexivity.
      rewrite P in *.
      split; [lra|].
      rewrite (Qfloor_unit (round64 (x + (1 # 2)))) by lra.
      rewrite (Qfloor_unit (x + (1 # 2))) by lra. reflexivity.
    + apply Hexact.
      assert (G : onGrid (-53) (x + (1 # 2))).
      { apply onGrid_plus.
        - apply (isBinary32_onGrid (-30)); [exact Hb | lia |].
          rewrite Qabs_pos by exact H0. exact Hbig.
        - exists 4503599627370496. vm_compute. reflexivity. }
      destruct G as [z Hz].
      apply (roundFloat_grid 53 (-1022) _ z (-53)); [exact Hz | lia |].
      change (-53 + 53) with 0. change (pow2 0) with 1%Q.
      rewrite Qabs_pos by lra. lra.
  - apply Hexact.
    assert (G : onGrid (-24) (x + (1 # 2))).
    { apply onGrid_plus.
      - apply (isBinary32_onGrid (-1)); [exact Hb | lia |].
        rewrite Qabs_pos by exact H0. exact Hge.
      - exists 8388608. vm_compute. reflexivity. }
    destruct G as [z Hz].
    apply (roundFloat_grid 53 (-1022) _ z (-24)); [exact Hz | lia |].
    change (-24 + 53) with 29.
    assert (P : (pow2 29 == 536870912)%Q) by reflexivity.
    rewrite P. rewrite Qabs_pos by lra. lra.
Qed.

Lemma roundMacro_binary32 (x : Q) :
  isBinary32 x -> (0 <= x)%Q -> (x <= 134217728)%Q ->
  roundMacro x = Some (Qfloor (x + (1 # 2))).
Proof.
  intros Hb H0 Hhi. destruct (round64_half_floor x Hb H0 Hhi) as [Hnn Hfl].
  unfold roundMacro, toLong.
  assert (E : Qle_bool 0 x = true) by (apply Qle_bool_iff; exact H0).
  rewrite E, (Qtrunc_floor _ Hnn), Hfl.
  destruct (Qfloor_between (x + (1 # 2)) 0 134217729) as [L U].
  - change (inject_Z 0) with 0%Q. lra.
  - change (inject_Z 134217729) with 134217729%Q. lra.
  - assert (C1 : (-2147483648 <=? Qfloor (x + (1 # 2))) = true)
      by (apply Z.leb_le; lia).
    assert (C2 : (Qfloor (x + (1 # 2)) <=? 2147483647) = true)
      by (apply Z.leb_le; lia).
    rewrite C1, C2. reflexivity.
Qed.

(** ** The round-based correction *)

Lemma ofInt_360 : (ofInt 360 == 360)%Q.
Proof. vm_compute. reflexivity. Qed.

(** The number of whole turns [round(t / 360)] taken out of a non-negative
    [float] of at most 2^26 degrees: every intermediate value is defined,
    the product with 360 converts to [float] unchanged, and what is left
    after the subtraction is again a [float], so that the subtraction does
    not round. *)
Lemma turns_spec (t : Q) :
  isBinary32 t -> (0 <= t)%Q -> (t <= 67108864)%Q ->
  exists r : Z,
    fdiv t (ofInt 360) = Some (round32 (t / 360))
    /\ roundMacro (round32 (t / 360)) = Some r
    /\ lmul r 360 = Some (r * 360)
    /\ (ofInt (r * 360) == inject_Z r * 360)%Q
    /\ 0 <= r
    /\ (-185 <= t - inject_Z r * 360)%Q
    /\ (t - inject_Z r * 360 <= 185)%Q
    /\ isBinary32 (t - inject_Z r * 360)
    /\ ((256 <= t)%Q -> onGrid (-15) (t - inject_Z r * 360)).
Proof.
  intros Hb H0 Hhi.
  set (q := (t / 360)%Q). set (x := round32 q).
  assert (Hq : (t == 360 * q)%Q) by (unfold q; field).
  assert (Hx0 : (0 <= x)%Q).
  { assert (M : (round32 0 <= x)%Q) by (apply round32_mono; lra).
    exact M. }
  assert (Hx1 : (x <= 262144)%Q).
  { assert (M : (x <= round32 262144)%Q) by (apply round32_mono; lra).
    assert (E : (round32 262144 == 262144)%Q) by (vm_compute; reflexivity).
    rewrite E in M. exact M. }
  assert (Herr : (- (1 # 80) <= x - q)%Q /\ (x - q <= 1 # 80)%Q).
  { pose proof (round32_error q) as He. fold x in He.
    destruct pow2_m150 as [_ Hsmall].
    rewrite (Qabs_pos q) in He by lra.
    apply Qabs_Qle_condition in He. destruct He as [He1 He2].
    split; lra. }
  destruct Herr as [Herr1 Herr2].
  set (r := Qfloor (x + (1 # 2))).
  pose proof (Qfloor_le (x + (1 # 2))) as Hr1.
  pose proof (Qlt_floor (x + (1 # 2))) as Hr2.
  fold r in Hr1, Hr2. rewrite inject_Z_plus in Hr2.
  change (inject_Z 1) with 1%Q in Hr2.
  destruct (Qfloor_between (x + (1 # 2)) 0 262145) as [Hr0 Hrhi].
  { change (inject_Z 0) with 0%Q. lra. }
  { change (inject_Z 262145) with 262145%Q. lra. }
  fold r in Hr0, Hrhi.
  assert (Hint : (inject_Z (r * 360) == inject_Z r * 360)%Q)
    by (rewrite inject_Z_mult; reflexivity).
  exists r. split; [|split; [|split; [|split; [|split;
    [|split; [|split; [|split]]]]]]].
  - unfold fdiv.
    assert (Z360 : Qeq_bool (ofInt 360) 0 = false) by (vm_compute; reflexivity).
    rewrite Z360.
    rewrite (round32_comp (t / ofInt 360) q)
      by (unfold q; rewrite ofInt_360; reflexivity).
    apply finite32_small. rewrite Qabs_pos by exact Hx0.
    eapply Qle_lt_trans; [exact Hx1|].
    assert (P : (pow2 18 == 262144)%Q) by reflexivity.
    rewrite <- P. apply pow2_lt. lia.
  - apply roundMacro_binary32; [apply round32_is_binary32 | exact Hx0 | lra].
  - unfold lmul.
    assert (C1 : (-2147483648 <=? r * 360) = true) by (apply Z.leb_le; lia).
    assert (C2 : (r * 360 <=? 2147483647) = true) by (apply Z.leb_le; lia).
    rewrite C1, C2. reflexivity.
  - rewrite <- Hint. unfold ofInt.
    apply (roundFloat_grid 24 (-126) _ (r * 45) 3); [| lia |].
    + rewrite !inject_Z_mult. change (pow2 3) with 8%Q.
      change (inject_Z 360) with 360%Q. change (inject_Z 45) with 45%Q. ring.
    + change (3 + 24) with 27.
      assert (P : (pow2 27 == inject_Z 134217728)%Q) by reflexivity.
      rewrite P.
      rewrite Qabs_pos
        by (change 0%Q with (inject_Z 0); rewrite <- Zle_Qle; lia).
      rewrite <- Zlt_Qlt. lia.
  - exact Hr0.
  - lra.
  - lra.
  - destruct (Qlt_le_dec t 128) as [Hsmall | Hlarge].
    + assert (Hr : r = 0).
      { apply Qfloor_unit; [lra|].
        assert (M : (x <= round32 (3 # 8))%Q) by (apply round32_mono; lra).
        assert (E : (round32 (3 # 8) == 3 # 8)%Q) by (vm_compute; reflexivity).
        rewrite E in M. lra. }
      rewrite Hr. apply (isBinary32_comp t); [|exact Hb].
      change (inject_Z 0) with 0%Q. ring.
    + apply (onGrid_is_binary32 (-16)); [| lia |].
      * apply onGrid_minus.
        -- apply (isBinary32_onGrid 7); [exact Hb | lia |].
           rewrite Qabs_pos by exact H0. exact Hlarge.
        -- apply (onGrid_comp _ (inject_Z (r * 360))); [exact Hint|].
           apply onGrid_int. lia.
      * change (-16 + 24) with 8. change (pow2 8) with 256%Q.
        apply Qabs_case; intros _; lra.
  - intros H256. apply onGrid_minus.
    + apply (isBinary32_onGrid 8); [exact Hb | lia |].
      rewrite Qabs_pos by exact H0. exact H256.
    + apply (onGrid_comp _ (inject_Z (r * 360))); [exact Hint|].
      apply onGrid_int. lia.
Qed.

(** What the round-based correction leaves: the argument moved by whole
    turns, without rounding, to within 185 degrees of zero (or kept, when it
    was between 0 and 360). *)
Lemma roundCorrection_spec (a : Q) :
  isBinary32 a -> (Qabs a <= 67108864)%Q ->
  exists (a1 : Q) (k : Z),
    roundCorrection a = Some a1
    /\ (a1 == a + inject_Z k * 360)%Q
    /\ (-185 <= a1)%Q /\ (a1 <= 360)%Q
    /\ isBinary32 a1
    /\ ((0 <= a)%Q -> (a1 < 0)%Q -> onGrid (-15) a1).
Proof.
  intros Hb Habs. apply Qabs_Qle_condition in Habs. destruct Habs as [Hlo Hhi].
  assert (P128 : (360 < pow2 128)%Q).
  { assert (P : (pow2 9 == 512)%Q) by reflexivity.
    assert (L : (pow2 9 < pow2 128)%Q) by (apply pow2_lt; lia).
    rewrite P in L. lra. }
  unfold roundCorrection.
  destruct (Qltb a 0) eqn:Eneg.
  - apply Qltb_lt in Eneg.
    assert (Epos : Qltb 0 a = false) by (apply Qltb_ge; lra).
    unfold absMacro. rewrite Epos.
    destruct (turns_spec (- a)%Q) as
      (r & Hdiv & Hround & Hmul & Hint & Hr0 & Hd1 & Hd2 & Hbin & _);
      [apply isBinary32_opp, Hb | lra | lra |].
    rewrite Hdiv. cbn [bind]. rewrite Hround. cbn [bind].
    rewrite Hmul. cbn [bind]. unfold fadd.
    assert (E : (a + ofInt (r * 360) == - (- a - inject_Z r * 360))%Q)
      by (rewrite Hint; ring).
    rewrite (round32_comp _ _ E).
    pose proof (isBinary32_opp _ Hbin) as Hbin'. unfold isBinary32 in Hbin'.
    set (a1 := round32 (- (- a - inject_Z r * 360))) in *.
    assert (Ha1 : (a1 == a + inject_Z r * 360)%Q) by (rewrite Hbin'; ring).
    exists a1, r. split; [|split; [|split; [|split; [|split]]]].
    + apply finite32_small. apply Qabs_case; intros _; lra.
    + exact Ha1.
    + lra.
    + lra.
    + apply (isBinary32_comp (round32 (- (- a - inject_Z r * 360))));
        [reflexivity | apply round32_is_binary32].
    + intros C. lra.
  - apply Qltb_ge in Eneg. destruct (Qltb 360 a) eqn:Ebig.
    + apply Qltb_lt in Ebig.
      destruct (turns_spec a) as
        (r & Hdiv & Hround & Hmul & Hint & Hr0 & Hd1 & Hd2 & Hbin & Hgrid);
        [exact Hb | lra | lra |].
      rewrite Hdiv. cbn [bind]. rewrite Hround. cbn [bind].
      rewrite Hmul. cbn [bind]. unfold fsub.
      assert (E : (a - ofInt (r * 360) == a - inject_Z r * 360)%Q)
        by (rewrite Hint; ring).
      rewrite (round32_comp _ _ E).
      unfold isBinary32 in Hbin.
      set (a1 := round32 (a - inject_Z r * 360)) in *.
      exists a1, (- r). split; [|split; [|split; [|split; [|split]]]].
      * apply finite32_small. apply Qabs_case; intros _; lra.
      * rewrite Hbin, inject_Z_opp. ring.
      * lra.
      * lra.
      * apply (isBinary32_comp (round32 (a - inject_Z r * 360)));
          [reflexivity | apply round32_is_binary32].
      * intros _ _. apply (onGrid_comp _ (a - inject_Z r * 360));
          [symmetry; exact Hbin | apply Hgrid; lra].
    + apply Qltb_ge in Ebig. exists a, 0.
      split; [reflexivity|]. split; [change (inject_Z 0) with 0%Q; ring|].
      split; [lra|]. split; [lra|]. split; [exact Hb|]. intros _ C. lra.
Qed.

(** ** The loop *)

Lemma constrainLoop_in_range (fuel : nat) (a : Q) :
  (0 <= a)%Q -> (a <= 360)%Q -> constrainLoop fuel a = Some a.
Proof.
  intros H0 H1.
  assert (E1 : Qltb a 0 = false) by (apply Qltb_ge; exact H0).
  assert (E2 : Qltb 360 a = false) by (apply Qltb_ge; exact H1).
  destruct fuel; cbn [constrainLoop]; rewrite E1, E2; reflexivity.
Qed.

(** After the correction the loop runs at most once, and its one addition
    lands in [0, 360]. *)
Lemma constrainLoop_spec (fuel : nat) (a1 : Q) :
  (1 <= fuel)%nat -> isBinary32 a1 -> (-185 <= a1)%Q -> (a1 <= 360)%Q ->
  exists a2 : Q,
    constrainLoop fuel a1 = Some a2
    /\ (0 <= a2)%Q /\ (a2 <= 360)%Q
    /\ isBinary32 a2
    /\ ((0 <= a1)%Q -> a2 = a1)
    /\ ((a1 < 0)%Q -> (Qabs (a2 - (a1 + 360)) <= 1 # 32768)%Q)
    /\ ((a1 < 0)%Q -> onGrid (-15) a1 -> (a2 == a1 + 360)%Q).
Proof.
  intros Hfuel Hb Hlo Hhi.
  destruct (Qlt_le_dec a1 0) as [Hneg | Hpos].
  - destruct fuel as [|n]; [lia|]. cbn [constrainLoop].
    assert (E1 : Qltb a1 0 = true) by (apply Qltb_lt; exact Hneg).
    rewrite E1. cbn [orb]. unfold fadd.
    assert (E : (a1 + ofInt 360 == a1 + 360)%Q)
      by (rewrite ofInt_360; reflexivity).
    rewrite (round32_comp _ _ E).
    set (a2 := round32 (a1 + 360)).
    assert (M1 : (round32 175 <= a2)%Q) by (apply round32_mono; lra).
    assert (M2 : (a2 <= round32 360)%Q) by (apply round32_mono; lra).
    assert (V1 : (round32 175 == 175)%Q) by (vm_compute; reflexivity).
    assert (V2 : (round32 360 == 360)%Q) by (vm_compute; reflexivity).
    rewrite V1 in M1. rewrite V2 in M2.
    assert (Hfin : finite32 a2 = Some a2).
    { apply finite32_small. rewrite Qabs_pos by lra.
      assert (P : (pow2 9 == 512)%Q) by reflexivity.
      assert (L : (pow2 9 < pow2 128)%Q) by (apply pow2_lt; lia).
      rewrite P in L. lra. }
    rewrite Hfin. cbn [bind].
    rewrite constrainLoop_in_range by lra.
    exists a2. split; [reflexivity|]. split; [lra|]. split; [lra|].
    split; [apply round32_is_binary32|]. split; [intros C; lra|]. split.
    + intros _. pose proof (round32_error (a1 + 360)) as He. fold a2 in He.
      destruct pow2_m150 as [_ Hsmall].
      rewrite (Qabs_pos (a1 + 360)) in He by lra.
      eapply Qle_trans; [exact He|]. lra.
    + intros _ Hg.
      apply (onGrid_is_binary32 (-15)); [| lia |].
      * apply onGrid_plus; [exact Hg|].
        apply (onGrid_int (-15) 360). lia.
      * change (-15 + 24) with 9. change (pow2 9) with 512%Q.
        rewrite Qabs_pos by lra. lra.
  - rewrite constrainLoop_in_range by lra.
    exists a1. split; [reflexivity|]. split; [lra|]. split; [lra|].
    split; [exact Hb|]. split; [reflexivity|]. split; intros C; lra.
Qed.

(** ** Normalisation *)

Lemma normalizeAngle_spec (fuel : nat) (a : Q) :
  (1 <= fuel)%nat -> isBinary32 a -> (Qabs a <= 67108864)%Q ->
  exists angle : Q,
    normalizeAngle fuel a = Some angle
    /\ (0 <= angle)%Q /\ (angle <= 360)%Q
    /\ isBinary32 angle
    /\ (exists k : Z, (Qabs (angle - (a + inject_Z k * 360)) <= 1 # 32768)%Q)
    /\ ((0 <= a)%Q -> exists k : Z, (angle == a + inject_Z k * 360)%Q).
Proof.
  intros Hfuel Hb Habs.
  destruct (roundCorrection_spec a Hb Habs)
    as (a1 & k & Hrc & Ha1 & Hlo & Hhi & Hb1 & Hg1).
  destruct (constrainLoop_spec fuel a1 Hfuel Hb1 Hlo Hhi)
    as (a2 & Hcl & H0 & H360 & Hb2 & Hsame & Herr & Hexact).
  exists a2. unfold normalizeAngle. rewrite Hrc. cbn [bind].
  split; [exact Hcl|]. split; [exact H0|]. split; [exact H360|].
  split; [exact Hb2|]. split.
  - destruct (Qlt_le_dec a1 0) as [Hneg | Hpos].
    + exists (k + 1). specialize (Herr Hneg).
      assert (E : (a2 - (a + inject_Z (k + 1) * 360) == a2 - (a1 + 360))%Q).
      { rewrite Ha1, inject_Z_plus. change (inject_Z 1) with 1%Q. ring. }
      rewrite E. exact Herr.
    + exists k. rewrite (Hsame Hpos).
      assert (E : (a1 - (a + inject_Z k * 360) == 0)%Q)
        by (rewrite Ha1; ring).
      rewrite E. discriminate.
  - intros Ha0. destruct (Qlt_le_dec a1 0) as [Hneg | Hpos].
    + exists (k + 1). rewrite (Hexact Hneg (Hg1 Ha0 Hneg)).
      rewrite Ha1, inject_Z_plus. change (inject_Z 1) with 1%Q. ring.
    + exists k. rewrite (Hsame Hpos). exact Ha1.
Qed.

End Binary32Facts.

Section Binary32Drive.

Import Binary32.

(** ** Conversion to microsteps *)

Lemma angleToMicrosteps_comp (a b : Q) (m : StepperMotor) :
  (a == b)%Q -> angleToMicrosteps a m = angleToMicrosteps b m.
Proof.
  intros E. unfold angleToMicrosteps, microstepAngle, fdiv.
  rewrite (round32_comp (a / fullStepAngle m) (b / fullStepAngle m))
    by (rewrite E; reflexivity).
  reflexivity.
Qed.

(** [microstepAngle] is defined and within a relative [2^-22] of the exact
    [(angle / fullStepAngle) * microstepDivisor]. *)
Lemma microstepAngle_spec (angle : Q) (m : StepperMotor) :
  (0 <= angle)%Q -> (angle <= 360)%Q ->
  (1 # 2 <= fullStepAngle m)%Q -> 0 <= microstepDivisor m <= 65535 ->
  exists v : Q,
    microstepAngle angle m = Some v
    /\ isBinary32 v /\ (0 <= v)%Q /\ (v <= 67108864)%Q
    /\ (Qabs (v - angle / fullStepAngle m * inject_Z (microstepDivisor m))
        <= angle / fullStepAngle m * inject_Z (microstepDivisor m)
           * (1 # 4194304) + pow2 (-130))%Q.
Proof.
  intros H0 H360 Hfsa Hd.
  set (fsa := fullStepAngle m) in *. set (d := microstepDivisor m) in *.
  set (X := (angle / fsa)%Q). set (D := inject_Z d).
  assert (HX0 : (0 <= X)%Q) by (apply Qle_shift_div_l; lra).
  assert (HX1 : (X <= 720)%Q) by (apply Qle_shift_div_r; lra).
  assert (HD0 : (0 <= D)%Q)
    by (change 0%Q with (inject_Z 0); unfold D; rewrite <- Zle_Qle; lia).
  assert (HD1 : (D <= 65535)%Q)
    by (change 65535%Q with (inject_Z 65535); unfold D;
        rewrite <- Zle_Qle; lia).
  set (q := round32 X).
  assert (Hq0 : (0 <= q)%Q).
  { assert (M : (round32 0 <= q)%Q) by (apply round32_mono; exact HX0).
    exact M. }
  assert (Hq1 : (q <= 720)%Q).
  { assert (M : (q <= round32 720)%Q) by (apply round32_mono; exact HX1).
    assert (E : (round32 720 == 720)%Q) by (vm_compute; reflexivity).
    rewrite E in M. exact M. }
  assert (P128 : (67108864 < pow2 128)%Q).
  { assert (P : (pow2 26 == 67108864)%Q) by reflexivity.
    rewrite <- P. apply pow2_lt. lia. }
  assert (HqD0 : (0 <= q * D)%Q) by (apply Qmult_le_0_compat; assumption).
  assert (HqD1 : (q * D <= 720 * D)%Q)
    by (apply Qmult_le_compat_r; assumption).
  assert (HXD0 : (0 <= X * D)%Q) by (apply Qmult_le_0_compat; assumption).
  set (v := round32 (q * D)).
  assert (Hv0 : (0 <= v)%Q).
  { assert (M : (round32 0 <= v)%Q) by (apply round32_mono; exact HqD0).
    exact M. }
  assert (Hv1 : (v <= 67108864)%Q).
  { assert (M : (v <= round32 67108864)%Q) by (apply round32_mono; lra).
    assert (E : (round32 67108864 == 67108864)%Q)
      by (vm_compute; reflexivity).
    rewrite E in M. exact M. }
  exists v. split; [|split; [|split; [|split]]].
  - unfold microstepAngle, fdiv. fold fsa d X q.
    destruct (Qeq_bool fsa 0) eqn:Ez; [apply Qeq_bool_iff in Ez; lra|].
    rewrite (finite32_small q)
      by (rewrite Qabs_pos by exact Hq0; lra).
    cbn [bind]. unfold fmul.
    assert (E : (q * ofInt d == q * D)%Q).
    { assert (Hi : isBinary32 (inject_Z d)) by (apply isBinary32_int; lia).
      unfold isBinary32 in Hi. unfold ofInt. rewrite Hi. reflexivity. }
    rewrite (round32_comp _ _ E). fold v.
    apply finite32_small. rewrite Qabs_pos by exact Hv0. lra.
  - apply round32_is_binary32.
  - exact Hv0.
  - exact Hv1.
  - pose proof (round32_error X) as E1. fold q in E1.
    pose proof (round32_error (q * D)) as E2. fold v in E2.
    rewrite (Qabs_pos X) in E1 by exact HX0.
    rewrite (Qabs_pos (q * D)) in E2 by exact HqD0.
    apply Qabs_Qle_condition in E1. apply Qabs_Qle_condition in E2.
    destruct E1 as [E1a E1b]. destruct E2 as [E2a E2b].
    destruct pow2_m150 as [Heta0 _].
    assert (P130 : (pow2 (-130) == 1048576 * pow2 (-150))%Q).
    { change (-130) with (20 + -150). rewrite pow2_add.
      change (pow2 20) with 1048576%Q. reflexivity. }
    set (eta := pow2 (-150)) in *.
    assert (M1 : ((q - X) * D <= (X * (1 # 16777216) + eta) * D)%Q)
      by (apply Qmult_le_compat_r; [exact E1b | exact HD0]).
    assert (M2 : ((- (X * (1 # 16777216) + eta)) * D <= (q - X) * D)%Q)
      by (apply Qmult_le_compat_r; [exact E1a | exact HD0]).
    assert (M3 : (D * eta <= 65535 * eta)%Q)
      by (apply Qmult_le_compat_r; [exact HD1 | lra]).
    rewrite P130. clearbody eta X q v D.
    apply Qabs_Qle_condition. split; lra.
Qed.

Lemma angleToMicrosteps_spec (angle : Q) (m : StepperMotor) :
  (0 <= angle)%Q -> (angle <= 360)%Q ->
  (1 # 2 <= fullStepAngle m)%Q -> 0 <= microstepDivisor m <= 65535 ->
  exists v : Q,
    microstepAngle angle m = Some v
    /\ (Qabs (v - angle / fullStepAngle m * inject_Z (microstepDivisor m))
        <= angle / fullStepAngle m * inject_Z (microstepDivisor m)
           * (1 # 4194304) + pow2 (-130))%Q
    /\ angleToMicrosteps angle m = Some (to_u16 (Qfloor (v + (1 # 2)))).
Proof.
  intros H0 H360 Hfsa Hd.
  destruct (microstepAngle_spec angle m H0 H360 Hfsa Hd)
    as (v & Hv & Hb & Hv0 & Hv1 & Herr).
  exists v. split; [exact Hv|]. split; [exact Herr|].
  unfold angleToMicrosteps. rewrite Hv. cbn [bind].
  rewrite (roundMacro_binary32 v Hb Hv0) by lra.
  reflexivity.
Qed.





End Binary32Drive.

Section AngleDrive32.

Context {board : Board}.



End AngleDrive32.



(** Beyond 2^26 degrees the correction itself rounds.  10^9 degrees, which
    is 280 degrees past a whole turn, is driven as 296; at 10^30 the
    conversion to [long] inside [round] is undefined, whatever the loop is
    given. *)
Lemma normalizeAngle_beyond_range :
  Binary32.isBinary32 1000000000
  /\ (exists x : Q,
        Binary32.normalizeAngle 1 1000000000 = Some x /\ (x == 296)%Q)
  /\ (1000000000 == 280 + inject_Z 2777777 * 360)%Q
  /\ (forall fuel : nat,
        Binary32.normalizeAngle fuel
          (Binary32.round32 1000000000000000000000000000000) = None).
Proof.
  split; [vm_compute; reflexivity|]. split.
  - exists (match Binary32.normalizeAngle 1 1000000000 with
            | Some x => x | None => 0%Q end).
    vm_compute. split; reflexivity.
  - split; [reflexivity|]. intros fuel. unfold Binary32.normalizeAngle.
    assert (E : Binary32.roundCorrection
                  (Binary32.round32 1000000000000000000000000000000) = None)
      by (vm_compute; reflexivity).
    rewrite E. reflexivity.
Qed.

(** The rounding of the stored step angle shows in the microstep count:
    [0.05625f / 1.8f * 16] is a half in binary32 and is rounded up to 1,
    while over the rationals [0.05625f] lies below half a microstep of
    [1.8 / 16] and gives 0. *)
Lemma angleToMicrosteps_at_half_a_microstep :
  Binary32.angleToMicrosteps (Binary32.round32 (5625 # 100000)) refMotor32
  = Some 1
  /\ angleToMicrosteps (Binary32.round32 (5625 # 100000)) refMotor = 0.
Proof. split; vm_compute; reflexivity. Qed.

(** ** PID wrapper *)

Section PidProps.

Context {lib : PIDLibrary}.

(** C2 (as the code behaves).  [compute] samples its input as the measured
    absolute angle minus the desired angle, runs the controller on it and
    returns the controller's output. *)
Theorem compute_samples_angle_error (env : Inputs) (motor : StepperMotor)
  (p : StepperPID) :
  input (fst (compute env motor p))
  = (getAbsoluteAngle env - desiredAngle motor)%Q
  /\ snd (compute env motor p)
     = snd (Compute (pid p) (getAbsoluteAngle env - desiredAngle motor)%Q
              (setpoint p) (output p))
  /\ snd (compute env motor p) = output (fst (compute env motor p)).
Proof. repeat split. Qed.

End PidProps.

(** C2, counterexample: with the shaft measured at 3 and 10 desired, the
    sampled input is -7, not desired - measured = 7. *)
Lemma compute_input_is_not_desired_minus_measured :
  (input (fst (compute offTargetInputs offTargetMotor refStepperPID)) == -7)%Q
  /\ ~ (input (fst (compute offTargetInputs offTargetMotor refStepperPID))
        == desiredAngle offTargetMotor - getAbsoluteAngle offTargetInputs)%Q.
Proof. simpl. split; [reflexivity | intros H; discriminate H]. Qed.

(** ** The state machine as a whole *)

Section StateMachine.

Context {board : Board}.

Lemma sameSettings_sameConfiguration (m m' : StepperMotor) :
  sameSettings m m' -> sameConfiguration m m'.
Proof. unfold sameSettings, sameConfiguration. tauto. Qed.

Lemma sameConfiguration_trans (m1 m2 m3 : StepperMotor) :
  sameConfiguration m1 m2 -> sameConfiguration m2 m3 ->
  sameConfiguration m1 m3.
Proof.
  unfold sameConfiguration. intros H1 H2.
  repeat match goal with H : _ /\ _ |- _ => destruct H end.
  repeat split; congruence.
Qed.

Lemma with_state_configuration (st : MOTOR_STATE) (m : StepperMotor) :
  sameConfiguration m (with_state st m).
Proof. unfold sameConfiguration. repeat split. Qed.

Lemma relock_configuration (env : Inputs) (m : StepperMotor) :
  sameConfiguration m (relock env m).
Proof.
  unfold relock.
  pose proof (driveCoilsAngle_settings
                (getAngle env - startupAngleOffset)%Q m) as H.
  unfold sameSettings in H. unfold sameConfiguration.
  cbn [with_position rmsCurrent peakCurrent microstepDivisor fullStepAngle
       microstepAngle reversed enableInverted microstepMultiplier currentStep
       desiredAngle].
  tauto.
Qed.

Lemma idleAndCommit_configuration (newState : MOTOR_STATE)
  (m : StepperMotor) :
  sameConfiguration m (idleAndCommit newState m).
Proof.
  unfold idleAndCommit.
  eapply sameConfiguration_trans; [|apply with_state_configuration].
  apply sameSettings_sameConfiguration.
  eapply sameSettings_trans; [apply setCoilA_cache | apply setCoilB_cache].
Qed.

Lemma idleAndCommit_deenergizes (newState : MOTOR_STATE) (m : StepperMotor) :
  0 <= PWM_MAX_DUTY_CYCLE ->
  state (idleAndCommit newState m) = newState
  /\ coilsDeenergized (idleAndCommit newState m).
Proof.
  intros Hmax.
  destruct (idleAndCommit_spec newState m Hmax) as (H1 & H2 & H3 & H4 & H5 & _).
  unfold coilsDeenergized. tauto.
Qed.

(** Every transition that takes effect, that is, a request for a state other
    than the current one made either with [clearErrors] or from [ENABLED] /
    [DISABLED], commits the requested state and ends with both coils in
    [IDLE_MODE] at zero duty.  This includes the transitions to [ENABLED] and
    [FORCED_ENABLED]. *)
Theorem setState_transition_deenergizes (env : Inputs)
  (newState : MOTOR_STATE) (clearErrors : bool) (m : StepperMotor)
  (Hmax : 0 <= PWM_MAX_DUTY_CYCLE)
  (Hnew : state m <> newState)
  (Hallowed : clearErrors = true \/ state m = ENABLED \/ state m = DISABLED) :
  state (setState env newState clearErrors m) = newState
  /\ coilsDeenergized (setState env newState clearErrors m).
Proof.
  unfold setState.
  assert (E : MOTOR_STATE_eqb (state m) newState = false).
  { destruct (MOTOR_STATE_eqb (state m) newState) eqn:E; [|reflexivity].
    apply MOTOR_STATE_eqb_eq in E. contradiction. }
  rewrite E. cbn [negb].
  destruct clearErrors.
  - destruct newState; apply idleAndCommit_deenergizes; assumption.
  - destruct Hallowed as [H | [H | H]]; [discriminate H | |];
      rewrite H; cbn [MOTOR_STATE_eqb orb];
      destruct newState; apply idleAndCommit_deenergizes; assumption.
Qed.

(** [setState] is idempotent: repeating a request changes nothing more. *)
Theorem setState_idempotent (env : Inputs) (newState : MOTOR_STATE)
  (clearErrors : bool) (m : StepperMotor) :
  setState env newState clearErrors (setState env newState clearErrors m)
  = setState env newState clearErrors m.
Proof.
  assert (Hcases : setState env newState clearErrors m = m
                   \/ state (setState env newState clearErrors m) = newState).
  { unfold setState.
    destruct (MOTOR_STATE_eqb (state m) newState); cbn [negb]; [left; reflexivity|].
    destruct clearErrors.
    - right. destruct newState; reflexivity.
    - destruct (MOTOR_STATE_eqb (state m) ENABLED
                || MOTOR_STATE_eqb (state m) DISABLED);
        [right; destruct newState; reflexivity | left; reflexivity]. }
  destruct Hcases as [H | H].
  - rewrite H. exact H.
  - unfold setState at 1. rewrite H.
    assert (E : MOTOR_STATE_eqb newState newState = true)
      by (apply MOTOR_STATE_eqb_eq; reflexivity).
    rewrite E. reflexivity.
Qed.

(** [setState] never alters the configuration, the step count or the desired
    angle; in particular the desired angle is not brought in line with the
    corrected current angle when the motor is enabled.  Hardware writes are
    only ever added. *)
Theorem setState_keeps_configuration (env : Inputs) (newState : MOTOR_STATE)
  (clearErrors : bool) (m : StepperMotor) :
  sameConfiguration m (setState env newState clearErrors m)
  /\ exists post, hw (setState env newState clearErrors m) = post ++ hw m.
Proof.
  assert (Hidle : forall n x,
             sameConfiguration m x -> (exists p, hw x = p ++ hw m) ->
             sameConfiguration m (idleAndCommit n x)
             /\ exists post, hw (idleAndCommit n x) = post ++ hw m).
  { intros n x Hc [p Hp]. split.
    - eapply sameConfiguration_trans;
        [exact Hc | apply idleAndCommit_configuration].
    - assert (Hmax' : exists q, hw (idleAndCommit n x) = q ++ hw x).
      { unfold idleAndCommit. cbn [with_state hw].
        rewrite hw_setCoilB, hw_setCoilA.
        eexists. rewrite !app_comm_cons, app_assoc. reflexivity. }
      destruct Hmax' as [q Hq]. exists (q ++ p).
      rewrite Hq, Hp, app_assoc. reflexivity. }
  assert (Hrelock : forall st x,
             sameConfiguration m x -> (exists p, hw x = p ++ hw m) ->
             sameConfiguration m (with_state st (relock env x))
             /\ exists p, hw (with_state st (relock env x)) = p ++ hw m).
  { intros st x Hc [p Hp]. split.
    - eapply sameConfiguration_trans; [exact Hc|].
      eapply sameConfiguration_trans;
        [apply relock_configuration | apply with_state_configuration].
    - cbn [with_state hw]. destruct (relock_spec env x) as [_ ->].
      destruct (driveCoils_hw
                  (angleToMicrosteps (getAngle env - startupAngleOffset)%Q x) x)
        as [q Hq].
      exists (q ++ p). unfold driveCoilsAngle. rewrite Hq, Hp, app_assoc.
      reflexivity. }
  assert (Hm : sameConfiguration m m /\ exists p, hw m = p ++ hw m).
  { split; [unfold sameConfiguration; repeat split | exists []; reflexivity]. }
  destruct Hm as [Hm1 Hm2].
  unfold setState.
  destruct (MOTOR_STATE_eqb (state m) newState); cbn [negb];
    [split; assumption|].
  destruct clearErrors.
  - destruct newState; try (apply Hidle; assumption).
    + destruct (Hrelock ENABLED m Hm1 Hm2) as [H1 H2].
      destruct (Hrelock FORCED_ENABLED _ H1 H2) as [H3 H4].
      apply Hidle; assumption.
    + destruct (Hrelock FORCED_ENABLED m Hm1 Hm2) as [H1 H2].
      apply Hidle; assumption.
  - destruct (MOTOR_STATE_eqb (state m) ENABLED
              || MOTOR_STATE_eqb (state m) DISABLED); [|split; assumption].
    destruct newState; try (apply Hidle; assumption).
    destruct (Hrelock ENABLED m Hm1 Hm2) as [H1 H2].
    apply Hidle; assumption.
Qed.

End StateMachine.

Lemma setState_transition_deenergizes_witness :
  state (setState (board := refBoard) refInputs FORCED_ENABLED true refMotor)
  = FORCED_ENABLED
  /\ coilsDeenergized (board := refBoard)
       (setState (board := refBoard) refInputs FORCED_ENABLED true refMotor).
Proof.
  apply (setState_transition_deenergizes (board := refBoard)).
  - simpl. lia.
  - simpl. discriminate.
  - left. reflexivity.
Defined.

(** ** Periodicity and magnitude of the coil drive *)

Section DrivePeriod.

Context {board : Board}.

(** The coil commands depend on the step count only through the table
    index. *)
Lemma driveCoils_by_index (s s' : Z) (m : StepperMotor) :
  sineIndex s m = sineIndex s' m -> driveCoils s m = driveCoils s' m.
Proof.
  intros H. unfold driveCoils, coilCommandA, coilCommandB. rewrite H.
  reflexivity.
Qed.

(** For step counts that are not negative, [driveCoils] has period
    [4 * microstepDivisor], whatever the size of the sine table. *)
Theorem driveCoils_periodic_nonnegative (s k : Z) (m : StepperMotor)
  (Hd : 0 < microstepDivisor m)
  (Hs : 0 <= s < 2147483648)
  (Hsk : 0 <= s + 4 * microstepDivisor m * k < 2147483648) :
  driveCoils (s + 4 * microstepDivisor m * k) m = driveCoils s m.
Proof.
  apply driveCoils_by_index. unfold sineIndex.
  rewrite !to_i32_small by lia.
  rewrite !Z.rem_mod_nonneg by lia.
  rewrite (Z.mul_comm (4 * microstepDivisor m) k), Z.mod_add by lia.
  reflexivity.
Qed.

Lemma land_mask_mod (x : Z) (n : Z) :
  0 <= n -> Z.land x (2 ^ n - 1) = x mod 2 ^ n.
Proof.
  intros Hn. rewrite <- Z.land_ones by exact Hn.
  rewrite Z.ones_equiv. reflexivity.
Qed.

Lemma rem_mod_divisor (x p n : Z) :
  0 < n -> (n | p) -> (Z.rem x p) mod n = x mod n.
Proof.
  intros Hn [j Hj]. subst p.
  rewrite <- (Z.mod_add (Z.rem x (j * n)) (j * (x ÷ (j * n))) n) by lia.
  f_equal. pose proof (Z.quot_rem' x (j * n)) as H.
  rewrite H at 3. ring.
Qed.

(** When the table size is a power of two that divides the cycle length
    [4 * microstepDivisor], the period holds for negative step counts too. *)
Theorem driveCoils_periodic_when_table_divides_cycle (s k n : Z)
  (m : StepperMotor)
  (Hn : 0 <= n) (Hsize : SINE_VAL_COUNT = 2 ^ n)
  (Hdiv : (SINE_VAL_COUNT | 4 * microstepDivisor m))
  (Hs : -2147483648 <= s < 2147483648)
  (Hsk : -2147483648 <= s + 4 * microstepDivisor m * k < 2147483648) :
  driveCoils (s + 4 * microstepDivisor m * k) m = driveCoils s m.
Proof.
  apply driveCoils_by_index. unfold sineIndex.
  rewrite !to_i32_small by lia.
  rewrite Hsize in *. rewrite !land_mask_mod by exact Hn.
  assert (Hpos : 0 < 2 ^ n) by (apply Z.pow_pos_nonneg; lia).
  rewrite !rem_mod_divisor by assumption.
  destruct Hdiv as [j Hj]. rewrite Hj.
  replace (s + j * 2 ^ n * k) with (s + (j * k) * 2 ^ n) by ring.
  rewrite Z.mod_add by lia. reflexivity.
Qed.

Lemma quot_scale_bound (a b c : Z) :
  0 <= a -> 0 < c -> - c <= b <= c -> - a <= Z.quot (a * b) c <= a.
Proof.
  intros Ha Hc Hb.
  destruct (Z_lt_le_dec b 0) as [Hneg | Hpos].
  - replace (a * b) with (- (a * - b)) by ring.
    rewrite Z.quot_opp_l by lia.
    assert (0 <= Z.quot (a * - b) c <= a).
    { split; [apply Z.quot_pos; nia|].
      apply Z.quot_le_upper_bound; nia. }
    lia.
  - split.
    + assert (0 <= Z.quot (a * b) c) by (apply Z.quot_pos; nia). lia.
    + apply Z.quot_le_upper_bound; nia.
Qed.

Lemma coilCommand_magnitude (power bound : Z) :
  - bound <= power <= bound -> 0 <= snd (coilCommand power) <= bound.
Proof.
  intros H. unfold coilCommand.
  destruct (power >? 0) eqn:E1.
  - rewrite Z.gtb_ltb in E1. apply Z.ltb_lt in E1. simpl. lia.
  - destruct (power <? 0) eqn:E2.
    + apply Z.ltb_lt in E2. simpl. lia.
    + simpl. lia.
Qed.

(** With a sine table bounded by [SINE_MAX] and a peak current that fits the
    [int16_t] cast, neither coil is ever asked for more than the peak
    current. *)
Theorem driveCoils_never_exceeds_peak (steps : Z) (m : StepperMotor)
  (Hmax : 0 < SINE_MAX <= 32767)
  (Hsin : forall i, - SINE_MAX <= fastSin i <= SINE_MAX)
  (Hcos : forall i, - SINE_MAX <= fastCos i <= SINE_MAX)
  (Hpeak : 0 <= peakCurrent m <= 32767) :
  0 <= snd (coilCommandA steps m) <= peakCurrent m
  /\ 0 <= snd (coilCommandB steps m) <= peakCurrent m.
Proof.
  assert (Hpow : forall v, - SINE_MAX <= v <= SINE_MAX ->
                 - peakCurrent m <= coilPower v m <= peakCurrent m).
  { intros v Hv. unfold coilPower.
    rewrite (to_i16_small (peakCurrent m)) by lia.
    rewrite (to_i16_small v) by lia.
    assert (Hq : - peakCurrent m
                 <= Z.quot (peakCurrent m * v) SINE_MAX <= peakCurrent m)
      by (apply quot_scale_bound; lia).
    rewrite to_i16_small by lia. exact Hq. }
  unfold coilCommandA, coilCommandB.
  split; apply coilCommand_magnitude, Hpow; [apply Hsin | apply Hcos].
Qed.

End DrivePeriod.

Lemma driveCoils_periodic_nonnegative_witness :
  driveCoils (board := refBoard) (5 + 4 * 16 * 3) refMotor
  = driveCoils (board := refBoard) 5 refMotor.
Proof.
  apply (driveCoils_periodic_nonnegative (board := refBoard) 5 3 refMotor);
    simpl; lia.
Defined.

Lemma driveCoils_periodic_when_table_divides_cycle_witness :
  driveCoils (board := refBoard) (-1 + 4 * 32 * 1)
    (with_stepping 32 (18 # 10) (5625 # 100000) refMotor)
  = driveCoils (board := refBoard) (-1)
      (with_stepping 32 (18 # 10) (5625 # 100000) refMotor).
Proof.
  apply (driveCoils_periodic_when_table_divides_cycle (board := refBoard)
           (-1) 1 7 (with_stepping 32 (18 # 10) (5625 # 100000) refMotor)).
  - lia.
  - reflexivity.
  - exists 1. reflexivity.
  - lia.
  - simpl. lia.
Defined.

Lemma refSin_bounded (i : Z) : -10000 <= refSin i <= 10000.
Proof.
  unfold refSin.
  assert (H : Forall (fun v => -10000 <= v <= 10000) sineTable).
  { unfold sineTable. repeat (constructor; [lia|]). constructor. }
  rewrite Forall_forall in H.
  destruct (nth_in_or_default (Z.to_nat (i mod 128)) sineTable 0) as [Hin | ->].
  - apply H, Hin.
  - lia.
Qed.

Lemma driveCoils_never_exceeds_peak_witness :
  0 <= snd (coilCommandA (board := refBoard) 21 refMotor) <= 1000
  /\ 0 <= snd (coilCommandB (board := refBoard) 21 refMotor) <= 1000.
Proof.
  apply (driveCoils_never_exceeds_peak (board := refBoard) 21 refMotor).
  - simpl. lia.
  - intros i. apply refSin_bounded.
  - intros i. apply refSin_bounded.
  - simpl. lia.
Defined.

(** ** The period of the coil drive *)

Section DriveContract.

Context {board : Board}.


(** It has that period on any table for counts that are not negative. *)
Lemma sineIndex_period_nonnegative (s k : Z) (m : StepperMotor) :
  0 < microstepDivisor m ->
  0 <= s < 2147483648 ->
  0 <= s + 4 * microstepDivisor m * k < 2147483648 ->
  sineIndex (s + 4 * microstepDivisor m * k) m = sineIndex s m.
Proof.
  intros Hd Hs Hsk. unfold sineIndex.
  rewrite (to_i32_small s), (to_i32_small (s + 4 * microstepDivisor m * k))
    by lia.
  rewrite !Z.rem_mod_nonneg by lia.
  rewrite (Z.mul_comm (4 * microstepDivisor m) k), Z.mod_add by lia.
  reflexivity.
Qed.


End DriveContract.


(** ** Whole turns in binary32 *)

Lemma angleToMicrosteps_ext (x : Q) (m1 m2 : StepperMotor) :
  (fullStepAngle m1 == fullStepAngle m2)%Q ->
  microstepDivisor m1 = microstepDivisor m2 ->
  Binary32.angleToMicrosteps x m1 = Binary32.angleToMicrosteps x m2.
Proof.
  intros Hf Hd.
  unfold Binary32.angleToMicrosteps, Binary32.microstepAngle, Binary32.fdiv.
  rewrite Hd.
  rewrite (round32_comp (x / fullStepAngle m1) (x / fullStepAngle m2))
    by (rewrite Hf; reflexivity).
  destruct (Qeq_bool (fullStepAngle m1) 0) eqn:E1;
    destruct (Qeq_bool (fullStepAngle m2) 0) eqn:E2; try reflexivity.
  - apply Qeq_bool_iff in E1. apply Qeq_bool_neq in E2.
    exfalso. apply E2. rewrite <- Hf. exact E1.
  - apply Qeq_bool_iff in E2. apply Qeq_bool_neq in E1.
    exfalso. apply E1. rewrite Hf. exact E2.
Qed.

(** With the step angles and divisors the firmware uses, a whole turn is a
    whole number of electrical cycles, also after rounding. *)
Lemma turn_microsteps (m : StepperMotor) :
  (fullStepAngle m == float_1_8)%Q \/ (fullStepAngle m == float_0_9)%Q ->
  In (microstepDivisor m) [1; 2; 4; 8; 16; 32] ->
  exists c : Z,
    0 <= c <= 100
    /\ Binary32.angleToMicrosteps 0 m = Some 0
    /\ Binary32.angleToMicrosteps 360 m
       = Some (0 + 4 * microstepDivisor m * c).
Proof.
  intros Hf Hd.
  assert (K : forall (f : Q) (d c : Z),
            (fullStepAngle m == f)%Q -> microstepDivisor m = d ->
            Binary32.angleToMicrosteps 0 (with_stepping d f 0 refMotor)
            = Some 0 ->
            Binary32.angleToMicrosteps 360 (with_stepping d f 0 refMotor)
            = Some (0 + 4 * d * c) ->
            Binary32.angleToMicrosteps 0 m = Some 0
            /\ Binary32.angleToMicrosteps 360 m
               = Some (0 + 4 * microstepDivisor m * c)).
  { intros f d c Ef Ed H0 H360.
    rewrite (angleToMicrosteps_ext 0 m (with_stepping d f 0 refMotor))
      by (simpl; assumption).
    rewrite (angleToMicrosteps_ext 360 m (with_stepping d f 0 refMotor))
      by (simpl; assumption).
    rewrite Ed. split; assumption. }
  simpl in Hd.
  destruct Hf as [Hf | Hf].
  - exists 50. split; [lia|].
    destruct Hd as [Hd | [Hd | [Hd | [Hd | [Hd | [Hd | []]]]]]];
      symmetry in Hd;
      apply (K float_1_8 _ 50 Hf Hd); vm_compute; reflexivity.
  - exists 100. split; [lia|].
    destruct Hd as [Hd | [Hd | [Hd | [Hd | [Hd | [Hd | []]]]]]];
      symmetry in Hd;
      apply (K float_0_9 _ 100 Hf Hd); vm_compute; reflexivity.
Qed.

Section WholeTurns.

Context {board : Board}.

Lemma driveCoilsAngle_of_angle (fuel : nat) (a x : Q) (s : Z)
  (m : StepperMotor) :
  Binary32.normalizeAngle fuel a = Some x ->
  Binary32.angleToMicrosteps x m = Some s ->
  Binary32.driveCoilsAngle fuel a m = Some (driveCoils s m).
Proof.
  intros Hn Hs. unfold Binary32.driveCoilsAngle. rewrite Hn.
  cbn [Binary32.bind]. rewrite Hs. reflexivity.
Qed.

(** An angle of 0 and an angle of 360 are driven alike. *)
Lemma driveCoilsAngle_ends_agree (fuel : nat) (a b x y : Q)
  (m : StepperMotor) :
  (fullStepAngle m == float_1_8)%Q \/ (fullStepAngle m == float_0_9)%Q ->
  In (microstepDivisor m) [1; 2; 4; 8; 16; 32] ->
  Binary32.normalizeAngle fuel a = Some x ->
  Binary32.normalizeAngle fuel b = Some y ->
  (x == 0)%Q -> (y == 360)%Q ->
  Binary32.driveCoilsAngle fuel a m = Some (driveCoils 0 m)
  /\ Binary32.driveCoilsAngle fuel b m = Some (driveCoils 0 m).
Proof.
  intros Hf Hd Ha Hb Ex Ey.
  destruct (turn_microsteps m Hf Hd) as (c & Hc & H0 & H360).
  assert (Hpos : 0 < microstepDivisor m <= 32)
    by (simpl in Hd; lia).
  split.
  - apply (driveCoilsAngle_of_angle fuel a x 0 m Ha).
    rewrite (angleToMicrosteps_comp x 0 m Ex). exact H0.
  - rewrite <- (driveCoils_by_index (0 + 4 * microstepDivisor m * c) 0 m).
    + apply (driveCoilsAngle_of_angle fuel b y _ m Hb).
      rewrite (angleToMicrosteps_comp y 360 m Ey). exact H360.
    + apply sineIndex_period_nonnegative; nia.
Qed.

(** Whole turns in binary32.  Two non-negative [float] arguments of at most
    2^26 degrees that differ by whole turns are driven alike, for the step
    angles [(float)1.8] and [(float)0.9] and the divisors 1 to 32. *)
Theorem driveCoilsAngle_whole_turns (fuel : nat) (a b : Q) (k : Z)
  (m : StepperMotor)
  (Hfuel : (1 <= fuel)%nat)
  (Ha : Binary32.isBinary32 a) (Hb : Binary32.isBinary32 b)
  (Ha0 : (0 <= a)%Q) (Ha1 : (a <= 67108864)%Q)
  (Hb0 : (0 <= b)%Q) (Hb1 : (b <= 67108864)%Q)
  (Hturns : (b == a + inject_Z k * 360)%Q)
  (Hf : (fullStepAngle m == float_1_8)%Q \/ (fullStepAngle m == float_0_9)%Q)
  (Hd : In (microstepDivisor m) [1; 2; 4; 8; 16; 32]) :
  exists m' : StepperMotor,
    Binary32.driveCoilsAngle fuel a m = Some m'
    /\ Binary32.driveCoilsAngle fuel b m = Some m'.
Proof.
  assert (Hfsa : (1 # 2 <= fullStepAngle m)%Q)
    by (destruct Hf as [E | E]; rewrite E; discriminate).
  assert (Hdr : 0 <= microstepDivisor m <= 65535) by (simpl in Hd; lia).
  destruct (normalizeAngle_spec fuel a Hfuel Ha)
    as (x & Hx & Hx0 & Hx1 & _ & _ & Hxk);
    [apply Qabs_Qle_condition; split; lra|].
  destruct (normalizeAngle_spec fuel b Hfuel Hb)
    as (y & Hy & Hy0 & Hy1 & _ & _ & Hyk);
    [apply Qabs_Qle_condition; split; lra|].
  destruct (Hxk Ha0) as [ka Eka]. destruct (Hyk Hb0) as [kb Ekb].
  set (i := kb + k - ka).
  assert (Ei : (y - x == inject_Z i * 360)%Q).
  { unfold i. rewrite Eka, Ekb, Hturns.
    unfold Z.sub. rewrite !inject_Z_plus, inject_Z_opp. ring. }
  assert (Hi : -1 <= i <= 1).
  { assert (A : (inject_Z (-1) <= inject_Z i)%Q)
      by (change (inject_Z (-1)) with (-1)%Q; lra).
    assert (B : (inject_Z i <= inject_Z 1)%Q)
      by (change (inject_Z 1) with 1%Q; lra).
    rewrite <- Zle_Qle in A, B. lia. }
  assert (Cases : i = 0 \/ i = 1 \/ i = -1) by lia.
  destruct Cases as [E | [E | E]]; rewrite E in Ei.
  - destruct (angleToMicrosteps_spec x m Hx0 Hx1 Hfsa Hdr)
      as (v & _ & _ & Hs).
    exists (driveCoils (to_u16 (Qfloor (v + (1 # 2)))) m).
    assert (Exy : (y == x)%Q)
      by (change (inject_Z 0) with 0%Q in Ei; lra).
    split.
    + apply (driveCoilsAngle_of_angle fuel a x _ m Hx Hs).
    + apply (driveCoilsAngle_of_angle fuel b y _ m Hy).
      rewrite (angleToMicrosteps_comp y x m Exy). exact Hs.
  - change (inject_Z 1) with 1%Q in Ei.
    exists (driveCoils 0 m).
    apply (driveCoilsAngle_ends_agree fuel a b x y m Hf Hd Hx Hy); lra.
  - change (inject_Z (-1)) with (-1)%Q in Ei.
    exists (driveCoils 0 m).
    destruct (driveCoilsAngle_ends_agree fuel b a y x m Hf Hd Hy Hx)
      as [H1 H2]; [lra | lra |].
    split; assumption.
Qed.

End WholeTurns.

Lemma driveCoilsAngle_whole_turns_witness :
  exists m' : StepperMotor,
    Binary32.driveCoilsAngle (board := refBoard) 1 0 refMotor32 = Some m'
    /\ Binary32.driveCoilsAngle (board := refBoard) 1 360 refMotor32
       = Some m'.
Proof.
  apply (driveCoilsAngle_whole_turns (board := refBoard) 1 0 360 1
           refMotor32).
  - apply le_n.
  - vm_compute. reflexivity.
  - vm_compute. reflexivity.
  - discriminate.
  - discriminate.
  - discriminate.
  - discriminate.
  - reflexivity.
  - left. reflexivity.
  - simpl. tauto.
Defined.

(** ** Invariants of the configuration *)

Section Invariants.

Context {board : Board}.

Lemma step_settings (env : Inputs) (dir : STEP_DIR) (u a : bool)
  (m : StepperMotor) :
  rmsCurrent (step env dir u a m) = rmsCurrent m
  /\ peakCurrent (step env dir u a m) = peakCurrent m
  /\ microstepDivisor (step env dir u a m) = microstepDivisor m
  /\ fullStepAngle (step env dir u a m) = fullStepAngle m
  /\ microstepAngle (step env dir u a m) = microstepAngle m
  /\ state (step env dir u a m) = state m.
Proof.
  unfold step.
  match goal with
  | |- context [driveCoils ?s ?x] =>
      pose proof (driveCoils_settings s x) as H
  end.
  unfold sameSettings in H.
  cbn [with_position rmsCurrent peakCurrent microstepDivisor fullStepAngle
       microstepAngle state] in H.
  tauto.
Qed.

Lemma simpleStep_settings (env : Inputs) (m : StepperMotor) :
  rmsCurrent (simpleStep env m) = rmsCurrent m
  /\ peakCurrent (simpleStep env m) = peakCurrent m
  /\ microstepDivisor (simpleStep env m) = microstepDivisor m
  /\ fullStepAngle (simpleStep env m) = fullStepAngle m
  /\ microstepAngle (simpleStep env m) = microstepAngle m
  /\ currentAngle (simpleStep env m) = currentAngle m
  /\ desiredAngle (simpleStep env m) = desiredAngle m
  /\ state (simpleStep env m) = state m.
Proof.
  unfold simpleStep.
  match goal with
  | |- context [driveCoils ?s ?x] =>
      pose proof (driveCoils_settings s x) as H
  end.
  unfold sameSettings in H.
  cbn [with_position rmsCurrent peakCurrent microstepDivisor fullStepAngle
       microstepAngle state currentAngle desiredAngle] in H.
  tauto.
Qed.

(** What a call leaves of the five configuration fields the invariants
    speak about. *)
Lemma call_keeps_stepping (c : Call) (m : StepperMotor) :
  (forall arg, c <> CallSetMicrostepping arg) ->
  (forall a, c <> CallSetFullStepAngle a) ->
  microstepDivisor (call c m) = microstepDivisor m
  /\ fullStepAngle (call c m) = fullStepAngle m
  /\ microstepAngle (call c m) = microstepAngle m.
Proof.
  intros H1 H2. destruct c; cbn [call].
  - unfold setRMSCurrent. destruct (negb _); repeat split.
  - unfold setPeakCurrent. destruct (negb _); repeat split.
  - exfalso. apply (H1 arg). reflexivity.
  - exfalso. apply (H2 newStepAngle). reflexivity.
  - repeat split.
  - repeat split.
  - unfold setMicrostepMultiplier. destruct (negb _); repeat split.
  - pose proof (setState_keeps_configuration env newState clearErrors m)
      as [H _].
    unfold sameConfiguration in H. tauto.
  - pose proof (step_settings env dir useMultiplier updateDesiredAngle m).
    tauto.
  - pose proof (simpleStep_settings env m). tauto.
  - pose proof (driveCoils_settings steps m) as H.
    unfold sameSettings in H. tauto.
  - pose proof (driveCoilsAngle_settings degAngle m) as H.
    unfold sameSettings in H. tauto.
Qed.

Lemma call_keeps_currents (c : Call) (m : StepperMotor) :
  (forall arg, c <> CallSetRMSCurrent arg) ->
  (forall arg, c <> CallSetPeakCurrent arg) ->
  rmsCurrent (call c m) = rmsCurrent m
  /\ peakCurrent (call c m) = peakCurrent m.
Proof.
  intros H1 H2. destruct c; cbn [call].
  - exfalso. apply (H1 arg). reflexivity.
  - exfalso. apply (H2 arg). reflexivity.
  - unfold setMicrostepping. destruct (negb _); repeat split.
  - unfold setFullStepAngle.
    destruct (negb _); [destruct (_ || _)|]; repeat split.
  - repeat split.
  - repeat split.
  - unfold setMicrostepMultiplier. destruct (negb _); repeat split.
  - pose proof (setState_keeps_configuration env newState clearErrors m)
      as [H _].
    unfold sameConfiguration in H. tauto.
  - pose proof (step_settings env dir useMultiplier updateDesiredAngle m).
    tauto.
  - pose proof (simpleStep_settings env m). tauto.
  - pose proof (driveCoils_settings steps m) as H.
    unfold sameSettings in H. tauto.
  - pose proof (driveCoilsAngle_settings degAngle m) as H.
    unfold sameSettings in H. tauto.
Qed.

Lemma call_microstepAngleConsistent (c : Call) (m : StepperMotor) :
  microstepAngleConsistent m -> microstepAngleConsistent (call c m).
Proof.
  intros Hm.
  assert (Hother :
            microstepDivisor (call c m) = microstepDivisor m
            /\ fullStepAngle (call c m) = fullStepAngle m
            /\ microstepAngle (call c m) = microstepAngle m ->
            microstepAngleConsistent (call c m)).
  { intros (Hd & Hf & Ha). unfold microstepAngleConsistent.
    rewrite Hd, Hf, Ha. exact Hm. }
  destruct c;
    try (apply Hother; apply call_keeps_stepping; intros; discriminate).
  - cbn [call]. unfold setMicrostepping. rewrite to_u16_never_minus_one.
    unfold microstepAngleConsistent. simpl. reflexivity.
  - cbn [call]. unfold setFullStepAngle.
    destruct (negb _); [|exact Hm].
    destruct (_ || _); [|exact Hm].
    unfold microstepAngleConsistent. simpl. reflexivity.
Qed.

(** The microstep angle stays equal to [fullStepAngle / microstepDivisor]
    through every sequence of calls. *)
Theorem microstepAngle_stays_consistent (cs : list Call) :
  forall m : StepperMotor,
    microstepAngleConsistent m -> microstepAngleConsistent (calls cs m).
Proof.
  induction cs as [|c cs IH]; intros m Hm.
  - exact Hm.
  - cbn [calls]. apply IH, call_microstepAngleConsistent, Hm.
Qed.

Lemma to_u16_upper (z : Z) : 0 <= to_u16 z <= 65535.
Proof. pose proof (to_u16_range z). lia. Qed.

(** Either current setter puts both currents within the board's limits. *)
Lemma current_setters_within_board (arg : Z) (m : StepperMotor) :
  currentsWithinBoard (setRMSCurrent arg m)
  /\ currentsWithinBoard (setPeakCurrent arg m).
Proof.
  unfold setRMSCurrent, setPeakCurrent, currentsWithinBoard.
  rewrite to_u16_never_minus_one.
  cbn [negb with_currents rmsCurrent peakCurrent].
  pose proof (to_u16_upper MAX_RMS_BOARD_CURRENT).
  pose proof (to_u16_upper MAX_PEAK_BOARD_CURRENT).
  repeat split; apply constrain_range; lia.
Qed.

Lemma call_currentsWithinBoard (c : Call) (m : StepperMotor) :
  currentsWithinBoard m -> currentsWithinBoard (call c m).
Proof.
  intros Hm.
  assert (Hother :
            rmsCurrent (call c m) = rmsCurrent m
            /\ peakCurrent (call c m) = peakCurrent m ->
            currentsWithinBoard (call c m)).
  { intros (Hr & Hp). unfold currentsWithinBoard. rewrite Hr, Hp. exact Hm. }
  destruct c;
    try (apply Hother; apply call_keeps_currents; intros; discriminate).
  - apply current_setters_within_board.
  - apply current_setters_within_board.
Qed.

(** Once within the board's limits, the currents stay within them through
    every sequence of calls; a current setter anywhere in the sequence
    brings them within the limits whatever they were before. *)
Theorem currents_stay_within_board (cs : list Call) :
  forall m : StepperMotor,
    currentsWithinBoard m -> currentsWithinBoard (calls cs m).
Proof.
  induction cs as [|c cs IH]; intros m Hm.
  - exact Hm.
  - cbn [calls]. apply IH, call_currentsWithinBoard, Hm.
Qed.

(** The guard [!= -1] of the [uint16_t] setters never fires: the argument
    has already been converted to [uint16_t], so [-1] arrives as 65535.
    Every call overwrites the current, and the sentinel sets it to the
    board's maximum. *)
Theorem current_setters_never_skip (arg : Z) (m : StepperMotor) :
  getRMSCurrent (setRMSCurrent arg m)
  = constrain (to_u16 arg) 0 (to_u16 MAX_RMS_BOARD_CURRENT)
  /\ getPeakCurrent (setPeakCurrent arg m)
     = constrain (to_u16 arg) 0 (to_u16 MAX_PEAK_BOARD_CURRENT)
  /\ getRMSCurrent (setRMSCurrent (-1) m) = to_u16 MAX_RMS_BOARD_CURRENT
  /\ getPeakCurrent (setPeakCurrent (-1) m) = to_u16 MAX_PEAK_BOARD_CURRENT
  /\ getMicrostepping (setMicrostepping (-1) m) = 65535.
Proof.
  unfold setRMSCurrent, setPeakCurrent, setMicrostepping.
  rewrite !to_u16_never_minus_one.
  cbn [negb with_currents with_stepping getRMSCurrent getPeakCurrent
       getMicrostepping rmsCurrent peakCurrent microstepDivisor].
  pose proof (to_u16_upper MAX_RMS_BOARD_CURRENT).
  pose proof (to_u16_upper MAX_PEAK_BOARD_CURRENT).
  change (to_u16 (-1)) with 65535.
  split; [reflexivity|]. split; [reflexivity|].
  unfold constrain.
  split; [|split; [|reflexivity]].
  - destruct (65535 >? to_u16 MAX_RMS_BOARD_CURRENT) eqn:E; simpl;
      [reflexivity|]. rewrite Z.gtb_ltb in E. apply Z.ltb_ge in E. lia.
  - destruct (65535 >? to_u16 MAX_PEAK_BOARD_CURRENT) eqn:E; simpl;
      [reflexivity|]. rewrite Z.gtb_ltb in E. apply Z.ltb_ge in E. lia.
Qed.

End Invariants.

Lemma microstepAngle_stays_consistent_witness :
  microstepAngleConsistent
    (calls (board := refBoard)
       [CallSetMicrostepping 8; CallSetState refInputs ENABLED false;
        CallStep refInputs CLOCKWISE false true; CallSetFullStepAngle (9 # 10)]
       refMotor).
Proof.
  apply (microstepAngle_stays_consistent (board := refBoard)).
  reflexivity.
Defined.

Lemma currents_stay_within_board_witness :
  currentsWithinBoard (board := refBoard)
    (calls (board := refBoard)
       [CallSetRMSCurrent 3000; CallSetState refInputs ENABLED false;
        CallSimpleStep refInputs]
       refMotor).
Proof.
  apply (currents_stay_within_board (board := refBoard)).
  change (0 <= 707 <= 2474 /\ 0 <= 1000 <= 3500). lia.
Defined.

(** ** Stepping *)

Section Stepping.

Context {board : Board}.

(** After [driveCoils] the duty last written to each channel is the PWM value
    of the commanded magnitude, and the caches hold the commanded
    directions. *)
Theorem driveCoils_outputs (steps : Z) (m : StepperMotor) :
  pwm_of A (hw (driveCoils steps m))
  = Some (currentToPWM (snd (coilCommandA steps m)))
  /\ pwm_of B (hw (driveCoils steps m))
     = Some (currentToPWM (snd (coilCommandB steps m)))
  /\ previousCoilStateA (driveCoils steps m) = fst (coilCommandA steps m)
  /\ previousCoilStateB (driveCoils steps m) = fst (coilCommandB steps m).
Proof.
  unfold driveCoils.
  set (ca := coilCommandA steps m). set (cb := coilCommandB steps m).
  destruct (setCoilB_cache (fst cb) (snd cb) (setCoilA (fst ca) (snd ca) m))
    as (HB & HA & _).
  destruct (setCoilA_cache (fst ca) (snd ca) m) as (HA' & _ & _).
  rewrite hw_setCoilB, hw_setCoilA.
  split.
  { simpl. destruct (COIL_STATE_eqb (fst cb) _); simpl.
    - reflexivity.
    - rewrite pwm_of_A_skips_B. reflexivity. }
  split; [reflexivity|].
  split; [rewrite HA; exact HA' | exact HB].
Qed.


Lemma Qltb_pos_product (a : Q) (k : Z) :
  (0 < a)%Q -> 0 < k -> Qltb (a * inject_Z k) 0 = false.
Proof.
  intros Ha Hk. apply Qltb_ge.
  assert (Hk' : (0 < inject_Z k)%Q).
  { change 0%Q with (inject_Z 0). rewrite <- Zlt_Qlt. exact Hk. }
  apply Qlt_le_weak. apply Qmult_lt_0_compat; assumption.
Qed.



(** [simpleStep] moves the step count by direction times reversal times
    multiplier (wrapping as an [int32_t]) and drives the coils there, but,
    unlike [step], it leaves both tracked angles where they were. *)
Theorem simpleStep_moves_steps_only (env : Inputs) (m : StepperMotor) :
  currentStep (simpleStep env m)
  = to_i32 (currentStep m
            + DIRECTION_of_pin env * reversed m * microstepMultiplier m)
  /\ currentAngle (simpleStep env m) = currentAngle m
  /\ desiredAngle (simpleStep env m) = desiredAngle m
  /\ simpleStep env m
     = driveCoils (currentStep (simpleStep env m))
         (with_position (currentStep (simpleStep env m)) (currentAngle m)
            (desiredAngle m) m).
Proof.
  unfold simpleStep.
  match goal with
  | |- context [driveCoils ?s ?x] =>
      pose proof (driveCoils_settings s x) as H;
      set (r := driveCoils s x) in *
  end.
  unfold sameSettings in H.
  destruct H as (_ & _ & _ & _ & _ & _ & _ & _ & Hs & Hc & Hd & _).
  cbn [with_position currentStep currentAngle desiredAngle] in Hs, Hc, Hd.
  rewrite Hs, Hc, Hd. repeat split; reflexivity.
Qed.

End Stepping.


(** ** Step angle, PWM scale and the current round trip *)

Section Settings.

Context {board : Board}.



Lemma Qtrunc_monotone (p q : Q) :
  (0 <= p)%Q -> (p <= q)%Q -> Qtrunc p <= Qtrunc q.
Proof.
  intros Hp Hpq.
  rewrite !Qtrunc_floor; [apply Qfloor_resp_le; exact Hpq | | exact Hp].
  eapply Qle_trans; eassumption.
Qed.

Lemma Qtrunc_nonneg (p : Q) : (0 <= p)%Q -> 0 <= Qtrunc p.
Proof.
  intros Hp. rewrite Qtrunc_floor by exact Hp.
  change 0 with (Qfloor 0). apply Qfloor_resp_le. exact Hp.
Qed.

Lemma float_to_u32_monotone (p q : Q) :
  (0 <= p)%Q -> (p <= q)%Q -> float_to_u32 p <= float_to_u32 q.
Proof.
  intros Hp Hpq. pose proof (Qtrunc_monotone p q Hp Hpq) as Ht.
  pose proof (Qtrunc_nonneg p Hp) as H0.
  unfold float_to_u32.
  repeat match goal with
         | |- context [?a <? ?b] =>
             let E := fresh in destruct (Z.ltb_spec a b) as [E | E]
         | |- context [?a >? ?b] =>
             rewrite (Z.gtb_ltb a b)
         end; lia.
Qed.

Lemma constrain_monotone (a b low high : Z) :
  low <= high -> a <= b -> constrain a low high <= constrain b low high.
Proof.
  intros Hlh Hab. unfold constrain.
  repeat match goal with
         | |- context [?a <? ?b] =>
             let E := fresh in destruct (Z.ltb_spec a b) as [E | E]
         | |- context [?a >? ?b] =>
             rewrite (Z.gtb_ltb a b)
         end; lia.
Qed.

(** On a board with non-negative sense resistor, supply voltage and maximum
    duty (below 65536), a larger current never gets a smaller duty. *)
Theorem currentToPWM_monotone (c1 c2 : Z)
  (Hmax : 0 <= PWM_MAX_DUTY_CYCLE < 65536)
  (Hres : (0 <= CURRENT_SENSE_RESISTOR)%Q)
  (Hvolt : (0 <= BOARD_VOLTAGE)%Q)
  (Hc : 0 <= c1 <= c2) (Hc2 : c2 < 65536) :
  currentToPWM c1 <= currentToPWM c2.
Proof.
  unfold currentToPWM.
  rewrite (to_u16_small c1), (to_u16_small c2) by lia.
  rewrite !Z.abs_eq by lia.
  set (den := (/ (BOARD_VOLTAGE * 100))%Q).
  assert (Hden : (0 <= den)%Q).
  { unfold den. apply Qinv_le_0_compat.
    apply Qmult_le_0_compat; [exact Hvolt | discriminate]. }
  assert (Hk : (0 <= inject_Z PWM_MAX_DUTY_CYCLE * CURRENT_SENSE_RESISTOR)%Q).
  { apply Qmult_le_0_compat; [|exact Hres].
    change 0%Q with (inject_Z 0). rewrite <- Zle_Qle. lia. }
  assert (Hv : forall c, 0 <= c ->
            (0 <= inject_Z PWM_MAX_DUTY_CYCLE * CURRENT_SENSE_RESISTOR
                  * inject_Z c / (BOARD_VOLTAGE * 100))%Q).
  { intros c Hc0. unfold Qdiv. fold den.
    apply Qmult_le_0_compat; [|exact Hden].
    apply Qmult_le_0_compat; [exact Hk|].
    change 0%Q with (inject_Z 0). rewrite <- Zle_Qle. exact Hc0. }
  assert (Hle : (inject_Z PWM_MAX_DUTY_CYCLE * CURRENT_SENSE_RESISTOR
                 * inject_Z c1 / (BOARD_VOLTAGE * 100)
                 <= inject_Z PWM_MAX_DUTY_CYCLE * CURRENT_SENSE_RESISTOR
                    * inject_Z c2 / (BOARD_VOLTAGE * 100))%Q).
  { unfold Qdiv. fold den.
    apply Qmult_le_compat_r; [|exact Hden].
    rewrite !(Qmult_comm (inject_Z PWM_MAX_DUTY_CYCLE * CURRENT_SENSE_RESISTOR)).
    apply Qmult_le_compat_r; [|exact Hk].
    rewrite <- Zle_Qle. lia. }
  assert (Hc1 : 0 <= c1) by lia.
  assert (Hm0 : 0 <= PWM_MAX_DUTY_CYCLE) by lia.
  pose proof (float_to_u32_monotone _ _ (Hv c1 Hc1) Hle) as Hf.
  pose proof (constrain_monotone _ _ 0 PWM_MAX_DUTY_CYCLE Hm0 Hf) as Hcm.
  pose proof (constrain_range
                (float_to_u32
                   (inject_Z PWM_MAX_DUTY_CYCLE * CURRENT_SENSE_RESISTOR
                    * inject_Z c1 / (BOARD_VOLTAGE * 100)))
                0 PWM_MAX_DUTY_CYCLE Hm0).
  pose proof (constrain_range
                (float_to_u32
                   (inject_Z PWM_MAX_DUTY_CYCLE * CURRENT_SENSE_RESISTOR
                    * inject_Z c2 / (BOARD_VOLTAGE * 100)))
                0 PWM_MAX_DUTY_CYCLE Hm0).
  rewrite !to_u16_small by lia. exact Hcm.
Qed.

Lemma peak_after_setRMSCurrent (X : Z) (m : StepperMotor) :
  0 <= X <= 46347 ->
  getPeakCurrent (setRMSCurrent X m)
  = constrain (1414 * X / 1000) 0 (to_u16 MAX_PEAK_BOARD_CURRENT).
Proof.
  intros HX. unfold setRMSCurrent. rewrite to_u16_never_minus_one.
  cbn [negb getPeakCurrent with_currents peakCurrent].
  rewrite (to_u16_small X) by lia.
  rewrite rms_to_peak_product by lia.
  assert (0 <= 1414 * X / 1000 < 65536).
  { split; [apply Z.div_pos; lia | apply Z.div_lt_upper_bound; lia]. }
  rewrite (to_u16_small (1414 * X / 1000)) by lia. reflexivity.
Qed.

Lemma rms_after_setPeakCurrent (Y : Z) (m : StepperMotor) :
  0 <= Y <= 65535 ->
  getRMSCurrent (setPeakCurrent Y m)
  = constrain (707 * Y / 1000) 0 (to_u16 MAX_RMS_BOARD_CURRENT).
Proof.
  intros HY. unfold setPeakCurrent. rewrite to_u16_never_minus_one.
  cbn [negb getRMSCurrent with_currents rmsCurrent].
  rewrite (to_u16_small Y) by lia.
  rewrite peak_to_rms_product by lia.
  assert (0 <= 707 * Y / 1000 < 65536).
  { split; [apply Z.div_pos; lia | apply Z.div_lt_upper_bound; lia]. }
  rewrite (to_u16_small (707 * Y / 1000)) by lia. reflexivity.
Qed.

(** Setting the RMS current and writing the resulting peak current back
    through [setPeakCurrent] keeps the peak current and never raises the RMS
    current; when no clamp is hit it lowers the RMS current by less than
    [0.000302 * X + 1.707]. *)
Theorem current_round_trip_is_lossy (X : Z) (m : StepperMotor)
  (HX : 0 <= X <= 46347) :
  let m1 := setRMSCurrent X m in
  let m2 := setPeakCurrent (getPeakCurrent m1) m1 in
  getPeakCurrent m2 = getPeakCurrent m1
  /\ getRMSCurrent m2 <= getRMSCurrent m1
  /\ (X <= to_u16 MAX_RMS_BOARD_CURRENT ->
      1414 * X / 1000 <= to_u16 MAX_PEAK_BOARD_CURRENT ->
      707 * (1414 * X / 1000) / 1000 <= to_u16 MAX_RMS_BOARD_CURRENT ->
      getRMSCurrent m1 = X
      /\ 999698 * X - 1707000 < 1000000 * getRMSCurrent m2).
Proof.
  intros m1 m2.
  pose proof (to_u16_upper MAX_RMS_BOARD_CURRENT) as HR.
  pose proof (to_u16_upper MAX_PEAK_BOARD_CURRENT) as HP.
  assert (Hp1 : getPeakCurrent m1
                = constrain (1414 * X / 1000) 0 (to_u16 MAX_PEAK_BOARD_CURRENT)).
  { apply peak_after_setRMSCurrent. lia. }
  assert (Hr1 : getRMSCurrent m1
                = constrain X 0 (to_u16 MAX_RMS_BOARD_CURRENT)).
  { subst m1. unfold setRMSCurrent. rewrite to_u16_never_minus_one.
    rewrite (to_u16_small X) by lia. reflexivity. }
  assert (Hq : 0 <= 1414 * X / 1000 <= 65534).
  { split; [apply Z.div_pos; lia|].
    apply Z.lt_succ_r. apply Z.div_lt_upper_bound; lia. }
  assert (HP0 : 0 <= to_u16 MAX_PEAK_BOARD_CURRENT) by lia.
  pose proof (constrain_range (1414 * X / 1000) 0
                (to_u16 MAX_PEAK_BOARD_CURRENT) HP0) as Hpr.
  rewrite <- Hp1 in Hpr.
  assert (Hple : getPeakCurrent m1 <= 1414 * X / 1000).
  { rewrite Hp1. unfold constrain.
    destruct (Z.ltb_spec (1414 * X / 1000) 0); [lia|].
    rewrite Z.gtb_ltb.
    destruct (Z.ltb_spec (to_u16 MAX_PEAK_BOARD_CURRENT) (1414 * X / 1000));
      lia. }
  assert (Hp2 : getPeakCurrent m2 = getPeakCurrent m1).
  { subst m2. unfold setPeakCurrent. rewrite to_u16_never_minus_one.
    rewrite (to_u16_small (getPeakCurrent m1)) by lia.
    cbn [negb getPeakCurrent with_currents peakCurrent].
    apply constrain_inside. exact Hpr. }
  assert (Hr2 : getRMSCurrent m2
                = constrain (707 * getPeakCurrent m1 / 1000) 0
                    (to_u16 MAX_RMS_BOARD_CURRENT)).
  { apply rms_after_setPeakCurrent. lia. }
  assert (Hmid : 0 <= 707 * getPeakCurrent m1 / 1000 <= X).
  { split; [apply Z.div_pos; lia|].
    apply Z.div_le_upper_bound; [lia|].
    assert (Hk : 0 < 1000) by lia.
    pose proof (Z.mul_div_le (1414 * X) 1000 Hk). lia. }
  split; [exact Hp2|]. split.
  - rewrite Hr2, Hr1. apply constrain_monotone; lia.
  - intros H1 H2 H3.
    assert (Hpe : getPeakCurrent m1 = 1414 * X / 1000).
    { rewrite Hp1. apply constrain_inside. lia. }
    split; [rewrite Hr1; apply constrain_inside; lia|].
    rewrite Hr2, Hpe, constrain_inside by (rewrite Hpe in Hmid; lia).
    assert (Hk : 0 < 1000) by lia. assert (Hk' : 1000 <> 0) by lia.
    pose proof (Z.mod_pos_bound (1414 * X) 1000 Hk).
    pose proof (Z.div_mod (1414 * X) 1000 Hk').
    pose proof (Z.mod_pos_bound (707 * (1414 * X / 1000)) 1000 Hk).
    pose proof (Z.div_mod (707 * (1414 * X / 1000)) 1000 Hk').
    lia.
Qed.

(** After [setMicrostepping d], the step rate for an angular speed is the
    speed times [d] over the full step angle: doubling the divisor doubles
    the rate. *)
Theorem speedToHz_scales_with_divisor (angularSpeed : Q) (d : Z)
  (m : StepperMotor) (Hd : 0 < d < 65535)
  (Hf : ~ (fullStepAngle m == 0)%Q) :
  (speedToHz angularSpeed (setMicrostepping d m)
   == angularSpeed * inject_Z d / fullStepAngle m)%Q.
Proof.
  unfold speedToHz, setMicrostepping. rewrite to_u16_never_minus_one.
  rewrite to_u16_small by lia.
  cbn [negb with_stepping microstepAngle].
  assert (Hd' : ~ (inject_Z d == 0)%Q).
  { intros H. unfold Qeq in H. simpl in H. lia. }
  field. split; assumption.
Qed.

(** A freshly constructed motor, whose state starts as [MOTOR_NOT_SET], is
    [DISABLED] with both coils in [IDLE_MODE] at zero duty. *)
Theorem construct_disables_motor (env : Inputs) (m : StepperMotor)
  (Hmax : 0 <= PWM_MAX_DUTY_CYCLE) (Hfresh : state m = MOTOR_NOT_SET) :
  getState (construct env m) = DISABLED
  /\ coilsDeenergized (construct env m)
  /\ sameConfiguration m (construct env m).
Proof.
  unfold construct, getState.
  destruct (setState_transition_deenergizes env DISABLED true m Hmax)
    as [H1 H2].
  - rewrite Hfresh. discriminate.
  - left. reflexivity.
  - split; [exact H1|]. split; [exact H2|].
    apply setState_keeps_configuration.
Qed.

End Settings.



Lemma currentToPWM_monotone_witness :
  currentToPWM (board := refBoard) 100 <= currentToPWM (board := refBoard) 200.
Proof.
  apply (currentToPWM_monotone (board := refBoard)); simpl;
    try lia; discriminate.
Defined.

Lemma current_round_trip_is_lossy_witness :
  getRMSCurrent
    (setPeakCurrent (board := refBoard)
       (getPeakCurrent (setRMSCurrent (board := refBoard) 1000 refMotor))
       (setRMSCurrent (board := refBoard) 1000 refMotor))
  <= getRMSCurrent (setRMSCurrent (board := refBoard) 1000 refMotor).
Proof.
  apply (current_round_trip_is_lossy (board := refBoard) 1000 refMotor).
  lia.
Defined.

(** ** The value parser *)

Lemma indexOfFrom_absent (c : ascii) (s : list ascii) :
  forall i, ~ In c s -> indexOfFrom c s i = -1.
Proof.
  induction s as [|x s IH]; intros i Hn; [reflexivity|].
  cbn [indexOfFrom]. destruct (Ascii.eqb x c) eqn:E.
  - apply Ascii.eqb_eq in E. exfalso. apply Hn. left. exact E.
  - apply IH. intros H. apply Hn. right. exact H.
Qed.

Lemma indexOfFrom_first (c : ascii) (pre rest : list ascii) :
  forall i, ~ In c pre ->
  indexOfFrom c (pre ++ c :: rest) i = i + Z.of_nat (length pre).
Proof.
  induction pre as [|x pre IH]; intros i Hn.
  - cbn [app indexOfFrom length]. rewrite Ascii.eqb_refl. simpl. lia.
  - cbn [app indexOfFrom]. destruct (Ascii.eqb x c) eqn:E.
    + apply Ascii.eqb_eq in E. exfalso. apply Hn. left. exact E.
    + rewrite IH by (intros H; apply Hn; right; exact H).
      cbn [length]. lia.
Qed.

Lemma to_u32_small (z : Z) : 0 <= z < 4294967296 -> to_u32 z = z.
Proof. intros H. unfold to_u32. apply Z.mod_small. exact H. Qed.

(** [substring] between two positions of a string cut in three. *)
Lemma substring_middle (p mid post : list ascii) :
  Z.of_nat (length (p ++ mid ++ post)) < 4294967296 ->
  substring (p ++ mid ++ post) (Z.of_nat (length p))
    (Z.of_nat (length p) + Z.of_nat (length mid)) = mid.
Proof.
  intros Hlen. rewrite !length_app in Hlen. unfold substring.
  rewrite !to_u32_small by lia.
  destruct (Z.of_nat (length p) >? Z.of_nat (length p) + Z.of_nat (length mid))
    eqn:E1; [rewrite Z.gtb_ltb in E1; apply Z.ltb_lt in E1; lia|].
  rewrite !length_app.
  destruct (Z.of_nat (length p)
            >=? Z.of_nat (length p + (length mid + length post))) eqn:E2.
  - rewrite Z.geb_leb in E2. apply Z.leb_le in E2.
    destruct mid; [reflexivity | cbn [length] in E2; lia].
  - destruct (Z.of_nat (length p) + Z.of_nat (length mid)
              >? Z.of_nat (length p + (length mid + length post))) eqn:E3;
      [rewrite Z.gtb_ltb in E3; apply Z.ltb_lt in E3; lia|].
    rewrite Nat2Z.id.
    replace (Z.to_nat (Z.of_nat (length p) + Z.of_nat (length mid)
                       - Z.of_nat (length p))) with (length mid) by lia.
    rewrite skipn_app, skipn_all, Nat.sub_diag. cbn [app skipn].
    rewrite firstn_app, firstn_all, Nat.sub_diag. cbn [firstn].
    apply app_nil_r.
Qed.

(** [substring(left)] from a position to the end. *)
Lemma substringFrom_suffix (p s : list ascii) :
  Z.of_nat (length (p ++ s)) < 4294967296 ->
  substringFrom (p ++ s) (Z.of_nat (length p)) = s.
Proof.
  intros Hlen. unfold substringFrom.
  pose proof (substring_middle p s [] ) as H.
  rewrite app_nil_r in H. rewrite length_app, Nat2Z.inj_add.
  apply H. exact Hlen.
Qed.

Lemma toupper_space (c : ascii) : toupper c = space -> c = space.
Proof.
  destruct c as [[] [] [] [] [] [] [] []]; vm_compute; intros H;
    first [reflexivity | discriminate H].
Qed.

Lemma toUpperCase_keeps_spaces_out (s : list ascii) :
  ~ In space s -> ~ In space (toUpperCase s).
Proof.
  intros Hn Hin. unfold toUpperCase in Hin. apply in_map_iff in Hin.
  destruct Hin as (c & Hc & Hcin). apply toupper_space in Hc. subst c.
  contradiction.
Qed.

Section ParseValue.

Variables (pre tok rest : list ascii) (L letter : ascii).

Hypothesis Hletter : toupper L = toupper letter.
Hypothesis Hfirst : ~ In (toupper letter) (toUpperCase pre).
Hypothesis Hnotspace : toupper letter <> space.
Hypothesis Htok : ~ In space tok.

Lemma charIndex_found (tail : list ascii) :
  Z.of_nat (length (pre ++ L :: tail)) < 32768 ->
  to_i16 (indexOf (toupper letter) (toUpperCase (pre ++ L :: tail)))
  = Z.of_nat (length pre).
Proof.
  intros Hlen. rewrite length_app in Hlen. cbn [length] in Hlen.
  unfold toUpperCase. rewrite map_app. cbn [map]. rewrite Hletter.
  unfold indexOf. rewrite indexOfFrom_first by exact Hfirst.
  rewrite length_map. apply to_i16_small. lia.
Qed.

Lemma upper_split (tail : list ascii) :
  toUpperCase (pre ++ L :: tail)
  = toUpperCase pre ++ toupper letter :: toUpperCase tail.
Proof.
  unfold toUpperCase. rewrite map_app. cbn [map]. rewrite Hletter.
  reflexivity.
Qed.

(** A value that follows its letter directly and is followed by a space is
    returned in upper case, whatever comes before the first occurrence of
    the letter and after the space. *)
Theorem parseValue_token_before_space
  (Hnonempty : tok <> [])
  (Hlen : Z.of_nat (length (pre ++ L :: tok ++ space :: rest)) < 32768) :
  parseValue (pre ++ L :: tok ++ space :: rest) letter = toUpperCase tok.
Proof.
  unfold parseValue. rewrite charIndex_found by exact Hlen.
  rewrite upper_split.
  assert (Hl : Z.of_nat (length (toUpperCase pre ++ toupper letter
                                 :: toUpperCase (tok ++ space :: rest)))
               < 32768).
  { rewrite <- upper_split. unfold toUpperCase. rewrite length_map.
    exact Hlen. }
  destruct (Z.eqb_spec (Z.of_nat (length pre)) (-1)) as [E | _]; [lia|].
  cbn [negb].
  replace (Z.of_nat (length pre))
    with (Z.of_nat (length (toUpperCase pre)))
    by (unfold toUpperCase; rewrite length_map; reflexivity).
  rewrite substringFrom_suffix by lia.
  assert (Hsp : indexOf space
                  (toupper letter :: toUpperCase (tok ++ space :: rest))
                = 1 + Z.of_nat (length tok)).
  { unfold indexOf. cbn [indexOfFrom].
    destruct (Ascii.eqb (toupper letter) space) eqn:E;
      [apply Ascii.eqb_eq in E; contradiction|].
    unfold toUpperCase. rewrite map_app. cbn [map].
    change (toupper space) with space.
    rewrite indexOfFrom_first
      by (apply toUpperCase_keeps_spaces_out; exact Htok).
    rewrite length_map. lia. }
  rewrite Hsp.
  assert (Hlt : 0 < Z.of_nat (length tok))
    by (destruct tok; [contradiction | cbn [length]; lia]).
  list_len_in Hlen.
  rewrite to_i16_small by lia.
  destruct (Z.eqb_spec (1 + Z.of_nat (length tok)) 1) as [E | _]; [lia|].
  destruct (Z.eqb_spec (1 + Z.of_nat (length tok)) (-1)) as [E | _]; [lia|].
  cbn [negb].
  unfold toUpperCase at 2. rewrite map_app. cbn [map]. fold (toUpperCase tok).
  fold (toUpperCase rest).
  replace (toUpperCase pre ++ toupper letter
           :: toUpperCase tok ++ toupper space :: toUpperCase rest)
    with ((toUpperCase pre ++ [toupper letter])
          ++ toUpperCase tok ++ (toupper space :: toUpperCase rest))
    by (rewrite <- app_assoc; reflexivity).
  replace (Z.of_nat (length (toUpperCase pre)) + 1)
    with (Z.of_nat (length (toUpperCase pre ++ [toupper letter])))
    by (rewrite length_app; cbn [length]; lia).
  replace (Z.of_nat (length (toUpperCase pre))
           + (1 + Z.of_nat (length tok)))
    with (Z.of_nat (length (toUpperCase pre ++ [toupper letter]))
          + Z.of_nat (length (toUpperCase tok)))
    by (rewrite length_app; unfold toUpperCase; rewrite !length_map;
        cbn [length]; lia).
  apply substring_middle. list_len. lia.
Qed.

(** A value that follows its letter directly and runs to the end of the
    line is returned in upper case. *)
Theorem parseValue_token_at_end
  (Hlen : Z.of_nat (length (pre ++ L :: tok)) < 32768) :
  parseValue (pre ++ L :: tok) letter = toUpperCase tok.
Proof.
  unfold parseValue. rewrite charIndex_found by exact Hlen.
  rewrite upper_split.
  assert (Hl : Z.of_nat (length (toUpperCase pre ++ toupper letter
                                 :: toUpperCase tok)) < 32768).
  { rewrite <- upper_split. unfold toUpperCase. rewrite length_map.
    exact Hlen. }
  destruct (Z.eqb_spec (Z.of_nat (length pre)) (-1)) as [E | _]; [lia|].
  cbn [negb].
  replace (Z.of_nat (length pre))
    with (Z.of_nat (length (toUpperCase pre)))
    by (unfold toUpperCase; rewrite length_map; reflexivity).
  rewrite substringFrom_suffix by lia.
  assert (Hsp : indexOf space (toupper letter :: toUpperCase tok) = -1).
  { unfold indexOf. cbn [indexOfFrom].
    destruct (Ascii.eqb (toupper letter) space) eqn:E;
      [apply Ascii.eqb_eq in E; contradiction|].
    apply indexOfFrom_absent, toUpperCase_keeps_spaces_out, Htok. }
  rewrite Hsp. change (to_i16 (-1)) with (-1). cbn [Z.eqb negb].
  replace (toUpperCase pre ++ toupper letter :: toUpperCase tok)
    with ((toUpperCase pre ++ [toupper letter]) ++ toUpperCase tok)
    by (rewrite <- app_assoc; reflexivity).
  replace (Z.of_nat (length (toUpperCase pre)) + 1)
    with (Z.of_nat (length (toUpperCase pre ++ [toupper letter])))
    by (rewrite length_app; cbn [length]; lia).
  apply substringFrom_suffix.
  rewrite <- app_assoc. cbn [app]. lia.
Qed.

(** When exactly one space separates the letter from its value and another
    space follows the value, the value is returned together with that
    trailing space. *)
Theorem parseValue_separated_value_keeps_space
  (Hlen : Z.of_nat (length (pre ++ L :: space :: tok ++ space :: rest))
          < 32768) :
  parseValue (pre ++ L :: space :: tok ++ space :: rest) letter
  = toUpperCase tok ++ [space].
Proof.
  unfold parseValue. rewrite charIndex_found by exact Hlen.
  rewrite upper_split.
  assert (Hl : Z.of_nat (length (toUpperCase pre ++ toupper letter
                  :: toUpperCase (space :: tok ++ space :: rest))) < 32768).
  { rewrite <- upper_split. unfold toUpperCase. rewrite length_map.
    exact Hlen. }
  destruct (Z.eqb_spec (Z.of_nat (length pre)) (-1)) as [E | _]; [lia|].
  cbn [negb].
  replace (Z.of_nat (length pre))
    with (Z.of_nat (length (toUpperCase pre)))
    by (unfold toUpperCase; rewrite length_map; reflexivity).
  rewrite substringFrom_suffix by lia.
  assert (Hup : toUpperCase (space :: tok ++ space :: rest)
                = space :: toUpperCase tok ++ space :: toUpperCase rest).
  { unfold toUpperCase. cbn [map]. rewrite map_app. reflexivity. }
  rewrite Hup in *.
  assert (Hsp : indexOf space
                  (toupper letter
                   :: space :: toUpperCase tok ++ space :: toUpperCase rest)
                = 1).
  { unfold indexOf. cbn [indexOfFrom].
    destruct (Ascii.eqb (toupper letter) space) eqn:E;
      [apply Ascii.eqb_eq in E; contradiction|].
    rewrite Ascii.eqb_refl. reflexivity. }
  rewrite Hsp. change (to_i16 1) with 1. cbn [Z.eqb Pos.eqb].
  set (up := toUpperCase pre ++ [toupper letter; space]).
  assert (Hbuf : toUpperCase pre ++ toupper letter
                 :: space :: toUpperCase tok ++ space :: toUpperCase rest
                 = up ++ toUpperCase tok ++ space :: toUpperCase rest).
  { unfold up. rewrite <- app_assoc. reflexivity. }
  rewrite Hbuf in *.
  assert (Hup_len : Z.of_nat (length (toUpperCase pre)) + 1 + 1
                    = Z.of_nat (length up)).
  { unfold up. rewrite length_app. cbn [length]. lia. }
  rewrite Hup_len.
  rewrite substringFrom_suffix by lia.
  assert (Hend : indexOf space (toUpperCase tok ++ space :: toUpperCase rest)
                 = Z.of_nat (length tok)).
  { unfold indexOf.
    rewrite indexOfFrom_first
      by (apply toUpperCase_keeps_spaces_out; exact Htok).
    unfold toUpperCase. rewrite length_map. lia. }
  rewrite Hend.
  assert (Hl' : Z.of_nat (length tok) < 32768).
  { list_len_in Hl. lia. }
  rewrite to_i16_small by lia.
  destruct (Z.eqb_spec (Z.of_nat (length tok)) (-1)) as [E | _]; [lia|].
  cbn [negb].
  replace (up ++ toUpperCase tok ++ space :: toUpperCase rest)
    with (up ++ (toUpperCase tok ++ [space]) ++ toUpperCase rest)
    by (rewrite <- (app_assoc (toUpperCase tok)); reflexivity).
  replace (Z.of_nat (length (toUpperCase pre)) + 1 + Z.of_nat (length tok) + 2)
    with (Z.of_nat (length up)
          + Z.of_nat (length (toUpperCase tok ++ [space])))
    by (unfold up; list_len; lia).
  apply substring_middle. unfold up. list_len. list_len_in Hlen. lia.
Qed.

End ParseValue.

(** A letter that occurs in the line in neither case yields ["-1"]. *)
Theorem parseValue_absent_letter (buffer : list ascii) (letter : ascii)
  (Habsent : ~ In (toupper letter) (toUpperCase buffer)) :
  parseValue buffer letter = minusOne.
Proof.
  unfold parseValue, indexOf.
  rewrite indexOfFrom_absent by exact Habsent. reflexivity.
Qed.

Lemma parseValue_token_before_space_witness :
  parseValue ["M"; "3"; "5"; "0"; " "; "v"; "1"; "6"; " "; "x"]%char "V"%char
  = ["1"; "6"]%char.
Proof.
  apply (parseValue_token_before_space ["M"; "3"; "5"; "0"; " "]%char
           ["1"; "6"]%char ["x"]%char "v"%char "V"%char).
  - reflexivity.
  - simpl. intuition discriminate.
  - discriminate.
  - simpl. intuition discriminate.
  - discriminate.
  - simpl. lia.
Defined.

Lemma parseValue_token_at_end_witness :
  parseValue ["M"; "9"; "3"; " "; "V"; "1"; "."; "8"]%char "V"%char
  = ["1"; "."; "8"]%char.
Proof.
  apply (parseValue_token_at_end ["M"; "9"; "3"; " "]%char
           ["1"; "."; "8"]%char "V"%char "V"%char).
  - reflexivity.
  - simpl. intuition discriminate.
  - discriminate.
  - simpl. intuition discriminate.
  - simpl. lia.
Defined.

Lemma parseValue_separated_value_keeps_space_witness :
  parseValue ["G"; "6"; " "; "D"; " "; "1"; " "; "R"; "5"]%char "D"%char
  = ["1"; " "]%char.
Proof.
  apply (parseValue_separated_value_keeps_space ["G"; "6"; " "]%char
           ["1"]%char ["R"; "5"]%char "D"%char "D"%char).
  - reflexivity.
  - simpl. intuition discriminate.
  - discriminate.
  - simpl. intuition discriminate.
  - simpl. lia.
Defined.

Lemma parseValue_absent_letter_witness :
  parseValue ["M"; "1"; "7"]%char "V"%char = minusOne.
Proof.
  apply parseValue_absent_letter. simpl. intuition discriminate.
Defined.

(** ** The string parser *)

(** [parseString] finds its letter only in upper case: when the upper-case
    letter does not occur in the line, the result is ["-1"] and
    [FEEDBACK_NO_VALUE] is printed, even if the lower-case letter occurs. *)
Theorem parseString_needs_upper_case (buffer : list ascii) (letter : ascii)
  (Habsent : ~ In (toupper letter) buffer) :
  parseString buffer letter = (minusOne, [FEEDBACK_NO_VALUE]).
Proof.
  assert (H : indexOf (toupper letter) buffer = -1)
    by (apply indexOfFrom_absent; exact Habsent).
  unfold parseString. rewrite H.
  change (to_i16 (-1)) with (-1). cbn [Z.eqb Pos.eqb orb negb].
  destruct (negb ((to_i16 (indexOf (tolower letter) buffer) =? -1)
                  || (to_i16 (indexOf (tolower letter) buffer) =? 65535)));
    reflexivity.
Qed.

(** A quoted message after the first upper-case occurrence of the letter is
    returned as it is, without the quotation marks, and nothing is
    printed. *)
Theorem parseString_quoted_message (pre mid msg rest : list ascii)
  (letter : ascii)
  (Hfirst : ~ In (toupper letter) pre)
  (Hmid : ~ In quotation mid)
  (Hmsg : ~ In quotation msg)
  (Hlen : Z.of_nat (length (pre ++ toupper letter :: mid ++ quotation
                            :: msg ++ quotation :: rest)) < 32768) :
  parseString (pre ++ toupper letter :: mid ++ quotation
               :: msg ++ quotation :: rest) letter
  = (msg, []).
Proof.
  set (buffer := pre ++ toupper letter :: mid ++ quotation
                 :: msg ++ quotation :: rest) in *.
  assert (Hb1 : buffer = (pre ++ [toupper letter])
                         ++ (mid ++ quotation :: msg ++ quotation :: rest)).
  { unfold buffer. rewrite <- app_assoc. reflexivity. }
  assert (Hb2 : buffer = (pre ++ [toupper letter] ++ mid ++ [quotation])
                         ++ msg ++ (quotation :: rest)).
  { unfold buffer.
    repeat first [rewrite <- app_assoc | progress cbn [app]]. reflexivity. }
  assert (Hl1 : Z.of_nat (length (pre ++ [toupper letter]))
                = Z.of_nat (length pre) + 1) by (list_len; lia).
  assert (Hl2 : Z.of_nat (length (pre ++ [toupper letter] ++ mid
                                  ++ [quotation]))
                = Z.of_nat (length pre) + Z.of_nat (length mid) + 2)
    by (list_len; lia).
  assert (Hlens : Z.of_nat (length pre) + Z.of_nat (length mid)
                  + Z.of_nat (length msg) + 3 <= Z.of_nat (length buffer)).
  { unfold buffer. list_len. lia. }
  unfold parseString.
  assert (Hup : indexOf (toupper letter) buffer = Z.of_nat (length pre)).
  { unfold indexOf, buffer. rewrite indexOfFrom_first by exact Hfirst. lia. }
  rewrite Hup, (to_i16_small (Z.of_nat (length pre))) by lia.
  destruct (Z.eqb_spec (Z.of_nat (length pre)) (-1)) as [E | _]; [lia|].
  destruct (Z.eqb_spec (Z.of_nat (length pre)) 65535) as [E | _]; [lia|].
  cbn [orb negb].
  destruct (Z.eqb_spec (Z.of_nat (length pre)) (-1)) as [E | _]; [lia|].
  cbn [negb].
  assert (Hs1 : substringFrom buffer (Z.of_nat (length pre) + 1)
                = mid ++ quotation :: msg ++ quotation :: rest).
  { rewrite <- Hl1. rewrite Hb1 at 1. apply substringFrom_suffix.
    rewrite <- Hb1. lia. }
  rewrite Hs1.
  assert (Hq1 : indexOf quotation (mid ++ quotation :: msg ++ quotation :: rest)
                = Z.of_nat (length mid)).
  { unfold indexOf. rewrite indexOfFrom_first by exact Hmid. lia. }
  rewrite Hq1, (to_i16_small (Z.of_nat (length mid))) by lia.
  assert (Hs2 : substringFrom buffer
                  (Z.of_nat (length pre) + Z.of_nat (length mid) + 2)
                = msg ++ quotation :: rest).
  { rewrite <- Hl2. rewrite Hb2 at 1. apply substringFrom_suffix.
    rewrite <- Hb2. lia. }
  rewrite Hs2.
  assert (Hq2 : indexOf quotation (msg ++ quotation :: rest)
                = Z.of_nat (length msg)).
  { unfold indexOf. rewrite indexOfFrom_first by exact Hmsg. lia. }
  rewrite Hq2, (to_i16_small (Z.of_nat (length msg))) by lia.
  destruct (Z.eqb_spec (Z.of_nat (length mid)) (-1)) as [E | _]; [lia|].
  destruct (Z.eqb_spec (Z.of_nat (length msg)) (-1)) as [E | _]; [lia|].
  cbn [negb andb]. f_equal.
  replace (Z.of_nat (length pre) + Z.of_nat (length mid)
           + Z.of_nat (length msg) + 2)
    with (Z.of_nat (length (pre ++ [toupper letter] ++ mid ++ [quotation]))
          + Z.of_nat (length msg)) by lia.
  rewrite <- Hl2. rewrite Hb2 at 1. apply substring_middle.
  rewrite <- Hb2. lia.
Qed.

Lemma parseString_needs_upper_case_witness :
  parseString ["m"; quotation; "h"; "i"; quotation]%char "m"%char
  = (minusOne, [FEEDBACK_NO_VALUE]).
Proof.
  apply parseString_needs_upper_case. simpl.
  intros [H | [H | [H | [H | [H | []]]]]]; discriminate H.
Defined.

Lemma parseString_quoted_message_witness :
  parseString
    ([] ++ toupper "m"%char
     :: ["1"; "1"; "6"; " "; "S"; "1"; " "; "M"]%char
        ++ quotation :: ["H"; "i"]%char ++ quotation :: [])
    "m"%char
  = (["H"; "i"]%char, []).
Proof.
  apply (parseString_quoted_message []
           ["1"; "1"; "6"; " "; "S"; "1"; " "; "M"]%char
           ["H"; "i"]%char [] "m"%char).
  - simpl. tauto.
  - vm_compute. intuition discriminate.
  - vm_compute. intuition discriminate.
  - simpl. lia.
Defined.

Lemma speedToHz_scales_with_divisor_witness :
  (speedToHz 360 (setMicrostepping 32 refMotor) == 6400)%Q.
Proof.
  rewrite (speedToHz_scales_with_divisor 360 32 refMotor).
  - reflexivity.
  - lia.
  - intros H. discriminate H.
Defined.

Lemma construct_disables_motor_witness :
  getState (construct (board := refBoard) refInputs
              (with_state MOTOR_NOT_SET refMotor)) = DISABLED.
Proof.
  apply (construct_disables_motor (board := refBoard) refInputs
           (with_state MOTOR_NOT_SET refMotor)).
  - simpl. lia.
  - reflexivity.
Defined.
